(** * Reti staking pool: ledger, epoch payout and authorisation

    A shallow embedding of the [StakingPool] contract (the second,
    current class of the contract source) and the properties of its stake
    ledger, its epoch balance update and its owner/manager gate.

    - AVM [uint64] values are [N]; the AVM panics on overflow, underflow and
      division by zero, so every arithmetic step is an [option] and a panic
      is [None].
    - A contract call is a function from the pool state to
      [option (Pool * list InnerTxn * result)]: [None] is a failed
      transaction, which the ledger rolls back entirely.
    - Read-only calls to other applications (the queries to the validator
      registry and to pool 1) are answered by the [Chain] the call runs
      against.  The inner transactions that move value, register keys or
      report to the registry are listed in the outcome, and the call fails
      when the ledger refuses one of them.
    - The opcode-budget top-ups inside the loops change no contract state and
      are left out. *)

From stdpp Require Import base option list numbers strings.
From Stdlib Require Import NArith Lia.

Local Open Scope N_scope.

(** ** AVM arithmetic *)

Module AVM.

Definition MAX_UINT64 : N := 18446744073709551615.
Definition MAX_UINT128 : N := 340282366920938463463374607431768211455.

(** [assert(c)] *)
Definition assert (c : bool) : option unit := if c then Some tt else None.

(** [+] panics when the sum leaves 64 bits. *)
Definition add64 (a b : N) : option N :=
  if a + b <=? MAX_UINT64 then Some (a + b) else None.

(** [-] panics when the result would be negative. *)
Definition sub64 (a b : N) : option N :=
  if b <=? a then Some (a - b) else None.

(** [*] panics when the product leaves 64 bits. *)
Definition mul64 (a b : N) : option N :=
  if a * b <=? MAX_UINT64 then Some (a * b) else None.

(** [/] panics on a zero divisor. *)
Definition div64 (a b : N) : option N :=
  if b =? 0 then None else Some (a / b).

Definition product (l : list N) : N := foldr N.mul 1 l.

(** The compiler built-in [wideRatio(numerators, denominators)]: the
    quotient of the two products, the products kept in 128 bits and the
    quotient required to fit 64 bits. *)
Definition wideRatio (numerators denominators : list N) : option N :=
  let n := product numerators in
  let d := product denominators in
  if d =? 0 then None
  else if (MAX_UINT128 <? n) || (MAX_UINT128 <? d) then None
  else if n / d <=? MAX_UINT64 then Some (n / d) else None.

End AVM.
Import AVM.

(** ** Data model *)

(** A 32-byte account address, read as a number; the zero address is the
    ledger's empty-slot sentinel. *)
Definition Address : Type := N.
Definition zeroAddress : Address := 0.

Record StakedInfo : Type := mkStakedInfo {
  account : Address;
  balance : N;
  totalRewarded : N;
  rewardTokenBalance : N;
  entryTime : N
}.

(** A zero-filled box slot. *)
Definition emptySlot : StakedInfo := mkStakedInfo zeroAddress 0 0 0 0.

(** Global state and the [stakers] box of one pool.  [lastPayout] and
    [stakers] are optional because the code asks whether they exist. *)
Record Pool : Type := mkPool {
  creatingValidatorContractAppId : N;
  validatorId : N;
  poolId : N;
  numStakers : N;
  totalAlgoStaked : N;
  minEntryStake : N;
  lastPayout : option N;
  epochNumber : N;
  algodVer : string;
  stakers : option (list StakedInfo)
}.

Definition set_stakers (l : list StakedInfo) (s : Pool) : Pool :=
  mkPool (creatingValidatorContractAppId s) (validatorId s) (poolId s)
    (numStakers s) (totalAlgoStaked s) (minEntryStake s) (lastPayout s)
    (epochNumber s) (algodVer s) (Some l).

Definition set_numStakers (n : N) (s : Pool) : Pool :=
  mkPool (creatingValidatorContractAppId s) (validatorId s) (poolId s)
    n (totalAlgoStaked s) (minEntryStake s) (lastPayout s)
    (epochNumber s) (algodVer s) (stakers s).

Definition set_totalAlgoStaked (n : N) (s : Pool) : Pool :=
  mkPool (creatingValidatorContractAppId s) (validatorId s) (poolId s)
    (numStakers s) n (minEntryStake s) (lastPayout s)
    (epochNumber s) (algodVer s) (stakers s).

Definition set_lastPayout (t : N) (s : Pool) : Pool :=
  mkPool (creatingValidatorContractAppId s) (validatorId s) (poolId s)
    (numStakers s) (totalAlgoStaked s) (minEntryStake s) (Some t)
    (epochNumber s) (algodVer s) (stakers s).

Definition set_epochNumber (n : N) (s : Pool) : Pool :=
  mkPool (creatingValidatorContractAppId s) (validatorId s) (poolId s)
    (numStakers s) (totalAlgoStaked s) (minEntryStake s) (lastPayout s)
    n (algodVer s) (stakers s).

Definition set_algodVer (v : string) (s : Pool) : Pool :=
  mkPool (creatingValidatorContractAppId s) (validatorId s) (poolId s)
    (numStakers s) (totalAlgoStaked s) (minEntryStake s) (lastPayout s)
    (epochNumber s) v (stakers s).

(** The registry's records, with the fields the pool reads. *)
Module ValidatorConfig.
Record t : Type := mk {
  owner : Address;
  manager : Address;
  rewardTokenId : N;
  rewardPerPayout : N;
  payoutEveryXMins : N;
  percentToValidator : N;
  validatorCommissionAddress : Address
}.
End ValidatorConfig.

Module ValidatorState.
Record t : Type := mk {
  numPools : N;
  totalStakers : N;
  totalAlgoStaked : N;
  rewardTokenHeldBack : N
}.
End ValidatorState.

Module PoolTokenPayoutRatio.
Record t : Type := mk {
  poolPctOfWhole : list N;
  updatedForPayout : N
}.
End PoolTokenPayoutRatio.

Module ValidatorPoolKey.
Record t : Type := mk {
  id : N;
  poolId : N;
  poolAppId : N
}.
End ValidatorPoolKey.

(** A payment transaction of the caller's group. *)
Record PayTxn : Type := mkPayTxn {
  pay_sender : Address;
  pay_receiver : Address;
  pay_amount : N
}.

(** What the validator registry application answers. *)
Record Registry : Type := mkRegistry {
  getValidatorConfig : N -> ValidatorConfig.t;
  getValidatorState : N -> ValidatorState.t;
  getValidatorOwnerAndManager : N -> Address * Address;
  getPoolAppId : N -> N -> N;
  setTokenPayoutRatio : N -> PoolTokenPayoutRatio.t
}.

(** The inner transactions of a call that move value, register keys or
    report to another application, in the order the call submits them:
    payments, asset transfers, the [stakeRemoved] and
    [stakeUpdatedViaRewards] calls to the registry, key registrations and
    the NFD verification call.  The read-only queries to the registry are
    not listed; their answers are part of the [Chain]. *)
Inductive InnerTxn : Type :=
  | Payment (receiver : Address) (amount : N) (note : string)
  | AssetTransfer (xferAsset : N) (assetReceiver : Address) (assetAmount : N)
  | StakeRemoved (poolKey : ValidatorPoolKey.t) (staker : Address)
      (amountRemoved rewardRemoved : N) (stakerRemoved : bool)
  | StakeUpdatedViaRewards (poolKey : ValidatorPoolKey.t)
      (algoToAdd rewardTokenAmountReserved validatorCommission
       saturatedBurnToFeeSink : N)
  | OnlineKeyRegistration (votePK selectionPK stateProofPK : string)
      (voteFirst voteLast voteKeyDilution : N)
  | OfflineKeyRegistration
  | VerifyNfdAddr (nfdRegistry : N) (nfdName : string) (nfdAppId : N)
      (addr : Address).

(** The ledger as one call sees it.  [innerTxnAccepted] is the ledger's
    verdict on an inner transaction the pool submits during the call: a
    payment is refused when it would take the pool account below its minimum
    balance, an asset transfer when the receiver has not opted in or the
    holding is short, a call to the registry when the registry rejects
    it. *)
Record Chain : Type := mkChain {
  latestTimestamp : N;
  appAddress : N -> Address;
  acctBalance : Address -> N;
  acctMinBalance : Address -> N;
  assetBalance : Address -> N -> N;
  registryApp : N -> Registry;
  proxiedSetTokenPayoutRatioApp : N -> ValidatorPoolKey.t -> PoolTokenPayoutRatio.t;
  innerTxnAccepted : InnerTxn -> bool
}.

(** The application call itself: [this.txn.sender] and [this.app.id]. *)
Record Txn : Type := mkTxn {
  sender : Address;
  appId : N
}.

Definition ALGORAND_STAKING_BLOCK_DELAY : N := 320.
Definition AVG_BLOCK_TIME_SECS : N := 28.

(** ** The contract *)

(** Constants of the contract's constants module and its template
    variables, which the contract source imports but does not define. *)
Class Constants : Type := {
  MAX_STAKERS_PER_POOL : N;
  MIN_ALGO_STAKE_PER_POOL : N;
  MAX_VALIDATOR_SOFT_PCT_OF_ONLINE_1DECIMAL : N;
  ALGORAND_ACCOUNT_MIN_BALANCE : N;
  ASSET_HOLDING_FEE : N;
  nfdRegistryAppId : N;
  feeSinkAddr : Address
}.

Section StakingPool.

Context `{Constants}.

(** The outcome of a call: the new state, the inner transactions it
    submitted and its return value. *)
Definition Outcome (R : Type) : Type := option (Pool * list InnerTxn * R).

Definition registryOf (ch : Chain) (s : Pool) : Registry :=
  registryApp ch (creatingValidatorContractAppId s).

(** Submitting inner transactions: a refused inner transaction fails the
    whole call. *)
Definition submit (ch : Chain) (txns : list InnerTxn) : option unit :=
  assert (forallb (innerTxnAccepted ch) txns).

Definition poolKeyOf (tx : Txn) (s : Pool) : ValidatorPoolKey.t :=
  ValidatorPoolKey.mk (validatorId s) (poolId s) (appId tx).

Definition createApplication (ch : Chain)
    (creatingContractId validatorId poolId minEntryStake : N) : option Pool :=
  _ ← (if creatingContractId =? 0
       then _ ← assert (validatorId =? 0); assert (poolId =? 0)
       else _ ← assert (negb (validatorId =? 0)); assert (negb (poolId =? 0)));
  _ ← assert (MIN_ALGO_STAKE_PER_POOL <=? minEntryStake);
  Some (mkPool creatingContractId validatorId poolId 0 0 minEntryStake
          (Some (latestTimestamp ch)) 0 "" None).

Definition costForBoxStorage (totalNumBytes : N) : option N :=
  let SCBOX_PERBOX := 2500 in
  let SCBOX_PERBYTE := 400 in
  b ← mul64 totalNumBytes SCBOX_PERBYTE;
  add64 SCBOX_PERBOX b.

(** [len<StakedInfo>()]: a 32-byte address and four uint64. *)
Definition len_StakedInfo : N := 64.

Definition initStorage (ch : Chain) (tx : Txn) (mbrPayment : PayTxn)
    (s : Pool) : Outcome unit :=
  _ ← assert (bool_decide (stakers s = None));
  let validatorConfig := getValidatorConfig (registryOf ch s) (validatorId s) in
  let isTokenEligible := negb (ValidatorConfig.rewardTokenId validatorConfig =? 0) in
  let extraMBR := if isTokenEligible && (poolId s =? 1) then ASSET_HOLDING_FEE else 0 in
  ledgerBytes ← mul64 len_StakedInfo MAX_STAKERS_PER_POOL;
  boxBytes ← add64 7 ledgerBytes;
  boxCost ← costForBoxStorage boxBytes;
  base ← add64 ALGORAND_ACCOUNT_MIN_BALANCE extraMBR;
  PoolInitMbr ← add64 base boxCost;
  _ ← assert (pay_amount mbrPayment =? PoolInitMbr);
  let s' := set_stakers (replicate (N.to_nat MAX_STAKERS_PER_POOL) emptySlot) s in
  let txns :=
    if isTokenEligible && (poolId s =? 1)
    then [AssetTransfer (ValidatorConfig.rewardTokenId validatorConfig)
            (appAddress ch (appId tx)) 0]
    else [] in
  _ ← submit ch txns;
  Some (s', txns, tt).

Definition getEntryTime (ch : Chain) : option N :=
  let entryTime := latestTimestamp ch in
  add64 entryTime ((ALGORAND_STAKING_BLOCK_DELAY * AVG_BLOCK_TIME_SECS) / 10).

(** The scan of [addStake]: [inl (i, cmpStaker)] when slot [i] holds the
    staker (the early return), otherwise [inr firstEmpty], the 1-based
    index at which the loop stopped on an empty slot, or 0 when it ran to
    the end. *)
Fixpoint addStake_scan (staker : Address) (l : list StakedInfo) (i : nat)
    : (nat * StakedInfo) + nat :=
  match l with
  | [] => inr 0%nat
  | cmpStaker :: rest =>
      if account cmpStaker =? staker then inl (i, cmpStaker)
      else if account cmpStaker =? zeroAddress then inr (i + 1)%nat
      else addStake_scan staker rest (S i)
  end.

Definition addStake (ch : Chain) (tx : Txn) (stakedAmountPayment : PayTxn)
    (staker : Address) (s : Pool) : Outcome N :=
  ledger ← stakers s;
  _ ← assert (sender tx =? appAddress ch (creatingValidatorContractAppId s));
  _ ← assert (negb (staker =? zeroAddress));
  _ ← assert (pay_sender stakedAmountPayment
                =? appAddress ch (creatingValidatorContractAppId s));
  _ ← assert (pay_receiver stakedAmountPayment =? appAddress ch (appId tx));
  entryTime ← getEntryTime ch;
  match addStake_scan staker ledger 0 with
  | inl (i, cmpStaker) =>
      newBalance ← add64 (balance cmpStaker) (pay_amount stakedAmountPayment);
      let cmpStaker' :=
        mkStakedInfo (account cmpStaker) newBalance (totalRewarded cmpStaker)
          (rewardTokenBalance cmpStaker) entryTime in
      total ← add64 (totalAlgoStaked s) (pay_amount stakedAmountPayment);
      Some (set_totalAlgoStaked total (set_stakers (<[i := cmpStaker']> ledger) s),
            [], entryTime)
  | inr firstEmpty =>
      _ ← assert (negb (Nat.eqb firstEmpty 0));
      _ ← assert (minEntryStake s <=? pay_amount stakedAmountPayment);
      slot ← ledger !! (firstEmpty - 1)%nat;
      _ ← assert (account slot =? zeroAddress);
      let entry :=
        mkStakedInfo staker (pay_amount stakedAmountPayment) 0 0 entryTime in
      n ← add64 (numStakers s) 1;
      total ← add64 (totalAlgoStaked s) (pay_amount stakedAmountPayment);
      Some (set_totalAlgoStaked total
              (set_numStakers n
                 (set_stakers (<[(firstEmpty - 1)%nat := entry]> ledger) s)),
            [], entryTime)
  end.

(** The scan shared by [removeStake], [claimTokens] and [getStakerInfo]:
    the first slot whose account is the staker. *)
Fixpoint findStaker (staker : Address) (l : list StakedInfo) (i : nat)
    : option (nat * StakedInfo) :=
  match l with
  | [] => None
  | cmpStaker :: rest =>
      if account cmpStaker =? staker then Some (i, cmpStaker)
      else findStaker staker rest (S i)
  end.

Definition removeStake (ch : Chain) (tx : Txn) (amountToUnstake : N)
    (s : Pool) : Outcome unit :=
  let staker := sender tx in
  ledger ← stakers s;
  '(i, cmpStaker) ← findStaker staker ledger 0;
  let amountToUnstake :=
    if amountToUnstake =? 0 then balance cmpStaker else amountToUnstake in
  _ ← assert (negb (balance cmpStaker <? amountToUnstake));
  newBalance ← sub64 (balance cmpStaker) amountToUnstake;
  total ← sub64 (totalAlgoStaked s) amountToUnstake;
  let hasToken := 0 <? rewardTokenBalance cmpStaker in
  let tokenTxns :=
    if hasToken && (poolId s =? 1)
    then [AssetTransfer
            (ValidatorConfig.rewardTokenId
               (getValidatorConfig (registryOf ch s) (validatorId s)))
            staker (rewardTokenBalance cmpStaker)]
    else [] in
  let amountRewardTokenRemoved :=
    if hasToken then rewardTokenBalance cmpStaker else 0 in
  let tokenLeft := if hasToken then 0 else rewardTokenBalance cmpStaker in
  _ ← assert ((newBalance =? 0) || (minEntryStake s <=? newBalance));
  let payment := Payment staker amountToUnstake "unstaked" in
  let stakerRemoved := newBalance =? 0 in
  n ← (if stakerRemoved then sub64 (numStakers s) 1 else Some (numStakers s));
  let cmpStaker' :=
    if stakerRemoved
    then mkStakedInfo zeroAddress newBalance 0 0 (entryTime cmpStaker)
    else mkStakedInfo (account cmpStaker) newBalance (totalRewarded cmpStaker)
           tokenLeft (entryTime cmpStaker) in
  let txns :=
    tokenTxns ++
    [payment;
     StakeRemoved (poolKeyOf tx s) staker amountToUnstake
       amountRewardTokenRemoved stakerRemoved] in
  _ ← submit ch txns;
  Some (set_numStakers n
          (set_totalAlgoStaked total
             (set_stakers (<[i := cmpStaker']> ledger) s)),
        txns, tt).

Definition claimTokens (ch : Chain) (tx : Txn) (s : Pool) : Outcome unit :=
  let staker := sender tx in
  ledger ← stakers s;
  '(i, cmpStaker) ← findStaker staker ledger 0;
  if rewardTokenBalance cmpStaker =? 0 then Some (s, [], tt)
  else
    let tokenTxns :=
      if poolId s =? 1
      then [AssetTransfer
              (ValidatorConfig.rewardTokenId
                 (getValidatorConfig (registryOf ch s) (validatorId s)))
              staker (rewardTokenBalance cmpStaker)]
      else [] in
    let amountRewardTokenRemoved := rewardTokenBalance cmpStaker in
    let cmpStaker' :=
      mkStakedInfo (account cmpStaker) (balance cmpStaker)
        (totalRewarded cmpStaker) 0 (entryTime cmpStaker) in
    let txns :=
      tokenTxns ++
      [StakeRemoved (poolKeyOf tx s) staker 0 amountRewardTokenRemoved false] in
    _ ← submit ch txns;
    Some (set_stakers (<[i := cmpStaker']> ledger) s, txns, tt).

Definition getStakerInfo (staker : Address) (s : Pool) : option StakedInfo :=
  ledger ← stakers s;
  snd <$> findStaker staker ledger 0.

(** *** Owner and manager gate *)

Definition isOwnerOrManagerCaller (ch : Chain) (tx : Txn) (s : Pool) : bool :=
  let OwnerAndManager :=
    getValidatorOwnerAndManager (registryOf ch s) (validatorId s) in
  (sender tx =? fst OwnerAndManager) || (sender tx =? snd OwnerAndManager).

(** The write to global state fails when key and value together exceed the
    AVM's 128 bytes; the key [algodVer] takes 8 of them. *)
Definition updateAlgodVer (ch : Chain) (tx : Txn) (algodVer : string)
    (s : Pool) : Outcome unit :=
  _ ← assert (isOwnerOrManagerCaller ch tx s);
  _ ← assert (String.length algodVer <=? 120)%nat;
  Some (set_algodVer algodVer s, [], tt).

Definition goOnline (ch : Chain) (tx : Txn)
    (votePK selectionPK stateProofPK : string)
    (voteFirst voteLast voteKeyDilution : N) (s : Pool) : Outcome unit :=
  _ ← assert (isOwnerOrManagerCaller ch tx s);
  let txns :=
    [OnlineKeyRegistration votePK selectionPK stateProofPK
       voteFirst voteLast voteKeyDilution] in
  _ ← submit ch txns;
  Some (s, txns, tt).

Definition goOffline (ch : Chain) (tx : Txn) (s : Pool) : Outcome unit :=
  _ ← (if negb (sender tx =? appAddress ch (creatingValidatorContractAppId s))
       then assert (isOwnerOrManagerCaller ch tx s)
       else Some tt);
  _ ← submit ch [OfflineKeyRegistration];
  Some (s, [OfflineKeyRegistration], tt).

Definition linkToNFD (ch : Chain) (tx : Txn) (nfdAppId : N) (nfdName : string)
    (s : Pool) : Outcome unit :=
  _ ← assert (isOwnerOrManagerCaller ch tx s);
  let txns :=
    [VerifyNfdAddr nfdRegistryAppId nfdName nfdAppId
       (appAddress ch (appId tx))] in
  _ ← submit ch txns;
  Some (s, txns, tt).

(** [gas]: a no-op. *)
Definition gas (s : Pool) : Outcome unit := Some (s, [], tt).

Definition proxiedSetTokenPayoutRatio (ch : Chain) (tx : Txn)
    (poolKey : ValidatorPoolKey.t) (s : Pool) : Outcome PoolTokenPayoutRatio.t :=
  _ ← assert (validatorId s =? ValidatorPoolKey.id poolKey);
  _ ← assert (poolId s =? 1);
  _ ← assert (negb (ValidatorPoolKey.poolId poolKey =? 1));
  let callerPoolAppID :=
    getPoolAppId (registryOf ch s) (ValidatorPoolKey.id poolKey)
      (ValidatorPoolKey.poolId poolKey) in
  _ ← assert (callerPoolAppID =? ValidatorPoolKey.poolAppId poolKey);
  _ ← assert (sender tx =? appAddress ch (ValidatorPoolKey.poolAppId poolKey));
  Some (s, [], setTokenPayoutRatio (registryOf ch s) (validatorId s)).

Definition payTokenReward (ch : Chain) (tx : Txn) (staker : Address)
    (rewardToken amountToSend : N) (s : Pool) : Outcome unit :=
  _ ← assert (sender tx =? appAddress ch (creatingValidatorContractAppId s));
  _ ← assert (poolId s =? 1);
  _ ← assert (negb (rewardToken =? 0));
  _ ← submit ch [AssetTransfer rewardToken staker amountToSend];
  Some (s, [AssetTransfer rewardToken staker amountToSend], tt).

(** *** Epoch balance update *)

Definition getFeeSink : Address := feeSinkAddr.

Definition getCurrentOnlineStake : N := 2000000000000000.

Definition algoSaturationLevel : option N :=
  let online := getCurrentOnlineStake in
  wideRatio [online; MAX_VALIDATOR_SOFT_PCT_OF_ONLINE_1DECIMAL] [1000].

(** The epoch gate and the two unconditional updates that follow it. *)
Definition epochInSecsOf (validatorConfig : ValidatorConfig.t) : option N :=
  mul64 (ValidatorConfig.payoutEveryXMins validatorConfig) 60.

Definition epochGate (ch : Chain) (s : Pool) : option Pool :=
  let validatorConfig := getValidatorConfig (registryOf ch s) (validatorId s) in
  let curTime := latestTimestamp ch in
  epochInSecs ← epochInSecsOf validatorConfig;
  _ ← match lastPayout s with
      | Some last =>
          secsSinceLastPayout ← sub64 curTime last;
          assert (epochInSecs <=? secsSinceLastPayout)
      | None => Some tt
      end;
  n ← add64 (epochNumber s) 1;
  Some (set_epochNumber n (set_lastPayout curTime s)).

(** Pool 1's application id and the snapshot of the per-pool percentages,
    taken only for a validator with a reward token. *)
Definition poolOneAppIDOf (ch : Chain) (tx : Txn) (s : Pool) : N :=
  let validatorConfig := getValidatorConfig (registryOf ch s) (validatorId s) in
  let isTokenEligible := negb (ValidatorConfig.rewardTokenId validatorConfig =? 0) in
  if isTokenEligible && negb (poolId s =? 1)
  then getPoolAppId (registryOf ch s) (validatorId s) 1
  else appId tx.

Definition tokenPayoutRatioOf (ch : Chain) (tx : Txn) (s : Pool)
    : PoolTokenPayoutRatio.t :=
  if poolId s =? 1
  then setTokenPayoutRatio (registryOf ch s) (validatorId s)
  else proxiedSetTokenPayoutRatioApp ch (poolOneAppIDOf ch tx s) (poolKeyOf tx s).

(** [tokenRewardAvail] as the code leaves it before the minimum-reward
    assertion. *)
Definition tokenRewardAvailOf (ch : Chain) (tx : Txn) (s : Pool) : option N :=
  let validatorConfig := getValidatorConfig (registryOf ch s) (validatorId s) in
  let validatorState := getValidatorState (registryOf ch s) (validatorId s) in
  let rewardTokenHeldBack := ValidatorState.rewardTokenHeldBack validatorState in
  let isTokenEligible := negb (ValidatorConfig.rewardTokenId validatorConfig =? 0) in
  let poolOneAddress := appAddress ch (poolOneAppIDOf ch tx s) in
  if isTokenEligible then
    tokenRewardBal ←
      sub64 (assetBalance ch poolOneAddress
               (ValidatorConfig.rewardTokenId validatorConfig))
            rewardTokenHeldBack;
    if ValidatorConfig.rewardPerPayout validatorConfig <=? tokenRewardBal then
      index ← sub64 (poolId s) 1;
      ourPoolPctOfWhole ←
        PoolTokenPayoutRatio.poolPctOfWhole (tokenPayoutRatioOf ch tx s)
          !! N.to_nat index;
      wideRatio [ValidatorConfig.rewardPerPayout validatorConfig; ourPoolPctOfWhole]
                [1000000]
    else Some 0
  else Some 0.

(** The surplus: balance less tracked stake less the minimum balance. *)
Definition algoRewardAvailOf (ch : Chain) (tx : Txn) (s : Pool) : option N :=
  let self := appAddress ch (appId tx) in
  surplus ← sub64 (acctBalance ch self) (totalAlgoStaked s);
  sub64 surplus (acctMinBalance ch self).

(** The saturation and commission step: the reward left for stakers, the
    commission, the excess and the payments made. *)
Record Cut : Type := mkCut {
  cut_algoRewardAvail : N;
  cut_validatorCommissionPaidOut : N;
  cut_excessToFeeSink : N;
  cut_payments : list InnerTxn
}.

Definition rewardCut (ch : Chain) (s : Pool) (algoRewardAvail : N) : option Cut :=
  let validatorConfig := getValidatorConfig (registryOf ch s) (validatorId s) in
  let validatorState := getValidatorState (registryOf ch s) (validatorId s) in
  algoSaturationAmt ← algoSaturationLevel;
  let isPoolSaturated :=
    algoSaturationAmt <? ValidatorState.totalAlgoStaked validatorState in
  if isPoolSaturated then
    diminishedReward ←
      wideRatio [algoRewardAvail; algoSaturationAmt]
                [ValidatorState.totalAlgoStaked validatorState];
    excessToFeeSink ← sub64 algoRewardAvail diminishedReward;
    Some (mkCut diminishedReward 0 excessToFeeSink
            [Payment getFeeSink excessToFeeSink
               "pool saturated, excess to fee sink"])
  else if negb (ValidatorConfig.percentToValidator validatorConfig =? 0) then
    validatorCommissionPaidOut ←
      wideRatio [algoRewardAvail; ValidatorConfig.percentToValidator validatorConfig]
                [1000000];
    algoRewardAvail' ← sub64 algoRewardAvail validatorCommissionPaidOut;
    payments ←
      (if 0 <? validatorCommissionPaidOut then
         let manager := ValidatorConfig.manager validatorConfig in
         let commissionAddress :=
           ValidatorConfig.validatorCommissionAddress validatorConfig in
         lowManager ←
           (if negb (manager =? commissionAddress)
            then spendable ← sub64 (acctBalance ch manager)
                               (acctMinBalance ch manager);
                 Some (spendable <? 1000000)
            else Some false);
         let managerTopOff :=
           if lowManager : bool
           then (if validatorCommissionPaidOut <? 1000000
                 then validatorCommissionPaidOut else 1000000)
           else 0 in
         rest ← sub64 validatorCommissionPaidOut managerTopOff;
         Some ((if lowManager
                then [Payment manager managerTopOff
                        "validator reward to manager for funding epoch updates"]
                else []) ++
               (if 0 <? rest
                then [Payment commissionAddress rest "validator reward"]
                else []))
       else Some []);
    Some (mkCut algoRewardAvail' validatorCommissionPaidOut 0 payments)
  else Some (mkCut algoRewardAvail 0 0 []).

(** The running totals of the distribution loops. *)
Record Payout : Type := mkPayout {
  tokenRewardAvail : N;
  algoRewardAvail : N;
  tokenRewardPaidOut : N;
  increasedStake : N;
  partialStakersTotalStake : N
}.

(** The token credit of a partial staker: the remaining token reward, the
    staker's token balance and the token paid out so far, updated. *)
Definition partialTokenCredit (total timePercentage : N) (cmpStaker : StakedInfo)
    (p : Payout) : option (N * N * N) :=
  if 0 <? tokenRewardAvail p then
    stakerTokenReward ←
      wideRatio [balance cmpStaker; tokenRewardAvail p; timePercentage]
                [total; 1000];
    avail ← sub64 (tokenRewardAvail p) stakerTokenReward;
    held ← add64 (rewardTokenBalance cmpStaker) stakerTokenReward;
    paid ← add64 (tokenRewardPaidOut p) stakerTokenReward;
    Some (avail, held, paid)
  else Some (tokenRewardAvail p, rewardTokenBalance cmpStaker, tokenRewardPaidOut p).

(** The algo credit of a partial staker: the remaining reward, the
    staker's balance and lifetime reward and the stake added so far,
    updated. *)
Definition partialAlgoCredit (total timePercentage : N) (cmpStaker : StakedInfo)
    (p : Payout) : option (N * N * N * N) :=
  if 0 <? algoRewardAvail p then
    stakerReward ←
      wideRatio [balance cmpStaker; algoRewardAvail p; timePercentage]
                [total; 1000];
    avail ← sub64 (algoRewardAvail p) stakerReward;
    newBalance ← add64 (balance cmpStaker) stakerReward;
    rewarded ← add64 (totalRewarded cmpStaker) stakerReward;
    increased ← add64 (increasedStake p) stakerReward;
    Some (avail, newBalance, rewarded, increased)
  else Some (algoRewardAvail p, balance cmpStaker, totalRewarded cmpStaker,
             increasedStake p).

(** The token credit of a full-epoch staker. *)
Definition fullTokenCredit (newPoolTotalStake : N) (cmpStaker : StakedInfo)
    (p : Payout) : option (N * N) :=
  if 0 <? tokenRewardAvail p then
    stakerTokenReward ←
      wideRatio [balance cmpStaker; tokenRewardAvail p] [newPoolTotalStake];
    held ← add64 (rewardTokenBalance cmpStaker) stakerTokenReward;
    paid ← add64 (tokenRewardPaidOut p) stakerTokenReward;
    Some (held, paid)
  else Some (rewardTokenBalance cmpStaker, tokenRewardPaidOut p).

(** The algo credit of a full-epoch staker; the remaining reward is not
    reduced in the second loop. *)
Definition fullAlgoCredit (newPoolTotalStake : N) (cmpStaker : StakedInfo)
    (p : Payout) : option (N * N * N) :=
  if 0 <? algoRewardAvail p then
    stakerReward ←
      wideRatio [balance cmpStaker; algoRewardAvail p] [newPoolTotalStake];
    newBalance ← add64 (balance cmpStaker) stakerReward;
    rewarded ← add64 (totalRewarded cmpStaker) stakerReward;
    increased ← add64 (increasedStake p) stakerReward;
    Some (newBalance, rewarded, increased)
  else Some (balance cmpStaker, totalRewarded cmpStaker, increasedStake p).

(** One iteration of the first loop. *)
Definition passA_slot (curTime epochInSecs total : N) (cmpStaker : StakedInfo)
    (p : Payout) : option (StakedInfo * Payout) :=
  if negb (account cmpStaker =? zeroAddress) then
    if curTime <? entryTime cmpStaker then
      partial ← add64 (partialStakersTotalStake p) (balance cmpStaker);
      Some (cmpStaker,
            mkPayout (tokenRewardAvail p) (algoRewardAvail p)
              (tokenRewardPaidOut p) (increasedStake p) partial)
    else
      timeInPool ← sub64 curTime (entryTime cmpStaker);
      if timeInPool <? epochInSecs then
        partial ← add64 (partialStakersTotalStake p) (balance cmpStaker);
        scaled ← mul64 timeInPool 1000;
        timePercentage ← div64 scaled epochInSecs;
        '(tokenAvail, tokenHeld, tokenPaid) ←
          partialTokenCredit total timePercentage cmpStaker p;
        '(algoAvail, newBalance, rewarded, increased) ←
          partialAlgoCredit total timePercentage cmpStaker p;
        Some (mkStakedInfo (account cmpStaker) newBalance rewarded tokenHeld
                (entryTime cmpStaker),
              mkPayout tokenAvail algoAvail tokenPaid increased partial)
      else Some (cmpStaker, p)
  else Some (cmpStaker, p).

(** The first loop, slot by slot in index order. *)
Fixpoint passA (curTime epochInSecs total : N) (l : list StakedInfo)
    (p : Payout) : option (list StakedInfo * Payout) :=
  match l with
  | [] => Some ([], p)
  | cmpStaker :: rest =>
      '(cmpStaker', p') ← passA_slot curTime epochInSecs total cmpStaker p;
      '(rest', p'') ← passA curTime epochInSecs total rest p';
      Some (cmpStaker' :: rest', p'')
  end.

(** One iteration of the second loop. *)
Definition passB_slot (curTime epochInSecs newPoolTotalStake : N)
    (cmpStaker : StakedInfo) (p : Payout) : option (StakedInfo * Payout) :=
  if negb (account cmpStaker =? zeroAddress) && (entryTime cmpStaker <? curTime)
  then
    timeInPool ← sub64 curTime (entryTime cmpStaker);
    if epochInSecs <=? timeInPool then
      '(tokenHeld, tokenPaid) ← fullTokenCredit newPoolTotalStake cmpStaker p;
      '(newBalance, rewarded, increased) ←
        fullAlgoCredit newPoolTotalStake cmpStaker p;
      Some (mkStakedInfo (account cmpStaker) newBalance rewarded tokenHeld
              (entryTime cmpStaker),
            mkPayout (tokenRewardAvail p) (algoRewardAvail p) tokenPaid
              increased (partialStakersTotalStake p))
    else Some (cmpStaker, p)
  else Some (cmpStaker, p).

(** The second loop. *)
Fixpoint passB (curTime epochInSecs newPoolTotalStake : N)
    (l : list StakedInfo) (p : Payout) : option (list StakedInfo * Payout) :=
  match l with
  | [] => Some ([], p)
  | cmpStaker :: rest =>
      '(cmpStaker', p') ←
        passB_slot curTime epochInSecs newPoolTotalStake cmpStaker p;
      '(rest', p'') ← passB curTime epochInSecs newPoolTotalStake rest p';
      Some (cmpStaker' :: rest', p'')
  end.

(** The slots the second loop pays. *)
Definition paidInFull (curTime epochInSecs : N) (x : StakedInfo) : bool :=
  negb (account x =? zeroAddress) && (entryTime x <? curTime)
  && (epochInSecs <=? curTime - entryTime x).

(** Both loops over a ledger whose tracked total is [total]. *)
Definition distribute (curTime epochInSecs total : N) (l : list StakedInfo)
    (tokenReward algoReward : N) : option (list StakedInfo * Payout) :=
  '(l1, p1) ← passA curTime epochInSecs total l
                (mkPayout tokenReward algoReward 0 0 0);
  newPoolTotalStake ← sub64 total (partialStakersTotalStake p1);
  if 0 <? newPoolTotalStake
  then passB curTime epochInSecs newPoolTotalStake l1 p1
  else Some (l1, p1).

(** The epoch update from the saturation and commission step on, once the
    surplus and the token reward are known. *)
Definition epochSettle (ch : Chain) (s1 : Pool) (epochInSecs surplus tokenReward : N)
    : option (Pool * Cut * Payout) :=
  let curTime := latestTimestamp ch in
  cut ← rewardCut ch s1 surplus;
  ledger ← stakers s1;
  '(ledger', p) ← distribute curTime epochInSecs (totalAlgoStaked s1) ledger
                    tokenReward (cut_algoRewardAvail cut);
  total ← add64 (totalAlgoStaked s1) (increasedStake p);
  Some (set_totalAlgoStaked total (set_stakers ledger' s1), cut, p).

(** The computation of an epoch update: the new state, the saturation and
    commission step and the totals of the distribution. *)
Definition epochPayout (ch : Chain) (tx : Txn) (s : Pool)
    : option (Pool * Cut * Payout) :=
  let validatorConfig := getValidatorConfig (registryOf ch s) (validatorId s) in
  epochInSecs ← epochInSecsOf validatorConfig;
  s1 ← epochGate ch s;
  surplus ← algoRewardAvailOf ch tx s1;
  tokenReward ← tokenRewardAvailOf ch tx s1;
  _ ← (if tokenReward =? 0 then assert (1000000 <? surplus) else Some tt);
  epochSettle ch s1 epochInSecs surplus tokenReward.

(** [epochBalanceUpdate]: the payments of the saturation and commission
    step, then the report to the registry. *)
Definition epochBalanceUpdate (ch : Chain) (tx : Txn) (s : Pool)
    : Outcome unit :=
  '(s', cut, p) ← epochPayout ch tx s;
  let txns :=
    cut_payments cut ++
    [StakeUpdatedViaRewards (poolKeyOf tx s') (increasedStake p)
       (tokenRewardPaidOut p) (cut_validatorCommissionPaidOut cut)
       (cut_excessToFeeSink cut)] in
  _ ← submit ch txns;
  Some (s', txns, tt).

(** *** The pool as a transition system *)

Inductive Call : Type :=
  | CallInitStorage (mbrPayment : PayTxn)
  | CallAddStake (stakedAmountPayment : PayTxn) (staker : Address)
  | CallRemoveStake (amountToUnstake : N)
  | CallClaimTokens
  | CallEpochBalanceUpdate
  | CallUpdateAlgodVer (algodVer : string)
  | CallGoOnline (votePK selectionPK stateProofPK : string)
      (voteFirst voteLast voteKeyDilution : N)
  | CallGoOffline
  | CallLinkToNFD (nfdAppId : N) (nfdName : string)
  | CallPayTokenReward (staker : Address) (rewardToken amountToSend : N)
  | CallProxiedSetTokenPayoutRatio (poolKey : ValidatorPoolKey.t)
  | CallGas.

Definition dropResult {R : Type} (o : Outcome R) : option (Pool * list InnerTxn) :=
  fst <$> o.

Definition exec (ch : Chain) (tx : Txn) (c : Call) (s : Pool)
    : option (Pool * list InnerTxn) :=
  match c with
  | CallInitStorage mbrPayment => dropResult (initStorage ch tx mbrPayment s)
  | CallAddStake payment staker => dropResult (addStake ch tx payment staker s)
  | CallRemoveStake amount => dropResult (removeStake ch tx amount s)
  | CallClaimTokens => dropResult (claimTokens ch tx s)
  | CallEpochBalanceUpdate => dropResult (epochBalanceUpdate ch tx s)
  | CallUpdateAlgodVer v => dropResult (updateAlgodVer ch tx v s)
  | CallGoOnline a b c d e f => dropResult (goOnline ch tx a b c d e f s)
  | CallGoOffline => dropResult (goOffline ch tx s)
  | CallLinkToNFD a n => dropResult (linkToNFD ch tx a n s)
  | CallPayTokenReward a t n => dropResult (payTokenReward ch tx a t n s)
  | CallProxiedSetTokenPayoutRatio k => dropResult (proxiedSetTokenPayoutRatio ch tx k s)
  | CallGas => dropResult (gas s)
  end.

(** A failed call is rolled back: the state stays as it was. *)
Definition next (ch : Chain) (tx : Txn) (c : Call) (s : Pool) : Pool :=
  match exec ch tx c s with
  | Some (s', _) => s'
  | None => s
  end.

(** The states a pool can be in: created by [createApplication], then any
    calls, each on its own view of the chain.  The ledger accepts no
    transaction whose sender is the zero address. *)
Inductive reachable : Pool -> Prop :=
  | reachable_created ch creatingContractId validatorId poolId minEntryStake s :
      createApplication ch creatingContractId validatorId poolId minEntryStake
        = Some s ->
      reachable s
  | reachable_call ch tx c s :
      reachable s ->
      sender tx <> zeroAddress ->
      reachable (next ch tx c s).

(** *** Ledger measures *)

Definition occupied (x : StakedInfo) : bool := negb (account x =? zeroAddress).

(** What a slot adds to the staked total and to the staker count. *)
Definition stake (x : StakedInfo) : N := if occupied x then balance x else 0.
Definition seat (x : StakedInfo) : N := if occupied x then 1 else 0.

(** Sum of the balances of the occupied slots. *)
Fixpoint stakedSum (l : list StakedInfo) : N :=
  match l with
  | [] => 0
  | x :: rest => stake x + stakedSum rest
  end.

(** Number of occupied slots. *)
Fixpoint occupiedCount (l : list StakedInfo) : N :=
  match l with
  | [] => 0
  | x :: rest => seat x + occupiedCount rest
  end.

Definition ledgerOf (s : Pool) : list StakedInfo := default [] (stakers s).

(** Ledger integrity: the two counters agree with the slots. *)
Definition ledger_ok (s : Pool) : Prop :=
  totalAlgoStaked s = stakedSum (ledgerOf s) /\
  numStakers s = occupiedCount (ledgerOf s).

(** No two occupied slots hold the same account. *)
Definition no_duplicates (l : list StakedInfo) : Prop :=
  forall i j x y,
    l !! i = Some x -> l !! j = Some y ->
    account x <> zeroAddress -> account x = account y -> i = j.

(** *** The distribution in the specification's words

    The vocabulary of the two-pass distribution as the specification
    describes it, for comparison with the loops above. *)

Definition timeInPoolOf (curTime : N) (x : StakedInfo) : N :=
  curTime - entryTime x.

(** An occupied slot whose entry time is still in the future. *)
Definition entersLater (curTime : N) (x : StakedInfo) : bool :=
  occupied x && (curTime <? entryTime x).

(** An occupied slot whose time in the pool is less than the epoch. *)
Definition partOfEpoch (curTime epochSeconds : N) (x : StakedInfo) : bool :=
  occupied x && (entryTime x <=? curTime)
  && (timeInPoolOf curTime x <? epochSeconds).

(** An occupied slot present for the whole epoch. *)
Definition wholeEpoch (curTime epochSeconds : N) (x : StakedInfo) : bool :=
  occupied x && (entryTime x <=? curTime)
  && (epochSeconds <=? timeInPoolOf curTime x).

Definition countedPartial (curTime epochSeconds : N) (x : StakedInfo) : bool :=
  entersLater curTime x || partOfEpoch curTime epochSeconds x.

Definition spec_timePercentage (timeInPool epochSeconds : N) : N :=
  timeInPool * 1000 / epochSeconds.

(** Pass A credit of one slot out of the reward still available. *)
Definition spec_partialCredit (curTime epochSeconds totalStaked availableReward : N)
    (x : StakedInfo) : N :=
  if partOfEpoch curTime epochSeconds x
  then balance x * availableReward
       * spec_timePercentage (timeInPoolOf curTime x) epochSeconds
       / (totalStaked * 1000)
  else 0.

(** Pass A: the credit of every slot, each subtracted from the reward before
    the next slot is looked at, and the reward remaining at the end. *)
Fixpoint spec_passA (curTime epochSeconds totalStaked : N) (l : list StakedInfo)
    (availableReward : N) : list N * N :=
  match l with
  | [] => ([], availableReward)
  | x :: rest =>
      let credit :=
        spec_partialCredit curTime epochSeconds totalStaked availableReward x in
      let '(credits, remaining) :=
        spec_passA curTime epochSeconds totalStaked rest (availableReward - credit) in
      (credit :: credits, remaining)
  end.

Fixpoint spec_partialStakersTotalStake (curTime epochSeconds : N)
    (l : list StakedInfo) : N :=
  match l with
  | [] => 0
  | x :: rest =>
      (if countedPartial curTime epochSeconds x then balance x else 0)
      + spec_partialStakersTotalStake curTime epochSeconds rest
  end.

(** Pass B credit of one slot; nothing when the reduced total is zero. *)
Definition spec_fullCredit (curTime epochSeconds reducedTotal remainingReward : N)
    (x : StakedInfo) : N :=
  if (reducedTotal =? 0) then 0
  else if wholeEpoch curTime epochSeconds x
       then balance x * remainingReward / reducedTotal
       else 0.

(** The credit of every slot over both passes. *)
Definition spec_credits (curTime epochSeconds totalStaked : N)
    (l : list StakedInfo) (reward : N) : list N :=
  let '(creditsA, remaining) :=
    spec_passA curTime epochSeconds totalStaked l reward in
  let reducedTotal :=
    totalStaked - spec_partialStakersTotalStake curTime epochSeconds l in
  zip_with N.add creditsA
    (spec_fullCredit curTime epochSeconds reducedTotal remaining <$> l).

(** A slot with [algo] and [token] added to its balances. *)
Definition creditSlot (x : StakedInfo) (algo token : N) : StakedInfo :=
  mkStakedInfo (account x) (balance x + algo) (totalRewarded x + algo)
    (rewardTokenBalance x + token) (entryTime x).

Fixpoint creditLedger (l : list StakedInfo) (algo token : list N)
    : list StakedInfo :=
  match l, algo, token with
  | x :: l, a :: algo, t :: token => creditSlot x a t :: creditLedger l algo token
  | _, _, _ => []
  end.

(** A slot credited [algo] and [token], and the totals advanced with it. *)
Definition credited (x x' : StakedInfo) (algo token : N) : Prop :=
  account x' = account x /\ entryTime x' = entryTime x /\
  balance x' = balance x + algo /\
  totalRewarded x' = totalRewarded x + algo /\
  rewardTokenBalance x' = rewardTokenBalance x + token.

Definition tallied (p p' : Payout) (algo token : N) : Prop :=
  increasedStake p' = increasedStake p + algo /\
  tokenRewardPaidOut p' = tokenRewardPaidOut p + token.

(** Full-epoch stake and head count, as the second loop selects them. *)
Fixpoint fullStake (curTime epochSeconds : N) (l : list StakedInfo) : N :=
  match l with
  | [] => 0
  | x :: rest =>
      (if wholeEpoch curTime epochSeconds x then balance x else 0)
      + fullStake curTime epochSeconds rest
  end.

Fixpoint fullCount (curTime epochSeconds : N) (l : list StakedInfo) : N :=
  match l with
  | [] => 0
  | x :: rest =>
      (if wholeEpoch curTime epochSeconds x then 1 else 0)
      + fullCount curTime epochSeconds rest
  end.

(** *** Further ledger vocabulary *)

(** Total amount of the payments among a call's inner transactions. *)
Fixpoint paymentsTotal (txns : list InnerTxn) : N :=
  match txns with
  | [] => 0
  | Payment _ amount _ :: rest => amount + paymentsTotal rest
  | _ :: rest => paymentsTotal rest
  end.

(** The payments and the asset transfers among a call's inner
    transactions. *)
Definition isPayment (t : InnerTxn) : bool :=
  match t with
  | Payment _ _ _ => true
  | _ => false
  end.

Definition isAssetTransfer (t : InnerTxn) : bool :=
  match t with
  | AssetTransfer _ _ _ => true
  | _ => false
  end.

(** Sum of the reward-token balances the ledger tracks. *)
Fixpoint tokenSum (l : list StakedInfo) : N :=
  match l with
  | [] => 0
  | x :: rest => rewardTokenBalance x + tokenSum rest
  end.

(** No occupied slot lies behind an empty one. *)
Definition gapFree (l : list StakedInfo) : Prop :=
  forall i j x y,
    l !! i = Some x -> l !! j = Some y -> (i < j)%nat ->
    account x = zeroAddress -> account y = zeroAddress.

(** A slot as the contract keeps it: an empty slot carries no balances, an
    occupied one at least the pool's minimum entry stake. *)
Definition slot_ok (minimum : N) (x : StakedInfo) : Prop :=
  if account x =? zeroAddress
  then balance x = 0 /\ totalRewarded x = 0 /\ rewardTokenBalance x = 0
  else minimum <= balance x.

(** What an epoch update may do to a slot: credit it, never more. *)
Definition grown (x x' : StakedInfo) : Prop :=
  account x' = account x /\ entryTime x' = entryTime x /\
  balance x <= balance x' /\
  totalRewarded x' + balance x = totalRewarded x + balance x' /\
  rewardTokenBalance x <= rewardTokenBalance x' /\
  (account x = zeroAddress -> x' = x).

(** The shape the ledger box keeps: its fixed number of slots, each as
    [slot_ok] has it. *)
Definition ledger_shaped (s : Pool) : Prop :=
  forall l, stakers s = Some l ->
    length l = N.to_nat MAX_STAKERS_PER_POOL /\
    Forall (slot_ok (minEntryStake s)) l.

End StakingPool.

(** ** A sample deployment

    One registry (application 1000), one validator with pool 1 (application
    1001), and stakers 11 and 12.  The constants are sample values; the
    ledger has 80 slots, as in the first version of the contract. *)

Module Sample.

Definition constants : Constants := {|
  MAX_STAKERS_PER_POOL := 80;
  MIN_ALGO_STAKE_PER_POOL := 1000000;
  MAX_VALIDATOR_SOFT_PCT_OF_ONLINE_1DECIMAL := 100;
  ALGORAND_ACCOUNT_MIN_BALANCE := 100000;
  ASSET_HOLDING_FEE := 100000;
  nfdRegistryAppId := 7;
  feeSinkAddr := 99
|}.

#[local] Existing Instance constants.

Definition registryId : N := 1000.
Definition poolAppId : N := 1001.
Definition addressOf (app : N) : Address := app + 8000.
Definition owner : Address := 21.
Definition manager : Address := 22.
Definition commissionAddress : Address := 23.
Definition alice : Address := 11.
Definition bob : Address := 12.
Definition stranger : Address := 50.

(** Payout every minute, 5% commission, no reward token. *)
Definition plainConfig : ValidatorConfig.t :=
  ValidatorConfig.mk owner manager 0 0 1 50000 commissionAddress.

(** No commission at all. *)
Definition freeConfig : ValidatorConfig.t :=
  ValidatorConfig.mk owner manager 0 0 1 0 commissionAddress.

(** Reward token 77, 1000 units per payout. *)
Definition tokenConfig : ValidatorConfig.t :=
  ValidatorConfig.mk owner manager 77 1000 1 50000 commissionAddress.

Definition quietState : ValidatorState.t := ValidatorState.mk 1 2 5000000 0.

(** Twice the saturation level of 200,000,000,000,000. *)
Definition saturatedState : ValidatorState.t :=
  ValidatorState.mk 1 2 400000000000000 0.

Definition registry (config : ValidatorConfig.t) (state : ValidatorState.t)
    : Registry :=
  mkRegistry (fun _ => config) (fun _ => state) (fun _ => (owner, manager))
    (fun _ _ => poolAppId) (fun _ => PoolTokenPayoutRatio.mk [1000000] 0).

(** The chain at time [now], the pool account holding [funds] and
    [tokens] of the reward token.  This ledger refuses no inner
    transaction. *)
Definition chainAt (config : ValidatorConfig.t) (state : ValidatorState.t)
    (now funds tokens : N) : Chain :=
  mkChain now addressOf
    (fun a => if a =? addressOf poolAppId then funds else 5000000)
    (fun _ => 100000)
    (fun a _ => if a =? addressOf poolAppId then tokens else 0)
    (fun _ => registry config state)
    (fun _ _ => PoolTokenPayoutRatio.mk [1000000] 0)
    (fun _ => true).

Definition chain (now funds : N) : Chain :=
  chainAt plainConfig quietState now funds 0.

Definition fromRegistry : Txn := mkTxn (addressOf registryId) poolAppId.
Definition from (a : Address) : Txn := mkTxn a poolAppId.
Definition pay (n : N) : PayTxn :=
  mkPayTxn (addressOf registryId) (addressOf poolAppId) n.

Definition initMbr : N := 2153300.

(** The pool as created at time 100. *)
Definition created : Pool :=
  mkPool registryId 1 1 0 0 1000000 (Some 100) 0 "" None.

Definition initialised : Pool :=
  next (chain 100 0) fromRegistry (CallInitStorage (pay initMbr)) created.

(** Alice stakes 2 ALGO, then Bob 3 ALGO. *)
Definition aliceIn : Pool :=
  next (chain 110 0) fromRegistry (CallAddStake (pay 2000000) alice) initialised.

Definition staked : Pool :=
  next (chain 120 0) fromRegistry (CallAddStake (pay 3000000) bob) aliceIn.

(** Alice withdraws everything, freeing slot 0 in front of Bob's slot 1. *)
Definition aliceOut : Pool :=
  next (chain 130 0) (from alice) (CallRemoveStake 0) staked.

(** Bob adds 1 ALGO to his stake. *)
Definition bobAgain : Pool :=
  next (chain 140 0) fromRegistry (CallAddStake (pay 1000000) bob) aliceOut.

(** A ledger with Alice a full-epoch staker and Bob a partial one. *)
Definition seasoned : Pool :=
  mkPool registryId 1 1 2 5000000 1000000 (Some 1000) 3 ""
    (Some (mkStakedInfo alice 2000000 0 0 900
           :: mkStakedInfo bob 3000000 0 0 1040
           :: replicate 78 emptySlot)).

End Sample.

(** ** The first version of the contract

    The same source file opens with an earlier [StakingPool] class: a ledger
    of 80 records of account, balance and entry time, owner and manager kept
    in global state, and rewards paid out directly by [payStakers]. *)

Module Legacy.

Definition MAX_STAKERS_PER_POOL : N := 80.

Record StakedInfo : Type := mkStakedInfo {
  Account : Address;
  Balance : N;
  EntryTime : N
}.

(** A slot of a freshly created box: all bytes zero. *)
Definition emptySlot : StakedInfo := mkStakedInfo zeroAddress 0 0.

Record Pool : Type := mkPool {
  ValidatorID : N;
  PoolID : N;
  Owner : Address;
  Manager : Address;
  NumStakers : N;
  TotalAlgoStaked : N;
  MaxAlgo : N;
  Stakers : list StakedInfo
}.

Definition set_Stakers (l : list StakedInfo) (s : Pool) : Pool :=
  mkPool (ValidatorID s) (PoolID s) (Owner s) (Manager s) (NumStakers s)
    (TotalAlgoStaked s) (MaxAlgo s) l.

Definition set_NumStakers (n : N) (s : Pool) : Pool :=
  mkPool (ValidatorID s) (PoolID s) (Owner s) (Manager s) n
    (TotalAlgoStaked s) (MaxAlgo s) (Stakers s).

Definition set_TotalAlgoStaked (n : N) (s : Pool) : Pool :=
  mkPool (ValidatorID s) (PoolID s) (Owner s) (Manager s) (NumStakers s)
    n (MaxAlgo s) (Stakers s).

(** Inner transactions of the first version, in order. *)
Inductive InnerTxn : Type :=
  | Payment (receiver : Address) (amount : N) (note : string)
  | StakeRemoved (validatorID poolID : N) (account : Address)
      (amountToUnstake : N) (stakerRemoved : bool)
  | GetValidatorConfig (validatorID : N)
  | OnlineKeyRegistration (votePK selectionPK stateProofPK : string)
      (voteFirst voteLast voteKeyDilution : N)
  | OfflineKeyRegistration.

Section Contract.

(** The template variable and the imported constant. *)
Variable VALIDATOR_REGISTRY_APP_ID : N.
Variable MAX_ALGO_PER_POOL : N.

Definition createApplication (ch : Chain) (tx : Txn)
    (validatorID poolID : N) (owner manager : Address) : option Pool :=
  _ ← assert (sender tx =? appAddress ch VALIDATOR_REGISTRY_APP_ID);
  Some (mkPool validatorID poolID owner manager 0 0 MAX_ALGO_PER_POOL
          (replicate (N.to_nat MAX_STAKERS_PER_POOL) emptySlot)).

(** The loop of [addStake]: [inl (i, slot)] when slot [i] holds the account
    (the early return), otherwise [inr firstEmpty] with [firstEmpty] as the
    loop leaves it. *)
Fixpoint addStake_scan (account : Address) (l : list StakedInfo)
    (i firstEmpty : nat) : (nat * StakedInfo) + nat :=
  match l with
  | [] => inr firstEmpty
  | slot :: rest =>
      if Account slot =? account then inl (i, slot)
      else
        addStake_scan account rest (S i)
          (if negb (firstEmpty =? 0)%nat && (Account slot =? zeroAddress)
           then S i else firstEmpty)
  end.

Definition addStake (ch : Chain) (tx : Txn) (payment : PayTxn)
    (account : Address) (amountToStake : N) (s : Pool)
    : option (Pool * list InnerTxn * N) :=
  _ ← assert (negb (account =? zeroAddress));
  _ ← assert (sender tx =? account);
  _ ← assert (pay_sender payment =? appAddress ch VALIDATOR_REGISTRY_APP_ID);
  _ ← assert (pay_receiver payment =? appAddress ch (appId tx));
  _ ← assert (pay_amount payment =? amountToStake);
  let entryTime := latestTimestamp ch in
  match addStake_scan account (Stakers s) 0 0 with
  | inl (i, slot) =>
      newBalance ← add64 (Balance slot) amountToStake;
      total ← add64 (TotalAlgoStaked s) amountToStake;
      Some (set_TotalAlgoStaked total
              (set_Stakers
                 (<[i := mkStakedInfo (Account slot) newBalance entryTime]>
                    (Stakers s)) s),
            [], entryTime)
  | inr firstEmpty =>
      _ ← assert (negb (firstEmpty =? 0)%nat);
      slot ← Stakers s !! (firstEmpty - 1)%nat;
      _ ← assert (Account slot =? zeroAddress);
      n ← add64 (NumStakers s) 1;
      total ← add64 (TotalAlgoStaked s) amountToStake;
      Some (set_TotalAlgoStaked total
              (set_NumStakers n
                 (set_Stakers
                    (<[(firstEmpty - 1)%nat :=
                         mkStakedInfo account amountToStake entryTime]>
                       (Stakers s)) s)),
            [], entryTime)
  end.

(** The loop of [removeStake] and its early return. *)
Fixpoint findStaker (account : Address) (l : list StakedInfo) (i : nat)
    : option (nat * StakedInfo) :=
  match l with
  | [] => None
  | slot :: rest =>
      if Account slot =? account then Some (i, slot)
      else findStaker account rest (S i)
  end.

Definition removeStake (ch : Chain) (tx : Txn) (account : Address)
    (amountToUnstake : N) (s : Pool) : option (Pool * list InnerTxn * unit) :=
  _ ← assert (negb (account =? zeroAddress));
  _ ← assert (sender tx =? account);
  '(i, slot) ← findStaker account (Stakers s) 0;
  _ ← assert (negb (Balance slot <? amountToUnstake));
  newBalance ← sub64 (Balance slot) amountToUnstake;
  total ← sub64 (TotalAlgoStaked s) amountToUnstake;
  let stakerRemoved := newBalance =? 0 in
  n ← (if stakerRemoved then sub64 (NumStakers s) 1 else Some (NumStakers s));
  let slot' :=
    mkStakedInfo (if stakerRemoved then zeroAddress else Account slot)
      newBalance (EntryTime slot) in
  Some (set_NumStakers n
          (set_TotalAlgoStaked total
             (set_Stakers (<[i := slot']> (Stakers s)) s)),
        [Payment account amountToUnstake "unstaked";
         StakeRemoved (ValidatorID s) (PoolID s) account amountToUnstake
           stakerRemoved],
        tt).

(** One round of the loop of [payStakers]: the payment to an occupied
    slot, nothing for an empty one. *)
Definition payStaker (curTime payoutDaysInSecs rewardAvailable total : N)
    (slot : StakedInfo) : option (list InnerTxn) :=
  if negb (Account slot =? zeroAddress) then
    timeInPool ← sub64 curTime (EntryTime slot);
    timePercentage ←
      (if payoutDaysInSecs <=? timeInPool then Some 1000
       else a ← mul64 timeInPool 1000; div64 a payoutDaysInSecs);
    a ← mul64 (Balance slot) rewardAvailable;
    b ← div64 a total;
    c ← mul64 b timePercentage;
    stakerReward ← div64 c 1000;
    Some [Payment (Account slot) stakerReward "staker reward"]
  else Some [].

Fixpoint payEach (curTime payoutDaysInSecs rewardAvailable total : N)
    (l : list StakedInfo) : option (list InnerTxn) :=
  match l with
  | [] => Some []
  | slot :: rest =>
      txns ← payStaker curTime payoutDaysInSecs rewardAvailable total slot;
      more ← payEach curTime payoutDaysInSecs rewardAvailable total rest;
      Some (txns ++ more)
  end.

(** [payoutConfig] is what the registry answers to [getValidatorConfig]. *)
Definition payStakers (ch : Chain) (tx : Txn) (payoutConfig : N * N * N * N)
    (s : Pool) : option (Pool * list InnerTxn * unit) :=
  _ ← assert ((sender tx =? Owner s) || (sender tx =? Manager s));
  let self := appAddress ch (appId tx) in
  a ← sub64 (acctBalance ch self) (TotalAlgoStaked s);
  rewardAvailable ← sub64 a (acctMinBalance ch self);
  let payoutDays := payoutConfig.1.1.1 in
  let curTime := latestTimestamp ch in
  d ← mul64 payoutDays 24;
  h ← mul64 d 60;
  payoutDaysInSecs ← mul64 h 60;
  txns ← payEach curTime payoutDaysInSecs rewardAvailable (TotalAlgoStaked s)
           (Stakers s);
  Some (s, GetValidatorConfig (ValidatorID s) :: txns, tt).

Definition GoOnline (tx : Txn) (votePK selectionPK stateProofPK : string)
    (voteFirst voteLast voteKeyDilution : N) (s : Pool)
    : option (Pool * list InnerTxn * unit) :=
  _ ← assert ((sender tx =? Owner s) || (sender tx =? Manager s));
  Some (s,
        [OnlineKeyRegistration votePK selectionPK stateProofPK voteFirst
           voteLast voteKeyDilution],
        tt).

Definition GoOffline (tx : Txn) (s : Pool)
    : option (Pool * list InnerTxn * unit) :=
  _ ← assert ((sender tx =? Owner s) || (sender tx =? Manager s));
  Some (s, [OfflineKeyRegistration], tt).

(** The first version as a transition system. *)
Inductive Call : Type :=
  | CallAddStake (payment : PayTxn) (account : Address) (amountToStake : N)
  | CallRemoveStake (account : Address) (amountToUnstake : N)
  | CallPayStakers (payoutConfig : N * N * N * N)
  | CallGoOnline (votePK selectionPK stateProofPK : string)
      (voteFirst voteLast voteKeyDilution : N)
  | CallGoOffline.

Definition exec (ch : Chain) (tx : Txn) (c : Call) (s : Pool)
    : option (Pool * list InnerTxn) :=
  match c with
  | CallAddStake payment account amount =>
      fst <$> addStake ch tx payment account amount s
  | CallRemoveStake account amount => fst <$> removeStake ch tx account amount s
  | CallPayStakers payoutConfig => fst <$> payStakers ch tx payoutConfig s
  | CallGoOnline a b c d e f => fst <$> GoOnline tx a b c d e f s
  | CallGoOffline => fst <$> GoOffline tx s
  end.

(** A failed call is rolled back. *)
Definition next (ch : Chain) (tx : Txn) (c : Call) (s : Pool) : Pool :=
  match exec ch tx c s with
  | Some (s', _) => s'
  | None => s
  end.

Inductive reachable : Pool -> Prop :=
  | reachable_created ch tx validatorID poolID owner manager s :
      createApplication ch tx validatorID poolID owner manager = Some s ->
      reachable s
  | reachable_call ch tx c s :
      reachable s ->
      reachable (next ch tx c s).

End Contract.

End Legacy.

(** ** More sample states *)

Module Scenario.

(** Every slot taken, none of them by Alice. *)
Definition fullHouse : Pool :=
  mkPool Sample.registryId 1 1 80 80000000 1000000 (Some 1000) 3 ""
    (Some (replicate 80 (mkStakedInfo Sample.bob 1000000 0 0 900))).

(** The seasoned ledger with 40 reward tokens waiting for Alice. *)
Definition tokenHolder : Pool :=
  mkPool Sample.registryId 1 1 2 5000000 1000000 (Some 1000) 3 ""
    (Some (mkStakedInfo Sample.alice 2000000 0 40 900
           :: mkStakedInfo Sample.bob 3000000 0 0 1040
           :: replicate 78 emptySlot)).

(** The validator pays out reward token 77; the pool holds 5000 of it. *)
Definition tokenChain : Chain :=
  Sample.chainAt Sample.tokenConfig Sample.quietState 1070 5100000 5000.

(** A ledger that checks what the pool sends: a payment must leave the pool
    account, which holds [funds], its minimum balance of 100,000, and an
    asset transfer needs a receiver that has opted in and [tokens] to cover
    it. *)
Definition checkedChain (config : ValidatorConfig.t) (state : ValidatorState.t)
    (now funds tokens : N) (optedIn : Address -> bool) : Chain :=
  let ch := Sample.chainAt config state now funds tokens in
  mkChain (latestTimestamp ch) (appAddress ch) (acctBalance ch)
    (acctMinBalance ch) (assetBalance ch) (registryApp ch)
    (proxiedSetTokenPayoutRatioApp ch)
    (fun t =>
       match t with
       | Payment _ amount _ => amount + 100000 <=? funds
       | AssetTransfer _ receiver amount =>
           optedIn receiver && (amount <=? tokens)
       | _ => true
       end).

(** The pool account holds the stake of 5,000,000 and its minimum balance,
    and 5000 reward tokens; Alice has opted in to the token. *)
Definition aliceOptedIn : Chain :=
  checkedChain Sample.tokenConfig Sample.quietState 1070 5100000 5000
    (fun a => a =? Sample.alice).

(** The same ledger, but nobody has opted in to the token. *)
Definition nobodyOptedIn : Chain :=
  checkedChain Sample.tokenConfig Sample.quietState 1070 5100000 5000
    (fun _ => false).

(** The same ledger, but the pool account holds only 1,500,000. *)
Definition shortOfFunds : Chain :=
  checkedChain Sample.tokenConfig Sample.quietState 1070 1500000 5000
    (fun a => a =? Sample.alice).

(** The registry holds back 6000 reward tokens, pool 1 holds 5000. *)
Definition overdrawn : Chain :=
  Sample.chainAt Sample.tokenConfig (ValidatorState.mk 1 2 5000000 6000)
    1070 20000000 5000.

(** The registry holds back all 5000 tokens of pool 1. *)
Definition allHeldBack : Chain :=
  Sample.chainAt Sample.tokenConfig (ValidatorState.mk 1 2 5000000 5000)
    1070 20000000 5000.

(** A pool of the first version, as created by registry 1000. *)
Definition legacyPool : Legacy.Pool :=
  Legacy.mkPool 1 1 Sample.owner Sample.manager 0 0 50000000000000
    (replicate 80 Legacy.emptySlot).

(** Alice tries to stake 2,000,000 in it. *)
Definition legacyTried : Legacy.Pool :=
  Legacy.next Sample.registryId (Sample.chain 110 0) (Sample.from Sample.alice)
    (Legacy.CallAddStake (Sample.pay 2000000) Sample.alice 2000000) legacyPool.

End Scenario.

(** * Properties *)

Section Properties.

Context `{Constants}.

(** ** Checked arithmetic *)

Lemma assert_Some (c : bool) (u : unit) : assert c = Some u -> c = true.
Proof. by destruct c. Qed.

Lemma add64_Some (a b c : N) : add64 a b = Some c -> c = a + b.
Proof. unfold add64. case_match; congruence. Qed.

Lemma sub64_Some (a b c : N) : sub64 a b = Some c -> b <= a /\ c = a - b.
Proof.
  unfold sub64. destruct (N.leb_spec b a); [|done].
  intros [= <-]. done.
Qed.

Lemma mul64_Some (a b c : N) : mul64 a b = Some c -> c = a * b.
Proof. unfold mul64. case_match; congruence. Qed.

Lemma div64_Some (a b c : N) : div64 a b = Some c -> b <> 0 /\ c = a / b.
Proof.
  unfold div64. destruct (N.eqb_spec b 0); [done|].
  intros [= <-]. done.
Qed.

Lemma wideRatio_Some (ns ds : list N) (q : N) :
  wideRatio ns ds = Some q -> product ds <> 0 /\ q = product ns / product ds.
Proof.
  unfold wideRatio. destruct (N.eqb_spec (product ds) 0); [done|].
  repeat case_match; try done. intros [= <-]. done.
Qed.

Lemma sub64_le (a b : N) : b <= a -> sub64 a b = Some (a - b).
Proof. intros Hle. unfold sub64. by destruct (N.leb_spec b a); [|lia]. Qed.

(** [step H as x Hx] splits a successful call body [H : (m ≫= k) = Some r]
    into its first step [Hx : m = Some x] and the rest. *)
Tactic Notation "step" hyp(H) "as" ident(x) ident(Hx) :=
  apply bind_Some in H; destruct H as (x & Hx & H).

(** [steps H] runs a successful call body to its end. *)
Ltac steps H := repeat (apply bind_Some in H; destruct H as (? & ? & H)).

(** ** The ledger measures under a slot update *)

Lemma stakedSum_insert (l : list StakedInfo) (i : nat) (x y : StakedInfo) :
  l !! i = Some y ->
  stakedSum (<[i := x]> l) + stake y = stakedSum l + stake x.
Proof.
  revert i. induction l as [|z l IH]; intros [|i] Hy; simplify_eq/=.
  - lia.
  - specialize (IH _ Hy). lia.
Qed.

Lemma occupiedCount_insert (l : list StakedInfo) (i : nat) (x y : StakedInfo) :
  l !! i = Some y ->
  occupiedCount (<[i := x]> l) + seat y = occupiedCount l + seat x.
Proof.
  revert i. induction l as [|z l IH]; intros [|i] Hy; simplify_eq/=.
  - lia.
  - specialize (IH _ Hy). lia.
Qed.

Lemma stakedSum_lookup (l : list StakedInfo) (i : nat) (x : StakedInfo) :
  l !! i = Some x -> stake x <= stakedSum l.
Proof.
  revert i. induction l as [|z l IH]; intros [|i] Hx; simplify_eq/=.
  - lia.
  - specialize (IH _ Hx). lia.
Qed.

Lemma occupiedCount_lookup (l : list StakedInfo) (i : nat) (x : StakedInfo) :
  l !! i = Some x -> seat x <= occupiedCount l.
Proof.
  revert i. induction l as [|z l IH]; intros [|i] Hx; simplify_eq/=.
  - lia.
  - specialize (IH _ Hx). lia.
Qed.

Lemma stakedSum_replicate_empty (n : nat) : stakedSum (replicate n emptySlot) = 0.
Proof. induction n as [|n IH]; [done|]. simpl. by rewrite IH. Qed.

Lemma occupiedCount_replicate_empty (n : nat) :
  occupiedCount (replicate n emptySlot) = 0.
Proof. induction n as [|n IH]; [done|]. simpl. by rewrite IH. Qed.

(** ** The scans *)

Lemma addStake_scan_found (staker : Address) (l : list StakedInfo) (k i : nat)
    (cmp : StakedInfo) :
  addStake_scan staker l k = inl (i, cmp) ->
  (k <= i)%nat /\ l !! (i - k)%nat = Some cmp /\ account cmp = staker.
Proof.
  revert k. induction l as [|x l IH]; intros k Hscan; simpl in Hscan; [done|].
  destruct (N.eqb_spec (account x) staker) as [Heq|Hne].
  - injection Hscan as <- <-. rewrite Nat.sub_diag. done.
  - destruct (account x =? zeroAddress); [done|].
    apply IH in Hscan as (Hle & Hlook & Hacc).
    split; [lia|]. split; [|done].
    replace (i - k)%nat with (S (i - S k)) by lia. done.
Qed.

Lemma addStake_scan_empty (staker : Address) (l : list StakedInfo) (k firstEmpty : nat) :
  addStake_scan staker l k = inr firstEmpty ->
  firstEmpty <> 0%nat ->
  (k < firstEmpty)%nat /\
  exists slot, l !! (firstEmpty - 1 - k)%nat = Some slot /\
               account slot = zeroAddress.
Proof.
  revert k. induction l as [|x l IH]; intros k Hscan Hnz; simpl in Hscan.
  - by injection Hscan as <-.
  - destruct (account x =? staker); [done|].
    destruct (N.eqb_spec (account x) zeroAddress) as [Hz|Hnzero].
    + injection Hscan as <-. split; [lia|].
      exists x. replace (k + 1 - 1 - k)%nat with 0%nat by lia. done.
    + apply IH in Hscan as (Hlt & slot & Hlook & Hacc); [|done].
      split; [lia|]. exists slot. split; [|done].
      replace (firstEmpty - 1 - k)%nat with (S (firstEmpty - 1 - S k)) by lia.
      done.
Qed.

(** The scan of [addStake] never looks behind the first empty slot: whatever
    follows it, the staker's own slot included, plays no part. *)
Lemma addStake_scan_stops_at_gap (staker : Address)
    (front behind : list StakedInfo) (gap : StakedInfo) (k : nat) :
  Forall (fun x => account x <> staker /\ account x <> zeroAddress) front ->
  account gap = zeroAddress ->
  staker <> zeroAddress ->
  addStake_scan staker (front ++ gap :: behind) k
  = inr (k + length front + 1)%nat.
Proof.
  intros Hfront Hgap Hstaker. revert k.
  induction Hfront as [|x front [Hx Hx'] _ IH]; intros k; simpl.
  - rewrite Hgap.
    destruct (N.eqb_spec zeroAddress staker); [congruence|].
    simpl. f_equal. lia.
  - destruct (N.eqb_spec (account x) staker); [done|].
    destruct (N.eqb_spec (account x) zeroAddress); [done|].
    rewrite IH. f_equal. lia.
Qed.

Lemma findStaker_found (staker : Address) (l : list StakedInfo) (k i : nat)
    (cmp : StakedInfo) :
  findStaker staker l k = Some (i, cmp) ->
  (k <= i)%nat /\ l !! (i - k)%nat = Some cmp /\ account cmp = staker.
Proof.
  revert k. induction l as [|x l IH]; intros k Hscan; simpl in Hscan; [done|].
  destruct (N.eqb_spec (account x) staker) as [Heq|Hne].
  - injection Hscan as <- <-. rewrite Nat.sub_diag. done.
  - apply IH in Hscan as (Hle & Hlook & Hacc).
    split; [lia|]. split; [|done].
    replace (i - k)%nat with (S (i - S k)) by lia. done.
Qed.

(** ** Ledger integrity, call by call *)

Lemma createApplication_ledger_ok ch a b c d s :
  createApplication ch a b c d = Some s -> ledger_ok s.
Proof.
  unfold createApplication. intros Hrun.
  step Hrun as u1 H1. step Hrun as u2 H2. injection Hrun as <-. done.
Qed.

Lemma initStorage_ledger_ok ch tx mbrPayment s s' txns r :
  ledger_ok s ->
  initStorage ch tx mbrPayment s = Some (s', txns, r) -> ledger_ok s'.
Proof.
  intros [Htot Hnum]. unfold initStorage. intros Hrun.
  step Hrun as u1 Hnone. apply assert_Some, bool_decide_eq_true in Hnone.
  step Hrun as a1 H1. step Hrun as a2 H2. step Hrun as a3 H3.
  step Hrun as a4 H4. step Hrun as a5 H5. step Hrun as u2 H6.
  step Hrun as u3 Hsub. injection Hrun as <- _ _.
  unfold ledger_ok, ledgerOf in *. rewrite Hnone in Htot, Hnum. simpl in *.
  by rewrite stakedSum_replicate_empty, occupiedCount_replicate_empty.
Qed.

Lemma addStake_ledger_ok ch tx payment staker s s' txns r :
  ledger_ok s ->
  addStake ch tx payment staker s = Some (s', txns, r) -> ledger_ok s'.
Proof.
  intros [Htot Hnum]. unfold addStake. intros Hrun.
  step Hrun as ledger Hledger.
  step Hrun as u1 H1. step Hrun as u2 Hstaker.
  apply assert_Some, negb_true_iff, N.eqb_neq in Hstaker.
  step Hrun as u3 H3. step Hrun as u4 H4. step Hrun as entry Hentry.
  unfold ledger_ok, ledgerOf in *. rewrite Hledger in Htot, Hnum. simpl in *.
  destruct (addStake_scan staker ledger 0) as [[i cmp]|firstEmpty] eqn:Hscan.
  - apply addStake_scan_found in Hscan as (_ & Hlook & Hacc).
    rewrite Nat.sub_0_r in Hlook.
    step Hrun as newBalance Hbal. step Hrun as total Htotal.
    injection Hrun as <- _ _. simpl.
    apply add64_Some in Hbal, Htotal. subst newBalance total.
    match goal with |- context [<[i := ?e]> ledger] =>
      pose proof (stakedSum_insert ledger i e cmp Hlook) as Hsum;
      pose proof (occupiedCount_insert ledger i e cmp Hlook) as Hcnt
    end.
    unfold stake, seat, occupied in *. simpl in *.
    destruct (N.eqb_spec (account cmp) zeroAddress); [congruence|].
    simpl in *. split; lia.
  - step Hrun as u5 Hfound.
    apply assert_Some, negb_true_iff, Nat.eqb_neq in Hfound.
    apply addStake_scan_empty in Hscan as (_ & slot & Hlook & Hacc); [|done].
    rewrite Nat.sub_0_r in Hlook.
    step Hrun as u6 Hmin. step Hrun as slot' Hslot. step Hrun as u7 Hzero.
    step Hrun as n Hn. step Hrun as total Htotal.
    injection Hrun as <- _ _. simpl.
    apply add64_Some in Hn, Htotal. subst n total.
    match goal with |- context [<[(firstEmpty - 1)%nat := ?e]> ledger] =>
      pose proof (stakedSum_insert ledger (firstEmpty - 1) e slot Hlook) as Hsum;
      pose proof (occupiedCount_insert ledger (firstEmpty - 1) e slot Hlook) as Hcnt
    end.
    unfold stake, seat, occupied in *. simpl in *.
    rewrite Hacc in *.
    destruct (N.eqb_spec staker zeroAddress); [congruence|].
    simpl in *. split; lia.
Qed.

Lemma removeStake_ledger_ok ch tx amountToUnstake s s' txns r :
  ledger_ok s ->
  sender tx <> zeroAddress ->
  removeStake ch tx amountToUnstake s = Some (s', txns, r) -> ledger_ok s'.
Proof.
  intros [Htot Hnum] Hsender. unfold removeStake. intros Hrun.
  step Hrun as ledger Hledger.
  step Hrun as found Hfind. destruct found as [i cmp].
  apply findStaker_found in Hfind as (_ & Hlook & Hacc).
  rewrite Nat.sub_0_r in Hlook.
  unfold ledger_ok, ledgerOf in *. rewrite Hledger in Htot, Hnum. simpl in *.
  set (amount := if amountToUnstake =? 0 then balance cmp else amountToUnstake) in *.
  step Hrun as u1 H1. step Hrun as newBalance Hbal. step Hrun as total Htotal.
  step Hrun as u2 H2. step Hrun as n Hn. step Hrun as u3 Hsub.
  injection Hrun as <- _ _. simpl.
  apply sub64_Some in Hbal as [Hle ->], Htotal as [Hle' ->].
  pose proof (stakedSum_lookup ledger i cmp Hlook) as Hbound.
  pose proof (occupiedCount_lookup ledger i cmp Hlook) as Hbound'.
  match goal with |- context [<[i := ?e]> ledger] =>
    pose proof (stakedSum_insert ledger i e cmp Hlook) as Hsum;
    pose proof (occupiedCount_insert ledger i e cmp Hlook) as Hcnt
  end.
  destruct (N.eqb_spec (balance cmp - amount) 0) as [Hzero|Hleft].
  - apply sub64_Some in Hn as [Hone ->].
    unfold stake, seat, occupied in *. simpl in *.
    destruct (N.eqb_spec (account cmp) zeroAddress); [congruence|].
    simpl in *. split; lia.
  - injection Hn as <-.
    unfold stake, seat, occupied in *. simpl in *.
    destruct (N.eqb_spec (account cmp) zeroAddress); [congruence|].
    simpl in *. split; lia.
Qed.

Lemma claimTokens_ledger_ok ch tx s s' txns r :
  ledger_ok s ->
  claimTokens ch tx s = Some (s', txns, r) -> ledger_ok s'.
Proof.
  intros [Htot Hnum]. unfold claimTokens. intros Hrun.
  step Hrun as ledger Hledger.
  step Hrun as found Hfind. destruct found as [i cmp].
  apply findStaker_found in Hfind as (_ & Hlook & Hacc).
  rewrite Nat.sub_0_r in Hlook.
  unfold ledger_ok, ledgerOf in *. rewrite Hledger in Htot, Hnum. simpl in *.
  destruct (rewardTokenBalance cmp =? 0).
  - injection Hrun as <- _ _. rewrite Hledger. done.
  - step Hrun as u1 Hsub. injection Hrun as <- _ _. simpl.
    match goal with |- context [<[i := ?e]> ledger] =>
      pose proof (stakedSum_insert ledger i e cmp Hlook) as Hsum;
      pose proof (occupiedCount_insert ledger i e cmp Hlook) as Hcnt
    end.
    unfold stake, seat, occupied in *. simpl in *. split; lia.
Qed.

(** ** The distribution loops, slot by slot *)

Lemma product3 (a b c : N) : product [a; b; c] = a * b * c.
Proof. unfold product. simpl. lia. Qed.

Lemma product2 (a b : N) : product [a; b] = a * b.
Proof. unfold product. simpl. lia. Qed.

Lemma product1 (a : N) : product [a] = a.
Proof. unfold product. simpl. lia. Qed.

Lemma div_zero_l (a : N) : 0 / a = 0.
Proof. by destruct a. Qed.

Lemma partialTokenCredit_spec total tp x p avail held paid :
  partialTokenCredit total tp x p = Some (avail, held, paid) ->
  let credit := balance x * tokenRewardAvail p * tp / (total * 1000) in
  tokenRewardAvail p = avail + credit /\
  held = rewardTokenBalance x + credit /\
  paid = tokenRewardPaidOut p + credit.
Proof.
  unfold partialTokenCredit. intros Hrun.
  destruct (N.ltb_spec 0 (tokenRewardAvail p)) as [Hpos|Hzero].
  - step Hrun as r Hr. step Hrun as a Ha. step Hrun as b Hb. step Hrun as c Hc.
    injection Hrun as <- <- <-.
    apply wideRatio_Some in Hr as [_ Hr]. rewrite product3, product2 in Hr.
    apply sub64_Some in Ha as [Hle ->]. apply add64_Some in Hb, Hc. subst.
    simpl. lia.
  - injection Hrun as <- <- <-.
    assert (tokenRewardAvail p = 0) as -> by lia.
    rewrite N.mul_0_r, N.mul_0_l, div_zero_l. simpl. lia.
Qed.

Lemma partialAlgoCredit_spec total tp x p avail newBalance rewarded increased :
  partialAlgoCredit total tp x p = Some (avail, newBalance, rewarded, increased) ->
  let credit := balance x * algoRewardAvail p * tp / (total * 1000) in
  algoRewardAvail p = avail + credit /\
  newBalance = balance x + credit /\
  rewarded = totalRewarded x + credit /\
  increased = increasedStake p + credit.
Proof.
  unfold partialAlgoCredit. intros Hrun.
  destruct (N.ltb_spec 0 (algoRewardAvail p)) as [Hpos|Hzero].
  - step Hrun as r Hr. step Hrun as a Ha. step Hrun as b Hb. step Hrun as c Hc.
    step Hrun as d Hd. injection Hrun as <- <- <- <-.
    apply wideRatio_Some in Hr as [_ Hr]. rewrite product3, product2 in Hr.
    apply sub64_Some in Ha as [Hle ->]. apply add64_Some in Hb, Hc, Hd. subst.
    simpl. lia.
  - injection Hrun as <- <- <- <-.
    assert (algoRewardAvail p = 0) as -> by lia.
    rewrite N.mul_0_r, N.mul_0_l, div_zero_l. simpl. lia.
Qed.

Lemma fullTokenCredit_spec T x p held paid :
  fullTokenCredit T x p = Some (held, paid) ->
  let credit := balance x * tokenRewardAvail p / T in
  held = rewardTokenBalance x + credit /\
  paid = tokenRewardPaidOut p + credit.
Proof.
  unfold fullTokenCredit. intros Hrun.
  destruct (N.ltb_spec 0 (tokenRewardAvail p)) as [Hpos|Hzero].
  - step Hrun as r Hr. step Hrun as b Hb. step Hrun as c Hc.
    injection Hrun as <- <-.
    apply wideRatio_Some in Hr as [_ Hr]. rewrite product2, product1 in Hr.
    apply add64_Some in Hb, Hc. subst. simpl. lia.
  - injection Hrun as <- <-.
    assert (tokenRewardAvail p = 0) as -> by lia.
    rewrite N.mul_0_r, div_zero_l. simpl. lia.
Qed.

Lemma fullAlgoCredit_spec T x p newBalance rewarded increased :
  fullAlgoCredit T x p = Some (newBalance, rewarded, increased) ->
  let credit := balance x * algoRewardAvail p / T in
  newBalance = balance x + credit /\
  rewarded = totalRewarded x + credit /\
  increased = increasedStake p + credit.
Proof.
  unfold fullAlgoCredit. intros Hrun.
  destruct (N.ltb_spec 0 (algoRewardAvail p)) as [Hpos|Hzero].
  - step Hrun as r Hr. step Hrun as b Hb. step Hrun as c Hc. step Hrun as d Hd.
    injection Hrun as <- <- <-.
    apply wideRatio_Some in Hr as [_ Hr]. rewrite product2, product1 in Hr.
    apply add64_Some in Hb, Hc, Hd. subst. simpl. lia.
  - injection Hrun as <- <- <-.
    assert (algoRewardAvail p = 0) as -> by lia.
    rewrite N.mul_0_r, div_zero_l. simpl. lia.
Qed.

(** One iteration of the first loop credits the slot what the
    specification's pass A says, out of the reward at that point. *)
Lemma passA_slot_spec cur ep total x p x' p' :
  passA_slot cur ep total x p = Some (x', p') ->
  let algo := spec_partialCredit cur ep total (algoRewardAvail p) x in
  let token := spec_partialCredit cur ep total (tokenRewardAvail p) x in
  credited x x' algo token /\ tallied p p' algo token /\
  algoRewardAvail p = algoRewardAvail p' + algo /\
  tokenRewardAvail p = tokenRewardAvail p' + token /\
  partialStakersTotalStake p' =
    partialStakersTotalStake p
    + (if countedPartial cur ep x then balance x else 0).
Proof.
  unfold passA_slot, spec_partialCredit, countedPartial, entersLater, partOfEpoch,
    timeInPoolOf, spec_timePercentage, credited, tallied, occupied.
  intros Hrun.
  destruct (account x =? zeroAddress); simpl in *.
  { injection Hrun as <- <-. repeat split; lia. }
  destruct (N.ltb_spec cur (entryTime x)) as [Hfuture|Hpast].
  { step Hrun as partial Hpartial. injection Hrun as <- <-. simpl.
    apply add64_Some in Hpartial.
    destruct (N.leb_spec (entryTime x) cur); [lia|]. simpl.
    repeat split; lia. }
  step Hrun as timeInPool Htime. apply sub64_Some in Htime as [_ ->].
  destruct (N.leb_spec (entryTime x) cur); [|lia]. simpl.
  destruct (N.ltb_spec (cur - entryTime x) ep) as [Hpart|Hwhole].
  - step Hrun as partial Hpartial. step Hrun as scaled Hscaled.
    step Hrun as tp Htp.
    step Hrun as tok Htok. destruct tok as [[tokenAvail tokenHeld] tokenPaid].
    step Hrun as alg Halg.
    destruct alg as [[[algoAvail newBalance] rewarded] increased].
    injection Hrun as <- <-. simpl.
    apply add64_Some in Hpartial. apply mul64_Some in Hscaled.
    apply div64_Some in Htp as [_ ->]. subst scaled.
    apply partialTokenCredit_spec in Htok. apply partialAlgoCredit_spec in Halg.
    simpl in *. repeat split; lia.
  - injection Hrun as <- <-. simpl. repeat split; lia.
Qed.

(** One iteration of the second loop credits a slot it pays its share of
    the remaining reward and leaves the remaining reward alone. *)
Lemma passB_slot_spec cur ep T x p x' p' :
  passB_slot cur ep T x p = Some (x', p') ->
  let algo := if paidInFull cur ep x then balance x * algoRewardAvail p / T else 0 in
  let token := if paidInFull cur ep x then balance x * tokenRewardAvail p / T else 0 in
  credited x x' algo token /\ tallied p p' algo token /\
  algoRewardAvail p' = algoRewardAvail p /\
  tokenRewardAvail p' = tokenRewardAvail p /\
  partialStakersTotalStake p' = partialStakersTotalStake p.
Proof.
  unfold passB_slot, paidInFull, credited, tallied.
  intros Hrun.
  destruct (account x =? zeroAddress); simpl in *.
  { injection Hrun as <- <-. repeat split; lia. }
  destruct (N.ltb_spec (entryTime x) cur) as [Hpast|Hnow]; simpl in *.
  - step Hrun as timeInPool Htime. apply sub64_Some in Htime as [_ ->].
    destruct (N.leb_spec ep (cur - entryTime x)) as [Hwhole|Hpart].
    + step Hrun as tok Htok. destruct tok as [tokenHeld tokenPaid].
      step Hrun as alg Halg. destruct alg as [[newBalance rewarded] increased].
      injection Hrun as <- <-. simpl.
      apply fullTokenCredit_spec in Htok. apply fullAlgoCredit_spec in Halg.
      simpl in *. repeat split; lia.
    + injection Hrun as <- <-. repeat split; lia.
  - injection Hrun as <- <-. repeat split; lia.
Qed.

(** The second loop pays only slots present the whole epoch, and all of
    them when the epoch has a positive length. *)
Lemma paidInFull_wholeEpoch cur ep x :
  paidInFull cur ep x = true -> wholeEpoch cur ep x = true.
Proof.
  unfold paidInFull, wholeEpoch, timeInPoolOf, occupied.
  destruct (negb _); simpl; [|done].
  destruct (N.ltb_spec (entryTime x) cur), (N.leb_spec (entryTime x) cur);
    simpl; try done; lia.
Qed.

Lemma wholeEpoch_paidInFull cur ep x :
  0 < ep -> paidInFull cur ep x = wholeEpoch cur ep x.
Proof.
  unfold paidInFull, wholeEpoch, timeInPoolOf, occupied. intros Hep.
  destruct (negb _); simpl; [|done].
  destruct (N.ltb_spec (entryTime x) cur), (N.leb_spec (entryTime x) cur);
    simpl; try done; try lia.
  destruct (N.leb_spec ep (cur - entryTime x)); [lia|done].
Qed.

Lemma credited_eq x x' algo token :
  credited x x' algo token -> x' = creditSlot x algo token.
Proof.
  unfold credited, creditSlot. destruct x'. simpl.
  intros (-> & -> & -> & -> & ->). done.
Qed.

Lemma credited_stake x x' algo token :
  credited x x' algo token ->
  stake x' = stake x + (if occupied x then algo else 0) /\ seat x' = seat x.
Proof.
  unfold credited, stake, seat, occupied.
  intros (-> & _ & -> & _).
  destruct (account x =? zeroAddress); simpl in *; lia.
Qed.

Lemma spec_partialCredit_free cur ep total R x :
  occupied x = false -> spec_partialCredit cur ep total R x = 0.
Proof. unfold spec_partialCredit, partOfEpoch. by intros ->. Qed.

Lemma spec_partialCredit_whole cur ep total R x :
  wholeEpoch cur ep x = true -> spec_partialCredit cur ep total R x = 0.
Proof.
  unfold spec_partialCredit, partOfEpoch, wholeEpoch.
  destruct (occupied x), (entryTime x <=? cur); simpl; try done.
  intros Hwhole%N.leb_le. by destruct (N.ltb_spec (timeInPoolOf cur x) ep); [lia|].
Qed.

Lemma spec_fullCredit_free cur ep T R x :
  occupied x = false -> spec_fullCredit cur ep T R x = 0.
Proof.
  unfold spec_fullCredit, wholeEpoch. intros ->. simpl. by destruct (T =? 0).
Qed.

Lemma wholeEpoch_credited cur ep x x' algo token :
  credited x x' algo token -> wholeEpoch cur ep x' = wholeEpoch cur ep x.
Proof.
  unfold credited, wholeEpoch, timeInPoolOf, occupied.
  by intros (-> & -> & _).
Qed.

(** Every occupied slot is either counted partial or present the whole
    epoch, and an empty slot is neither. *)
Lemma slot_partition cur ep x :
  stake x =
    (if countedPartial cur ep x then balance x else 0)
    + (if wholeEpoch cur ep x then balance x else 0).
Proof.
  unfold stake, countedPartial, entersLater, partOfEpoch, wholeEpoch.
  destruct (occupied x); simpl; [|done].
  destruct (N.ltb_spec cur (entryTime x)), (N.leb_spec (entryTime x) cur);
    simpl; try lia.
  destruct (N.ltb_spec (timeInPoolOf cur x) ep),
    (N.leb_spec ep (timeInPoolOf cur x)); simpl; lia.
Qed.

Lemma ledger_partition cur ep l :
  stakedSum l = spec_partialStakersTotalStake cur ep l + fullStake cur ep l.
Proof.
  induction l as [|x l IH]; [done|]. simpl.
  rewrite (slot_partition cur ep x), IH. lia.
Qed.

Lemma fullCount_le_occupied cur ep l : fullCount cur ep l <= occupiedCount l.
Proof.
  induction l as [|x l IH]; [done|]. simpl.
  unfold seat, wholeEpoch. destruct (occupied x); simpl; [|lia].
  destruct (_ && _); lia.
Qed.

Lemma fullStake_pos_count cur ep l :
  0 < fullStake cur ep l -> 0 < fullCount cur ep l.
Proof.
  induction l as [|x l IH]; simpl; [lia|].
  destruct (wholeEpoch cur ep x); lia.
Qed.

(** *** The first loop *)

Lemma passA_sums cur ep total l p l' p' :
  passA cur ep total l p = Some (l', p') ->
  stakedSum l' + increasedStake p = stakedSum l + increasedStake p' /\
  occupiedCount l' = occupiedCount l /\
  algoRewardAvail p + increasedStake p = algoRewardAvail p' + increasedStake p' /\
  partialStakersTotalStake p' =
    partialStakersTotalStake p + spec_partialStakersTotalStake cur ep l /\
  fullStake cur ep l' = fullStake cur ep l /\
  fullCount cur ep l' = fullCount cur ep l.
Proof.
  revert p l' p'. induction l as [|x l IH]; intros p l' p' Hrun; simpl in Hrun.
  - injection Hrun as <- <-. simpl. repeat split; lia.
  - step Hrun as r1 Hslot. destruct r1 as [x1 p1].
    step Hrun as r2 Hrest. destruct r2 as [l2 p2].
    injection Hrun as <- <-.
    apply passA_slot_spec in Hslot as (Hx & [Hinc _] & Havail & _ & Hpartial).
    apply IH in Hrest as (Hsum & Hcnt & Hrew & Hpart & Hfull & Hfc).
    pose proof (wholeEpoch_credited cur ep _ _ _ _ Hx) as Hwhole.
    pose proof (spec_partialCredit_whole cur ep total (algoRewardAvail p) x) as Hzero.
    apply credited_stake in Hx as Hstake.
    destruct Hstake as [Hstake Hseat].
    destruct Hx as (_ & _ & Hbal & _).
    simpl. rewrite Hwhole.
    assert (stake x1 = stake x + spec_partialCredit cur ep total (algoRewardAvail p) x)
      as Hstake'.
    { rewrite Hstake. destruct (occupied x) eqn:Hocc; [done|].
      by rewrite spec_partialCredit_free. }
    assert ((if wholeEpoch cur ep x then balance x1 else 0)
            = (if wholeEpoch cur ep x then balance x else 0)) as Hsame.
    { destruct (wholeEpoch cur ep x); [|done]. rewrite Hbal, Hzero by done. lia. }
    rewrite Hsame. repeat split; lia.
Qed.

(** *** The second loop *)

(** A floor loses less than one unit: [T * (a / T) <= a < T * (a / T) + T]. *)
Lemma floor_bounds (a T : N) :
  0 < T -> T * (a / T) <= a /\ a + 1 <= T * (a / T) + T.
Proof.
  intros HT. split.
  - apply N.Div0.mul_div_le.
  - pose proof (N.mul_succ_div_gt a T ltac:(lia)) as Hgt. lia.
Qed.

Lemma passB_sums cur ep T l p l' p' :
  0 < T ->
  passB cur ep T l p = Some (l', p') ->
  stakedSum l' + increasedStake p = stakedSum l + increasedStake p' /\
  occupiedCount l' = occupiedCount l /\
  algoRewardAvail p' = algoRewardAvail p /\
  partialStakersTotalStake p' = partialStakersTotalStake p /\
  T * increasedStake p' <=
    T * increasedStake p + algoRewardAvail p * fullStake cur ep l /\
  (0 < ep ->
   algoRewardAvail p * fullStake cur ep l + fullCount cur ep l
     + T * increasedStake p <=
     T * (increasedStake p' + fullCount cur ep l)).
Proof.
  intros HT. revert p l' p'.
  induction l as [|x l IH]; intros p l' p' Hrun; simpl in Hrun.
  - injection Hrun as <- <-. simpl. repeat split; lia.
  - step Hrun as r1 Hslot. destruct r1 as [x1 p1].
    step Hrun as r2 Hrest. destruct r2 as [l2 p2].
    injection Hrun as <- <-.
    apply passB_slot_spec in Hslot as (Hx & [Hinc _] & Havail & _ & Hpartial).
    apply IH in Hrest as (Hsum & Hcnt & Hrew & Hpart & Hupper & Hlower).
    apply credited_stake in Hx as [Hstake Hseat].
    set (R := algoRewardAvail p) in *.
    set (c := if paidInFull cur ep x then balance x * R / T else 0) in *.
    assert (stake x1 = stake x + c) as Hstake'.
    { rewrite Hstake. destruct (occupied x) eqn:Hocc; [done|].
      subst c. unfold paidInFull. unfold occupied in Hocc. by rewrite Hocc. }
    rewrite Havail in *.
    assert (T * c <= R * (if wholeEpoch cur ep x then balance x else 0)) as Hlo.
    { subst c. destruct (paidInFull cur ep x) eqn:Hpaid; [|lia].
      rewrite (paidInFull_wholeEpoch _ _ _ Hpaid).
      destruct (floor_bounds (balance x * R) T HT) as [Hle Hgt].
      rewrite (N.mul_comm R (balance x)). lia. }
    simpl. repeat split; try lia.
    intros Hep. specialize (Hlower Hep).
    assert (R * (if wholeEpoch cur ep x then balance x else 0)
              + (if wholeEpoch cur ep x then 1 else 0)
              <= T * (c + (if wholeEpoch cur ep x then 1 else 0))) as Hhi.
    { subst c. rewrite wholeEpoch_paidInFull by done.
      destruct (wholeEpoch cur ep x); [|lia].
      destruct (floor_bounds (balance x * R) T HT) as [Hle Hgt].
      rewrite (N.mul_comm R (balance x)). lia. }
    lia.
Qed.

(** *** Both loops *)

Lemma distribute_sums cur ep total l tokenReward algoReward l' p :
  distribute cur ep total l tokenReward algoReward = Some (l', p) ->
  total = stakedSum l ->
  stakedSum l' = stakedSum l + increasedStake p /\
  occupiedCount l' = occupiedCount l /\
  increasedStake p <= algoReward /\
  partialStakersTotalStake p = spec_partialStakersTotalStake cur ep l /\
  (0 < ep -> 0 < fullStake cur ep l ->
   algoReward < increasedStake p + fullCount cur ep l).
Proof.
  unfold distribute. intros Hrun Htotal.
  step Hrun as r1 HpassA. destruct r1 as [l1 p1].
  step Hrun as T HT. apply sub64_Some in HT as [Hle ->].
  apply passA_sums in HpassA
    as (Hsum & Hcnt & Hrew & Hpart & Hfull & Hfc). simpl in *.
  pose proof (ledger_partition cur ep l) as Hsplit.
  rewrite Hpart, N.add_0_l in *.
  assert (total - spec_partialStakersTotalStake cur ep l = fullStake cur ep l)
    as HT by lia.
  rewrite HT in Hrun.
  destruct (N.ltb_spec 0 (fullStake cur ep l)) as [Hpos|Hzero].
  - apply passB_sums in Hrun
      as (Hsum' & Hcnt' & Hrew' & Hpart' & Hupper & Hlower); [|done..].
    rewrite Hfull, Hfc in *.
    set (F := fullStake cur ep l) in *.
    repeat split; try lia.
    + rewrite (N.mul_comm _ F) in Hupper. nia.
    + intros Hep _. specialize (Hlower Hep).
      rewrite (N.mul_comm _ F) in Hlower.
      pose proof (fullStake_pos_count cur ep l Hpos). nia.
  - injection Hrun as <- <-. repeat split; lia.
Qed.

(** ** The epoch update, step by step *)

Lemma epochGate_inv ch s s1 :
  epochGate ch s = Some s1 ->
  s1 = set_epochNumber (epochNumber s + 1) (set_lastPayout (latestTimestamp ch) s) /\
  exists epochInSecs,
    epochInSecsOf (getValidatorConfig (registryOf ch s) (validatorId s))
      = Some epochInSecs /\
    forall last, lastPayout s = Some last ->
      last + epochInSecs <= latestTimestamp ch.
Proof.
  unfold epochGate. intros Hrun.
  step Hrun as ep Hep. step Hrun as u Hgate. step Hrun as n Hn.
  injection Hrun as <-. apply add64_Some in Hn as ->.
  split; [done|]. exists ep. split; [done|].
  intros last Hlast. rewrite Hlast in Hgate.
  step Hgate as secs Hsecs. apply sub64_Some in Hsecs as [Hle ->].
  apply assert_Some, N.leb_le in Hgate. lia.
Qed.

(** The gate touches only [lastPayout] and [epochNumber]. *)
Lemma epochGate_frame ch s s1 :
  epochGate ch s = Some s1 ->
  stakers s1 = stakers s /\ totalAlgoStaked s1 = totalAlgoStaked s /\
  numStakers s1 = numStakers s /\ poolId s1 = poolId s /\
  validatorId s1 = validatorId s /\
  creatingValidatorContractAppId s1 = creatingValidatorContractAppId s /\
  minEntryStake s1 = minEntryStake s /\
  lastPayout s1 = Some (latestTimestamp ch) /\
  epochNumber s1 = epochNumber s + 1.
Proof. intros [-> _]%epochGate_inv. done. Qed.

Lemma epochGate_views ch tx s s1 :
  epochGate ch s = Some s1 ->
  registryOf ch s1 = registryOf ch s /\
  algoRewardAvailOf ch tx s1 = algoRewardAvailOf ch tx s /\
  tokenRewardAvailOf ch tx s1 = tokenRewardAvailOf ch tx s /\
  rewardCut ch s1 = rewardCut ch s /\
  poolKeyOf tx s1 = poolKeyOf tx s.
Proof. intros [-> _]%epochGate_inv. done. Qed.

Lemma epochPayout_inv ch tx s s' cut p :
  epochPayout ch tx s = Some (s', cut, p) ->
  exists epochInSecs s1 surplus tokenReward ledger ledger',
    epochInSecsOf (getValidatorConfig (registryOf ch s) (validatorId s))
      = Some epochInSecs /\
    epochGate ch s = Some s1 /\
    algoRewardAvailOf ch tx s = Some surplus /\
    tokenRewardAvailOf ch tx s = Some tokenReward /\
    (tokenReward = 0 -> 1000000 < surplus) /\
    rewardCut ch s surplus = Some cut /\
    stakers s = Some ledger /\
    distribute (latestTimestamp ch) epochInSecs (totalAlgoStaked s) ledger
      tokenReward (cut_algoRewardAvail cut) = Some (ledger', p) /\
    s' = set_totalAlgoStaked (totalAlgoStaked s + increasedStake p)
           (set_stakers ledger' s1).
Proof.
  unfold epochPayout. intros Hrun.
  step Hrun as ep Hep. step Hrun as s1 Hgate.
  destruct (epochGate_views ch tx s s1 Hgate) as (_ & Hv1 & Hv2 & Hv3 & _).
  destruct (epochGate_frame ch s s1 Hgate) as (Hf1 & Hf2 & _).
  rewrite Hv1, Hv2 in Hrun.
  step Hrun as surplus Hsurplus. step Hrun as tokenReward Htoken.
  step Hrun as u Hfloor. unfold epochSettle in Hrun.
  rewrite Hv3, Hf1, Hf2 in Hrun.
  step Hrun as cut' Hcut. step Hrun as ledger Hledger.
  step Hrun as r Hdist. destruct r as [ledger' p'].
  step Hrun as total Htotal. injection Hrun as <- <- <-.
  apply add64_Some in Htotal as ->.
  exists ep, s1, surplus, tokenReward, ledger, ledger'.
  repeat split; try done.
  intros ->. simpl in Hfloor. by apply assert_Some, N.ltb_lt in Hfloor.
Qed.

Lemma epochBalanceUpdate_inv ch tx s s' txns r :
  epochBalanceUpdate ch tx s = Some (s', txns, r) ->
  exists cut p,
    epochPayout ch tx s = Some (s', cut, p) /\
    txns = cut_payments cut ++
           [StakeUpdatedViaRewards (poolKeyOf tx s) (increasedStake p)
              (tokenRewardPaidOut p) (cut_validatorCommissionPaidOut cut)
              (cut_excessToFeeSink cut)].
Proof.
  unfold epochBalanceUpdate. intros Hrun.
  step Hrun as res Hpay. destruct res as [[s2 cut] p].
  steps Hrun; injection Hrun as <- <- _. exists cut, p. split; [done|].
  apply epochPayout_inv in Hpay
    as (ep & s1 & S & tok & l & l' & _ & Hgate & _ & _ & _ & _ & _ & _ & ->).
  by apply epochGate_inv in Hgate as [-> _].
Qed.

Lemma epochPayout_ledger_ok ch tx s s' cut p :
  ledger_ok s ->
  epochPayout ch tx s = Some (s', cut, p) -> ledger_ok s'.
Proof.
  intros [Htot Hnum] Hrun.
  apply epochPayout_inv in Hrun
    as (ep & s1 & S & tok & l & l' & _ & Hgate & _ & _ & _ & _ & Hl & Hdist & ->).
  apply epochGate_frame in Hgate as (_ & _ & Hn & _).
  unfold ledger_ok, ledgerOf in *. rewrite Hl in Htot, Hnum. simpl in *.
  apply distribute_sums in Hdist as (Hsum & Hcnt & _); [|done].
  rewrite Hn. split; [lia|congruence].
Qed.

(** Every call keeps the ledger's counters in step with its slots. *)
Lemma exec_ledger_ok ch tx c s s' txns :
  ledger_ok s ->
  sender tx <> zeroAddress ->
  exec ch tx c s = Some (s', txns) -> ledger_ok s'.
Proof.
  intros Hok Hsender Hrun. unfold exec, dropResult in Hrun.
  destruct c;
    apply fmap_Some in Hrun as ([[s2 t2] r] & Hrun & [= <- <-]).
  - by eapply initStorage_ledger_ok.
  - by eapply addStake_ledger_ok.
  - by eapply removeStake_ledger_ok.
  - by eapply claimTokens_ledger_ok.
  - apply epochBalanceUpdate_inv in Hrun as (cut & p & Hrun & _).
    by eapply epochPayout_ledger_ok.
  - unfold updateAlgodVer in Hrun. step Hrun as u Hu.
    by steps Hrun; injection Hrun as <- _ _.
  - unfold goOnline in Hrun. step Hrun as u Hu. by steps Hrun; injection Hrun as <- _ _.
  - unfold goOffline in Hrun. step Hrun as u Hu. by steps Hrun; injection Hrun as <- _ _.
  - unfold linkToNFD in Hrun. step Hrun as u Hu. by steps Hrun; injection Hrun as <- _ _.
  - unfold payTokenReward in Hrun. step Hrun as u1 H1. step Hrun as u2 H2.
    step Hrun as u3 H3. by steps Hrun; injection Hrun as <- _ _.
  - unfold proxiedSetTokenPayoutRatio in Hrun. steps Hrun.
    by injection Hrun as <- _ _.
  - by injection Hrun as <- _ _.
Qed.

Lemma next_ledger_ok ch tx c s :
  ledger_ok s -> sender tx <> zeroAddress -> ledger_ok (next ch tx c s).
Proof.
  intros Hok Hsender. unfold next.
  destruct (exec ch tx c s) as [[s' txns]|] eqn:Hrun; [|done].
  by eapply exec_ledger_ok.
Qed.

(** ** Reachable states *)


Lemma exec_lastPayout ch tx c s s' txns :
  exec ch tx c s = Some (s', txns) ->
  is_Some (lastPayout s) -> is_Some (lastPayout s').
Proof.
  intros Hrun Hsome. unfold exec, dropResult in Hrun.
  destruct c;
    apply fmap_Some in Hrun as ([[s2 t2] r] & Hrun & [= <- <-]).
  - unfold initStorage in Hrun. steps Hrun.
    by injection Hrun as <- _ _.
  - unfold addStake in Hrun. steps Hrun.
    destruct (addStake_scan _ _ _) as [[i cmp]|firstEmpty];
      steps Hrun; by injection Hrun as <- _ _.
  - unfold removeStake in Hrun. step Hrun as l Hl. step Hrun as f Hf.
    destruct f as [i cmp]. steps Hrun.
    by injection Hrun as <- _ _.
  - unfold claimTokens in Hrun. step Hrun as l Hl. step Hrun as f Hf.
    destruct f as [i cmp]. destruct (_ =? 0); by steps Hrun; injection Hrun as <- _ _.
  - apply epochBalanceUpdate_inv in Hrun as (cut & p & Hrun & _).
    apply epochPayout_inv in Hrun
      as (ep & s1 & S & tok & l & l' & _ & Hgate & _ & _ & _ & _ & _ & _ & ->).
    apply epochGate_inv in Hgate as [-> _]. done.
  - unfold updateAlgodVer in Hrun. step Hrun as u Hu.
    by steps Hrun; injection Hrun as <- _ _.
  - unfold goOnline in Hrun. step Hrun as u Hu. by steps Hrun; injection Hrun as <- _ _.
  - unfold goOffline in Hrun. step Hrun as u Hu. by steps Hrun; injection Hrun as <- _ _.
  - unfold linkToNFD in Hrun. step Hrun as u Hu. by steps Hrun; injection Hrun as <- _ _.
  - unfold payTokenReward in Hrun. step Hrun as u1 H1. step Hrun as u2 H2.
    step Hrun as u3 H3. by steps Hrun; injection Hrun as <- _ _.
  - unfold proxiedSetTokenPayoutRatio in Hrun. steps Hrun.
    by injection Hrun as <- _ _.
  - by injection Hrun as <- _ _.
Qed.

(** [createApplication] stores the baseline of the first epoch, so every
    pool has a last-payout time. *)
Lemma reachable_lastPayout s : reachable s -> is_Some (lastPayout s).
Proof.
  induction 1 as [ch a b c d s Hcreate|ch tx c s Hreach IH Hsender].
  - unfold createApplication in Hcreate.
    step Hcreate as u1 H1. step Hcreate as u2 H2. by injection Hcreate as <-.
  - unfold next. destruct (exec ch tx c s) as [[s' txns]|] eqn:Hrun; [|done].
    by eapply exec_lastPayout.
Qed.

(** ** Main results *)

(** C2. Ledger integrity: in every state the pool can reach, that is after
    every [addStake], [removeStake], [claimTokens], [epochBalanceUpdate] or
    other call, successful or rolled back, [totalAlgoStaked] is the sum of
    the balances of the occupied slots and [numStakers] is the number of
    occupied slots. *)
Theorem ledger_integrity s :
  reachable s ->
  totalAlgoStaked s = stakedSum (ledgerOf s) /\
  numStakers s = occupiedCount (ledgerOf s).
Proof.
  induction 1 as [ch a b c d s Hcreate|ch tx c s Hreach IH Hsender].
  - by eapply createApplication_ledger_ok.
  - by apply next_ledger_ok.
Qed.

(** C3, as amended.  [createApplication] stores the creation time as the
    first [lastPayout], so the interval check applies to every call, the
    first included: whenever [now - lastPayout] is less than
    [payoutEveryXMins * 60] seconds the call fails and the state is
    unchanged.  Every successful call sets [lastPayout] to the current time
    and adds exactly 1 to [epochNumber], whatever it paid out. *)
Theorem epoch_gate ch tx s :
  reachable s ->
  (exists last, lastPayout s = Some last) /\
  (forall last,
     lastPayout s = Some last ->
     latestTimestamp ch
       < last + ValidatorConfig.payoutEveryXMins
                  (getValidatorConfig (registryOf ch s) (validatorId s)) * 60 ->
     epochBalanceUpdate ch tx s = None /\
     next ch tx CallEpochBalanceUpdate s = s) /\
  (forall s' txns r,
     epochBalanceUpdate ch tx s = Some (s', txns, r) ->
     lastPayout s' = Some (latestTimestamp ch) /\
     epochNumber s' = epochNumber s + 1).
Proof.
  intros Hreach. split; [|split].
  - by apply reachable_lastPayout.
  - intros last Hlast Hearly.
    assert (epochBalanceUpdate ch tx s = None) as Hfail.
    { destruct (epochBalanceUpdate ch tx s) as [[[s' txns] r]|] eqn:Hrun; [|done].
      apply epochBalanceUpdate_inv in Hrun as (cut & p & Hrun & _).
      apply epochPayout_inv in Hrun
        as (ep & s1 & S & tok & l & l' & Hep & Hgate & _).
      apply epochGate_inv in Hgate as [_ (ep' & Hep' & Hdue)].
      rewrite Hep in Hep'. injection Hep' as <-.
      apply mul64_Some in Hep as ->. specialize (Hdue _ Hlast). lia. }
    split; [done|]. unfold next, exec, dropResult. by rewrite Hfail.
  - intros s' txns r Hrun.
    apply epochBalanceUpdate_inv in Hrun as (cut & p & Hrun & _).
    apply epochPayout_inv in Hrun
      as (ep & s1 & S & tok & l & l' & _ & Hgate & _ & _ & _ & _ & _ & _ & ->).
    by apply epochGate_inv in Hgate as [-> _].
Qed.

Lemma rewardCut_inv ch s surplus cut :
  rewardCut ch s surplus = Some cut ->
  cut_algoRewardAvail cut + cut_validatorCommissionPaidOut cut
    + cut_excessToFeeSink cut = surplus /\
  exists saturation,
    algoSaturationLevel = Some saturation /\
    let aggregate :=
      ValidatorState.totalAlgoStaked
        (getValidatorState (registryOf ch s) (validatorId s)) in
    (saturation < aggregate ->
     cut = mkCut (surplus * saturation / aggregate) 0
             (surplus - surplus * saturation / aggregate)
             [Payment getFeeSink (surplus - surplus * saturation / aggregate)
                "pool saturated, excess to fee sink"]).
Proof.
  unfold rewardCut. intros Hrun.
  step Hrun as saturation Hsat.
  destruct (N.ltb_spec saturation
              (ValidatorState.totalAlgoStaked
                 (getValidatorState (registryOf ch s) (validatorId s))))
    as [Hover|Hunder].
  - step Hrun as diminished Hdim. step Hrun as excess Hexcess.
    injection Hrun as <-. simpl.
    apply wideRatio_Some in Hdim as [_ Hdim].
    rewrite product2, product1 in Hdim. subst diminished.
    apply sub64_Some in Hexcess as [Hle ->].
    split; [lia|]. exists saturation. done.
  - assert (cut_algoRewardAvail cut + cut_validatorCommissionPaidOut cut
              + cut_excessToFeeSink cut = surplus) as Hsum.
    { destruct (negb _).
      - step Hrun as commission Hcommission. step Hrun as rest Hrest.
        step Hrun as payments Hpayments. injection Hrun as <-. simpl.
        apply sub64_Some in Hrest as [Hle ->]. lia.
      - injection Hrun as <-. simpl. lia. }
    split; [done|]. exists saturation. split; [done|]. simpl. lia.
Qed.

(** C4, as amended.  A successful [epochBalanceUpdate] never hands out more
    than the surplus: commission, algo credits and fee-sink excess together
    are at most the surplus, and the credits are exactly what the stakers'
    balances gained.  When the epoch has positive length and some staker with
    stake was present the whole epoch, the shortfall is less than the number
    of stakers; what is not handed out stays in the pool. *)
Theorem reward_conservation ch tx s s' txns r :
  ledger_ok s ->
  epochBalanceUpdate ch tx s = Some (s', txns, r) ->
  exists surplus payments increased tokenPaid commission excess,
    algoRewardAvailOf ch tx s = Some surplus /\
    txns = payments ++ [StakeUpdatedViaRewards (poolKeyOf tx s) increased
                          tokenPaid commission excess] /\
    stakedSum (ledgerOf s') = stakedSum (ledgerOf s) + increased /\
    commission + increased + excess <= surplus /\
    let epochInSecs :=
      ValidatorConfig.payoutEveryXMins
        (getValidatorConfig (registryOf ch s) (validatorId s)) * 60 in
    (0 < epochInSecs ->
     0 < fullStake (latestTimestamp ch) epochInSecs (ledgerOf s) ->
     surplus < commission + increased + excess + numStakers s).
Proof.
  intros [Htot Hnum] Hrun.
  apply epochBalanceUpdate_inv in Hrun as (cut & p & Hrun & ->).
  apply epochPayout_inv in Hrun
    as (ep & s1 & S & tok & l & l' & Hep & Hgate & HS & _ & _ & Hcut & Hl
        & Hdist & ->).
  apply mul64_Some in Hep as ->.
  apply rewardCut_inv in Hcut as [Hsplit _].
  unfold ledgerOf in *. rewrite Hl in *. simpl in *.
  apply distribute_sums in Hdist as (Hsum & Hcnt & Hle & _ & Hlow); [|done].
  exists S, (cut_payments cut), (increasedStake p), (tokenRewardPaidOut p),
    (cut_validatorCommissionPaidOut cut), (cut_excessToFeeSink cut).
  repeat split; try done; try lia.
  intros Hpos Hfull. specialize (Hlow Hpos Hfull).
  pose proof (fullCount_le_occupied (latestTimestamp ch)
    (ValidatorConfig.payoutEveryXMins
       (getValidatorConfig (registryOf ch s) (validatorId s)) * 60) l).
  lia.
Qed.

(** C5.  When the validator's aggregate stake exceeds the saturation level
    (the configured per-mille share of the online stake), a successful
    [epochBalanceUpdate] pays no commission, sends the fee sink
    [S - floor(S * saturation / aggregate)] and distributes the diminished
    reward [floor(S * saturation / aggregate)] and no more to the stakers. *)
Theorem saturation_dampening ch tx s s' txns r :
  ledger_ok s ->
  let aggregate :=
    ValidatorState.totalAlgoStaked
      (getValidatorState (registryOf ch s) (validatorId s)) in
  let saturation :=
    getCurrentOnlineStake * MAX_VALIDATOR_SOFT_PCT_OF_ONLINE_1DECIMAL / 1000 in
  saturation < aggregate ->
  epochBalanceUpdate ch tx s = Some (s', txns, r) ->
  exists surplus epochInSecs tokenReward p,
    algoSaturationLevel = Some saturation /\
    algoRewardAvailOf ch tx s = Some surplus /\
    let diminished := surplus * saturation / aggregate in
    let excess := surplus - diminished in
    txns = [Payment getFeeSink excess "pool saturated, excess to fee sink";
            StakeUpdatedViaRewards (poolKeyOf tx s) (increasedStake p)
              (tokenRewardPaidOut p) 0 excess] /\
    distribute (latestTimestamp ch) epochInSecs (totalAlgoStaked s) (ledgerOf s)
      tokenReward diminished = Some (ledgerOf s', p) /\
    increasedStake p <= diminished /\
    stakedSum (ledgerOf s') = stakedSum (ledgerOf s) + increasedStake p.
Proof.
  intros [Htot Hnum] aggregate saturation Hover Hrun.
  apply epochBalanceUpdate_inv in Hrun as (cut & p & Hrun & ->).
  apply epochPayout_inv in Hrun
    as (ep & s1 & S & tok & l & l' & Hep & Hgate & HS & _ & _ & Hcut & Hl
        & Hdist & ->).
  apply rewardCut_inv in Hcut as [_ (sat & Hsat & Hcut)].
  assert (sat = saturation) as ->.
  { unfold algoSaturationLevel in Hsat.
    apply wideRatio_Some in Hsat as [_ ->]. by rewrite product2, product1. }
  specialize (Hcut Hover). subst cut. simpl in *.
  unfold ledgerOf in *. rewrite Hl in *. simpl in *.
  exists S, ep, tok, p. repeat split; try done.
  - by apply distribute_sums in Hdist as (_ & _ & Hle & _).
  - by apply distribute_sums in Hdist as (Hsum & _).
Qed.

(** ** The loops against the specification's two passes *)

Lemma spec_passA_length cur ep total l R :
  length (spec_passA cur ep total l R).1 = length l.
Proof.
  revert R. induction l as [|x l IH]; intros R; simpl; [done|].
  specialize (IH (R - spec_partialCredit cur ep total R x)).
  destruct (spec_passA cur ep total l _) as [credits remaining]. simpl in *.
  by rewrite IH.
Qed.

Lemma passA_spec cur ep total l p l' p' :
  passA cur ep total l p = Some (l', p') ->
  l' = creditLedger l (spec_passA cur ep total l (algoRewardAvail p)).1
         (spec_passA cur ep total l (tokenRewardAvail p)).1 /\
  algoRewardAvail p' = (spec_passA cur ep total l (algoRewardAvail p)).2 /\
  tokenRewardAvail p' = (spec_passA cur ep total l (tokenRewardAvail p)).2.
Proof.
  revert p l' p'. induction l as [|x l IH]; intros p l' p' Hrun; simpl in Hrun.
  - by injection Hrun as <- <-.
  - step Hrun as r1 Hslot. destruct r1 as [x1 p1].
    step Hrun as r2 Hrest. destruct r2 as [l2 p2].
    injection Hrun as <- <-.
    apply passA_slot_spec in Hslot as (Hx & _ & Halgo & Htoken & _).
    apply credited_eq in Hx as ->.
    apply IH in Hrest as (-> & -> & ->).
    assert (algoRewardAvail p1
            = algoRewardAvail p
              - spec_partialCredit cur ep total (algoRewardAvail p) x) as -> by lia.
    assert (tokenRewardAvail p1
            = tokenRewardAvail p
              - spec_partialCredit cur ep total (tokenRewardAvail p) x) as -> by lia.
    simpl.
    destruct (spec_passA cur ep total l (algoRewardAvail p - _)).
    destruct (spec_passA cur ep total l (tokenRewardAvail p - _)).
    simpl. done.
Qed.

Lemma creditSlot_zero x : creditSlot x 0 0 = x.
Proof. destruct x. unfold creditSlot. simpl. by rewrite !N.add_0_r. Qed.

Lemma spec_fullCredit_code cur ep T R x :
  0 < ep -> 0 < T ->
  (if paidInFull cur ep x then balance x * R / T else 0)
  = spec_fullCredit cur ep T R x.
Proof.
  intros Hep HT. unfold spec_fullCredit.
  destruct (N.eqb_spec T 0); [lia|]. by rewrite wholeEpoch_paidInFull.
Qed.

Lemma passB_spec cur ep T l p l' p' :
  0 < ep -> 0 < T ->
  passB cur ep T l p = Some (l', p') ->
  l' = creditLedger l (spec_fullCredit cur ep T (algoRewardAvail p) <$> l)
         (spec_fullCredit cur ep T (tokenRewardAvail p) <$> l) /\
  algoRewardAvail p' = algoRewardAvail p /\
  tokenRewardAvail p' = tokenRewardAvail p.
Proof.
  intros Hep HT. revert p l' p'.
  induction l as [|x l IH]; intros p l' p' Hrun; simpl in Hrun.
  - by injection Hrun as <- <-.
  - step Hrun as r1 Hslot. destruct r1 as [x1 p1].
    step Hrun as r2 Hrest. destruct r2 as [l2 p2].
    injection Hrun as <- <-.
    apply passB_slot_spec in Hslot as (Hx & _ & Halgo & Htoken & _).
    rewrite !spec_fullCredit_code in Hx by done.
    apply credited_eq in Hx as ->.
    apply IH in Hrest as (-> & -> & ->).
    rewrite Halgo, Htoken. done.
Qed.

(** Pass A leaves the whole-epoch slots as they were, so pass B reads the
    balances the epoch started with. *)
Lemma spec_fullCredit_after_passA cur ep total T R l RA RT :
  spec_fullCredit cur ep T R
    <$> creditLedger l (spec_passA cur ep total l RA).1
          (spec_passA cur ep total l RT).1
  = spec_fullCredit cur ep T R <$> l.
Proof.
  revert RA RT. induction l as [|x l IH]; intros RA RT; [done|].
  specialize (IH (RA - spec_partialCredit cur ep total RA x)
                 (RT - spec_partialCredit cur ep total RT x)).
  cbn [spec_passA].
  destruct (spec_passA cur ep total l (RA - _)) as [cA remA].
  destruct (spec_passA cur ep total l (RT - _)) as [cT remT].
  cbn [fst creditLedger] in *. rewrite !fmap_cons, IH. f_equal.
  unfold spec_fullCredit. destruct (T =? 0); [done|].
  unfold wholeEpoch, timeInPoolOf, occupied. simpl.
  fold (occupied x) (timeInPoolOf cur x) (wholeEpoch cur ep x).
  destruct (wholeEpoch cur ep x) eqn:Hwhole; [|done].
  by rewrite spec_partialCredit_whole, N.add_0_r.
Qed.

Lemma creditLedger_twice l cA tA cB tB :
  length cA = length l -> length tA = length l ->
  creditLedger (creditLedger l cA tA) cB tB
  = creditLedger l (zip_with N.add cA cB) (zip_with N.add tA tB).
Proof.
  revert cA tA cB tB.
  induction l as [|x l IH]; intros [|a cA] [|t tA] cB tB HA HT;
    simplify_eq/=; try done.
  destruct cB as [|b cB], tB as [|u tB]; simpl; try done.
  rewrite IH by done. f_equal. unfold creditSlot. simpl. f_equal; lia.
Qed.

Lemma creditLedger_zeros l cA tA T cur ep RA RT :
  T = 0 -> length cA = length l -> length tA = length l ->
  creditLedger l (zip_with N.add cA (spec_fullCredit cur ep T RA <$> l))
    (zip_with N.add tA (spec_fullCredit cur ep T RT <$> l))
  = creditLedger l cA tA.
Proof.
  intros ->. revert cA tA.
  induction l as [|x l IH]; intros [|a cA] [|t tA] HA HT; simplify_eq/=;
    try done.
  rewrite IH by done. unfold spec_fullCredit. simpl. by rewrite !N.add_0_r.
Qed.

Lemma distribute_spec cur ep total l tokenReward algoReward l' p :
  0 < ep ->
  distribute cur ep total l tokenReward algoReward = Some (l', p) ->
  l' = creditLedger l (spec_credits cur ep total l algoReward)
         (spec_credits cur ep total l tokenReward) /\
  partialStakersTotalStake p = spec_partialStakersTotalStake cur ep l /\
  algoRewardAvail p = (spec_passA cur ep total l algoReward).2 /\
  tokenRewardAvail p = (spec_passA cur ep total l tokenReward).2.
Proof.
  unfold distribute, spec_credits. intros Hep Hrun.
  step Hrun as r1 HpassA. destruct r1 as [l1 p1].
  step Hrun as T HT. apply sub64_Some in HT as [Hle ->].
  pose proof (passA_sums _ _ _ _ _ _ _ HpassA) as (_ & _ & _ & Hpart & _).
  apply passA_spec in HpassA as (-> & HRA & HRT). simpl in *.
  rewrite N.add_0_l in Hpart. rewrite Hpart in *.
  pose proof (spec_passA_length cur ep total l algoReward) as HlenA.
  pose proof (spec_passA_length cur ep total l tokenReward) as HlenT.
  pose proof (fun T R =>
    spec_fullCredit_after_passA cur ep total T R l algoReward tokenReward)
    as Hsame.
  destruct (spec_passA cur ep total l algoReward) as [cA remA].
  destruct (spec_passA cur ep total l tokenReward) as [cT remT].
  simpl in *.
  destruct (N.ltb_spec 0 (total - spec_partialStakersTotalStake cur ep l))
    as [Hpos|Hzero].
  - pose proof (passB_sums _ _ _ _ _ _ _ Hpos Hrun) as (_ & _ & _ & HpartB & _).
    apply passB_spec in Hrun as (-> & -> & ->); [|done..].
    rewrite HRA, HRT, !Hsame, HpartB.
    by rewrite creditLedger_twice.
  - injection Hrun as <- <-. rewrite creditLedger_zeros by (done || lia). done.
Qed.

(** C6.  The distribution of [epochBalanceUpdate] is the specification's
    two passes.  Pass A credits each slot whose time in the pool is less
    than the epoch [floor(balance * available * timePercentage /
    (totalStaked * 1000))], with [timePercentage = floor(timeInPool * 1000 /
    epochSeconds)], out of the reward left by the slots before it, and counts
    its balance as partial stake; a slot entering in the future is counted
    partial and credited nothing.  Pass B credits each slot present the
    whole epoch [floor(balance * remaining / (totalStaked - partialStake))],
    and nothing at all when that reduced total is zero.  Algo and token
    rewards follow the same two passes. *)
Theorem two_pass_distribution ch tx s s' txns r :
  let curTime := latestTimestamp ch in
  let epochInSecs :=
    ValidatorConfig.payoutEveryXMins
      (getValidatorConfig (registryOf ch s) (validatorId s)) * 60 in
  0 < epochInSecs ->
  epochBalanceUpdate ch tx s = Some (s', txns, r) ->
  exists surplus tokenReward cut,
    algoRewardAvailOf ch tx s = Some surplus /\
    tokenRewardAvailOf ch tx s = Some tokenReward /\
    rewardCut ch s surplus = Some cut /\
    ledgerOf s' =
      creditLedger (ledgerOf s)
        (spec_credits curTime epochInSecs (totalAlgoStaked s) (ledgerOf s)
           (cut_algoRewardAvail cut))
        (spec_credits curTime epochInSecs (totalAlgoStaked s) (ledgerOf s)
           tokenReward).
Proof.
  intros curTime epochInSecs Hep Hrun.
  apply epochBalanceUpdate_inv in Hrun as (cut & p & Hrun & ->).
  apply epochPayout_inv in Hrun
    as (ep & s1 & S & tok & l & l' & Hep' & Hgate & HS & Htok & _ & Hcut & Hl
        & Hdist & ->).
  apply mul64_Some in Hep' as ->.
  apply distribute_spec in Hdist as (-> & _); [|done].
  exists S, tok, cut. unfold ledgerOf. rewrite Hl. done.
Qed.

(** C7.  For a staker holding a slot, [removeStake] of an amount that would
    leave a nonzero balance below [minEntryStake] fails and changes nothing.
    [removeStake] of the whole balance, asked for as the balance itself or
    as 0, on a ledger whose counters are right, succeeds exactly when the
    ledger accepts the inner transactions it submits: the transfer of the
    staker's reward tokens when this is pool 1 and there are any, the payment
    of the balance and the report to the registry.  It then pays the staker
    the balance, clears the slot to the zero address and takes 1 off
    [numStakers]; when one of the three is refused the call fails. *)
Theorem removeStake_minimum_boundary ch tx s ledger i cmpStaker :
  stakers s = Some ledger ->
  findStaker (sender tx) ledger 0 = Some (i, cmpStaker) ->
  (forall amountToUnstake,
     amountToUnstake <> 0 ->
     amountToUnstake < balance cmpStaker ->
     balance cmpStaker - amountToUnstake < minEntryStake s ->
     removeStake ch tx amountToUnstake s = None /\
     next ch tx (CallRemoveStake amountToUnstake) s = s) /\
  (ledger_ok s ->
   sender tx <> zeroAddress ->
   forall amountToUnstake,
     amountToUnstake = 0 \/ amountToUnstake = balance cmpStaker ->
     let transfer :=
       AssetTransfer
         (ValidatorConfig.rewardTokenId
            (getValidatorConfig (registryOf ch s) (validatorId s)))
         (sender tx) (rewardTokenBalance cmpStaker) in
     let payment := Payment (sender tx) (balance cmpStaker) "unstaked" in
     let report :=
       StakeRemoved (poolKeyOf tx s) (sender tx) (balance cmpStaker)
         (rewardTokenBalance cmpStaker) true in
     let sendsTokens := (0 <? rewardTokenBalance cmpStaker) && (poolId s =? 1) in
     let accepted :=
       (if sendsTokens then innerTxnAccepted ch transfer else true)
       && innerTxnAccepted ch payment && innerTxnAccepted ch report in
     (accepted = true ->
      exists s' txns,
        removeStake ch tx amountToUnstake s = Some (s', txns, tt) /\
        payment ∈ txns /\
        ledgerOf s' !! i
          = Some (mkStakedInfo zeroAddress 0 0 0 (entryTime cmpStaker)) /\
        numStakers s' + 1 = numStakers s /\
        totalAlgoStaked s' + balance cmpStaker = totalAlgoStaked s) /\
     (accepted = false -> removeStake ch tx amountToUnstake s = None)).
Proof.
  intros Hledger Hfind.
  pose proof (findStaker_found _ _ _ _ _ Hfind) as (_ & Hlook & Hacc).
  rewrite Nat.sub_0_r in Hlook.
  split.
  - intros amount Hnz Hlt Hbelow.
    assert (removeStake ch tx amount s = None) as Hfail.
    { unfold removeStake. rewrite Hledger. simpl. rewrite Hfind. simpl.
      destruct (N.eqb_spec amount 0); [done|].
      destruct (N.ltb_spec (balance cmpStaker) amount); [done|]. simpl.
      rewrite (sub64_le (balance cmpStaker) amount) by lia. simpl.
      destruct (sub64 (totalAlgoStaked s) amount); [|done]. simpl.
      destruct (N.eqb_spec (balance cmpStaker - amount) 0); [lia|].
      destruct (N.leb_spec (minEntryStake s) (balance cmpStaker - amount));
        [lia|done]. }
    split; [done|]. unfold next, exec, dropResult. by rewrite Hfail.
  - intros [Htot Hnum] Hsender amount Hall transfer payment report sendsTokens
      accepted.
    unfold ledger_ok, ledgerOf in *. rewrite Hledger in *. simpl in *.
    pose proof (stakedSum_lookup ledger i cmpStaker Hlook) as Hstake.
    pose proof (occupiedCount_lookup ledger i cmpStaker Hlook) as Hseat.
    unfold stake, seat, occupied in Hstake, Hseat. rewrite Hacc in Hstake, Hseat.
    destruct (N.eqb_spec (sender tx) zeroAddress); [done|]. simpl in *.
    assert ((if amount =? 0 then balance cmpStaker else amount)
            = balance cmpStaker) as Hamount.
    { destruct Hall as [->| ->]; [done|]. by destruct (_ =? 0). }
    assert ((if 0 <? rewardTokenBalance cmpStaker
             then rewardTokenBalance cmpStaker else 0)
            = rewardTokenBalance cmpStaker) as Hreport.
    { destruct (N.ltb_spec 0 (rewardTokenBalance cmpStaker)); lia. }
    unfold removeStake. rewrite Hledger. simpl. rewrite Hfind. simpl.
    rewrite Hamount, N.ltb_irrefl. simpl.
    rewrite !sub64_le by lia. simpl.
    rewrite N.sub_diag, Hreport. simpl.
    fold transfer payment report sendsTokens.
    assert (submit ch ((if sendsTokens then [transfer] else [])
                       ++ [payment; report])
            = if accepted then Some tt else None) as ->.
    { unfold submit, accepted. rewrite forallb_app.
      destruct sendsTokens; simpl; rewrite ?andb_true_r;
        by repeat (destruct (innerTxnAccepted ch _); simpl). }
    split; intros ->; [|done]. simpl.
    eexists _, _. split; [done|]. simpl.
    split; [|split; [|split; lia]].
    + apply elem_of_app. right. apply elem_of_cons. by left.
    + apply list_lookup_insert_eq. by eapply lookup_lt_Some.
Qed.

(** C8, as amended.  [goOnline], [updateAlgodVer] and [linkToNFD] fail for
    every caller that is neither the owner nor the manager the registry
    reports in this call, whatever their arguments; [goOffline] fails for
    such a caller unless it is the registry contract that created the pool.
    The pair is read from the registry on each call: the gate depends on
    nothing of the pool but the registry and validator it was created for. *)
Theorem owner_manager_gate ch tx s :
  let registered :=
    getValidatorOwnerAndManager (registryOf ch s) (validatorId s) in
  (sender tx <> registered.1 -> sender tx <> registered.2 ->
   (forall algodVer, updateAlgodVer ch tx algodVer s = None) /\
   (forall votePK selectionPK stateProofPK voteFirst voteLast voteKeyDilution,
      goOnline ch tx votePK selectionPK stateProofPK voteFirst voteLast
        voteKeyDilution s = None) /\
   (forall nfdAppId nfdName, linkToNFD ch tx nfdAppId nfdName s = None) /\
   (sender tx <> appAddress ch (creatingValidatorContractAppId s) ->
    goOffline ch tx s = None)) /\
  (forall s2,
     creatingValidatorContractAppId s2 = creatingValidatorContractAppId s ->
     validatorId s2 = validatorId s ->
     isOwnerOrManagerCaller ch tx s2 = isOwnerOrManagerCaller ch tx s).
Proof.
  intros registered. split.
  - intros Howner Hmanager.
    assert (isOwnerOrManagerCaller ch tx s = false) as Hgate.
    { unfold isOwnerOrManagerCaller. fold registered.
      destruct (N.eqb_spec (sender tx) registered.1); [done|].
      by destruct (N.eqb_spec (sender tx) registered.2). }
    unfold updateAlgodVer, goOnline, linkToNFD, goOffline.
    rewrite Hgate. repeat split; try done.
    intros Hregistry.
    by destruct (N.eqb_spec (sender tx)
                   (appAddress ch (creatingValidatorContractAppId s))).
  - intros s2 Hcreator Hvalidator.
    unfold isOwnerOrManagerCaller, registryOf. by rewrite Hcreator, Hvalidator.
Qed.

(** C9.  When the token reward available this epoch is zero, as it always is
    for a validator without a reward token, [epochBalanceUpdate] fails unless
    the surplus exceeds 1,000,000.  When it is not zero the surplus is not
    checked: the update goes on to its saturation and commission step with
    whatever the surplus is. *)
Theorem minimum_reward_floor ch tx s :
  let validatorConfig := getValidatorConfig (registryOf ch s) (validatorId s) in
  (ValidatorConfig.rewardTokenId validatorConfig = 0 ->
   tokenRewardAvailOf ch tx s = Some 0) /\
  (forall surplus,
     tokenRewardAvailOf ch tx s = Some 0 ->
     algoRewardAvailOf ch tx s = Some surplus ->
     surplus <= 1000000 ->
     epochBalanceUpdate ch tx s = None) /\
  (forall tokenReward surplus epochInSecs s1,
     tokenRewardAvailOf ch tx s = Some tokenReward ->
     tokenReward <> 0 ->
     algoRewardAvailOf ch tx s = Some surplus ->
     epochInSecsOf validatorConfig = Some epochInSecs ->
     epochGate ch s = Some s1 ->
     epochPayout ch tx s = epochSettle ch s1 epochInSecs surplus tokenReward).
Proof.
  intros validatorConfig. split; [|split].
  - intros Hnone. unfold tokenRewardAvailOf. fold validatorConfig.
    by rewrite Hnone.
  - intros surplus Htoken Hsurplus Hlow.
    destruct (epochBalanceUpdate ch tx s) as [[[s' txns] r]|] eqn:Hrun; [|done].
    apply epochBalanceUpdate_inv in Hrun as (cut & p & Hrun & _).
    apply epochPayout_inv in Hrun
      as (ep & s1 & S & tok & l & l' & _ & _ & HS & Htok & Hfloor & _).
    rewrite Htoken in Htok. injection Htok as <-.
    rewrite Hsurplus in HS. injection HS as <-.
    specialize (Hfloor eq_refl). lia.
  - intros tokenReward surplus ep s1 Htoken Hnz Hsurplus Hep Hgate.
    unfold epochPayout. fold validatorConfig. rewrite Hep. simpl.
    rewrite Hgate. simpl.
    destruct (epochGate_views ch tx s s1 Hgate) as (_ & -> & -> & _).
    rewrite Hsurplus, Htoken. simpl.
    by destruct (N.eqb_spec tokenReward 0).
Qed.

Lemma passA_no_token cur ep total l p l' p' :
  passA cur ep total l p = Some (l', p') ->
  tokenRewardAvail p = 0 ->
  tokenRewardAvail p' = 0 /\
  tokenRewardPaidOut p' = tokenRewardPaidOut p /\
  rewardTokenBalance <$> l' = rewardTokenBalance <$> l.
Proof.
  revert p l' p'. induction l as [|x l IH]; intros p l' p' Hrun Hzero;
    simpl in Hrun.
  - by injection Hrun as <- <-.
  - step Hrun as r1 Hslot. destruct r1 as [x1 p1].
    step Hrun as r2 Hrest. destruct r2 as [l2 p2].
    injection Hrun as <- <-.
    apply passA_slot_spec in Hslot
      as ((_ & _ & _ & _ & Hheld) & [_ Hpaid] & _ & Havail & _).
    rewrite Hzero in Havail, Hheld, Hpaid.
    assert (spec_partialCredit cur ep total 0 x = 0) as Hnone.
    { unfold spec_partialCredit. destruct (partOfEpoch _ _ _); [|done].
      by rewrite N.mul_0_r, N.mul_0_l, div_zero_l. }
    rewrite Hnone in Havail, Hheld, Hpaid.
    apply IH in Hrest as (Hz & Hp & Hl); [|lia].
    split; [done|]. split; [lia|]. simpl. f_equal; [lia|done].
Qed.

Lemma passB_no_token cur ep T l p l' p' :
  passB cur ep T l p = Some (l', p') ->
  tokenRewardAvail p = 0 ->
  tokenRewardPaidOut p' = tokenRewardPaidOut p /\
  rewardTokenBalance <$> l' = rewardTokenBalance <$> l.
Proof.
  revert p l' p'. induction l as [|x l IH]; intros p l' p' Hrun Hzero;
    simpl in Hrun.
  - by injection Hrun as <- <-.
  - step Hrun as r1 Hslot. destruct r1 as [x1 p1].
    step Hrun as r2 Hrest. destruct r2 as [l2 p2].
    injection Hrun as <- <-.
    apply passB_slot_spec in Hslot
      as ((_ & _ & _ & _ & Hheld) & [_ Hpaid] & _ & Havail & _).
    rewrite Hzero in Hheld, Hpaid.
    assert ((if paidInFull cur ep x then balance x * 0 / T else 0) = 0) as Hnone.
    { destruct (paidInFull _ _ _); [|done]. by rewrite N.mul_0_r, div_zero_l. }
    rewrite Hnone in Hheld, Hpaid.
    apply IH in Hrest as (Hp & Hl); [|congruence].
    split; [lia|]. simpl. f_equal; [lia|done].
Qed.

Lemma distribute_no_token cur ep total l algoReward l' p :
  distribute cur ep total l 0 algoReward = Some (l', p) ->
  tokenRewardPaidOut p = 0 /\
  rewardTokenBalance <$> l' = rewardTokenBalance <$> l.
Proof.
  unfold distribute. intros Hrun.
  step Hrun as r1 HpassA. destruct r1 as [l1 p1].
  step Hrun as T HT.
  apply passA_no_token in HpassA as (Hz & Hp & Hl); [|done]. simpl in Hp.
  destruct (0 <? T).
  - apply passB_no_token in Hrun as (Hp' & Hl'); [|done].
    split; congruence.
  - by injection Hrun as <- <-.
Qed.

(** C10.  For a validator with a reward token, a successful
    [epochBalanceUpdate] found pool 1's holding of the token to cover the
    registry's [rewardTokenHeldBack], and ran its distribution on a token
    budget that is zero when the holding less the held-back amount is below
    [rewardPerPayout] -- no token is then credited or reported -- and
    otherwise is [floor(rewardPerPayout * pct / 1,000,000)], where [pct] is
    this pool's entry in the snapshot of per-pool percentages.  When the
    held-back amount exceeds the holding the subtraction panics and
    [epochBalanceUpdate] fails. *)
Theorem token_reward_budget ch tx s :
  let validatorConfig := getValidatorConfig (registryOf ch s) (validatorId s) in
  let heldBack :=
    ValidatorState.rewardTokenHeldBack
      (getValidatorState (registryOf ch s) (validatorId s)) in
  let holding :=
    assetBalance ch (appAddress ch (poolOneAppIDOf ch tx s))
      (ValidatorConfig.rewardTokenId validatorConfig) in
  let rewardPerPayout := ValidatorConfig.rewardPerPayout validatorConfig in
  ValidatorConfig.rewardTokenId validatorConfig <> 0 ->
  (holding < heldBack -> epochBalanceUpdate ch tx s = None) /\
  (forall s' txns r,
     epochBalanceUpdate ch tx s = Some (s', txns, r) ->
     exists budget epochInSecs algoReward commission excess p,
       heldBack <= holding /\
       distribute (latestTimestamp ch) epochInSecs (totalAlgoStaked s)
         (ledgerOf s) budget algoReward = Some (ledgerOf s', p) /\
       last txns
         = Some (StakeUpdatedViaRewards (poolKeyOf tx s) (increasedStake p)
                   (tokenRewardPaidOut p) commission excess) /\
       (holding - heldBack < rewardPerPayout ->
        budget = 0 /\ tokenRewardPaidOut p = 0 /\
        rewardTokenBalance <$> ledgerOf s' = rewardTokenBalance <$> ledgerOf s) /\
       (rewardPerPayout <= holding - heldBack ->
        exists pct,
          1 <= poolId s /\
          PoolTokenPayoutRatio.poolPctOfWhole (tokenPayoutRatioOf ch tx s)
            !! N.to_nat (poolId s - 1) = Some pct /\
          budget = rewardPerPayout * pct / 1000000)).
Proof.
  intros validatorConfig heldBack holding rewardPerPayout Heligible.
  assert (forall s' txns r,
            epochBalanceUpdate ch tx s = Some (s', txns, r) ->
            exists budget epochInSecs cut p,
              tokenRewardAvailOf ch tx s = Some budget /\
              distribute (latestTimestamp ch) epochInSecs (totalAlgoStaked s)
                (ledgerOf s) budget (cut_algoRewardAvail cut)
                = Some (ledgerOf s', p) /\
              txns = cut_payments cut ++
                     [StakeUpdatedViaRewards (poolKeyOf tx s) (increasedStake p)
                        (tokenRewardPaidOut p)
                        (cut_validatorCommissionPaidOut cut)
                        (cut_excessToFeeSink cut)]) as Hsuccess.
  { intros s' txns r Hrun.
    apply epochBalanceUpdate_inv in Hrun as (cut & p & Hrun & ->).
    apply epochPayout_inv in Hrun
      as (ep & s1 & S & tok & l & l' & _ & _ & _ & Htok & _ & _ & Hl & Hdist & ->).
    exists tok, ep, cut, p. split; [done|]. split; [|done].
    unfold ledgerOf. rewrite Hl. done. }
  assert (forall budget,
            tokenRewardAvailOf ch tx s = Some budget ->
            heldBack <= holding /\
            (holding - heldBack < rewardPerPayout -> budget = 0) /\
            (rewardPerPayout <= holding - heldBack ->
             exists pct,
               1 <= poolId s /\
               PoolTokenPayoutRatio.poolPctOfWhole (tokenPayoutRatioOf ch tx s)
                 !! N.to_nat (poolId s - 1) = Some pct /\
               budget = rewardPerPayout * pct / 1000000)) as Hbudget.
  { intros budget Htok. unfold tokenRewardAvailOf in Htok.
    fold validatorConfig heldBack holding rewardPerPayout in Htok.
    destruct (N.eqb_spec (ValidatorConfig.rewardTokenId validatorConfig) 0);
      [done|]. simpl in Htok.
    step Htok as tokenRewardBal Hbal. apply sub64_Some in Hbal as [Hheld ->].
    split; [done|].
    destruct (N.leb_spec rewardPerPayout (holding - heldBack)) as [Hmet|Hshort].
    - split; [lia|]. intros _.
      step Htok as index Hindex. apply sub64_Some in Hindex as [Hpool ->].
      step Htok as pct Hpct. exists pct. split; [done|]. split; [done|].
      apply wideRatio_Some in Htok as [_ ->].
      rewrite product2, product1. done.
    - injection Htok as <-. split; [done|]. lia. }
  split.
  - intros Hover.
    destruct (epochBalanceUpdate ch tx s) as [[[s' txns] r]|] eqn:Hrun; [|done].
    destruct (Hsuccess s' txns r eq_refl) as (budget & _ & _ & _ & Htok & _).
    destruct (Hbudget _ Htok) as [Hheld _]. lia.
  - intros s' txns r Hrun.
    destruct (Hsuccess _ _ _ Hrun) as (budget & ep & cut & p & Htok & Hdist & ->).
    destruct (Hbudget _ Htok) as (Hheld & Hshort & Hmet).
    exists budget, ep, (cut_algoRewardAvail cut),
      (cut_validatorCommissionPaidOut cut), (cut_excessToFeeSink cut), p.
    split; [done|]. split; [done|]. split; [apply last_snoc|].
    split; [|done].
    intros Hbelow. specialize (Hshort Hbelow). subst budget.
    split; [done|]. by apply distribute_no_token in Hdist.
Qed.


(** ** Further properties of the contract *)

(** ** More on the scans *)

(** Nothing in front of the slot the scan of [addStake] settles on is the
    staker or empty. *)
Lemma addStake_scan_front (staker : Address) (l : list StakedInfo) (k : nat)
    (result : (nat * StakedInfo) + nat) :
  addStake_scan staker l k = result ->
  let stop :=
    match result with
    | inl (i, _) => (i - k)%nat
    | inr 0%nat => length l
    | inr firstEmpty => (firstEmpty - 1 - k)%nat
    end in
  forall j y, (j < stop)%nat -> l !! j = Some y ->
    account y <> staker /\ account y <> zeroAddress.
Proof.
  revert k result. induction l as [|x l IH]; intros k result Hscan; simpl in Hscan.
  - subst result. simpl. intros j y Hj. lia.
  - destruct (N.eqb_spec (account x) staker) as [Heq|Hne].
    { subst result. simpl. rewrite Nat.sub_diag. intros j y Hj. lia. }
    destruct (N.eqb_spec (account x) zeroAddress) as [Hz|Hnz].
    { subst result. simpl.
      replace (k + 1)%nat with (S k) by lia. simpl.
      replace (k - 0 - k)%nat with 0%nat by lia. intros j y Hj. lia. }
    specialize (IH (S k) result Hscan). simpl in IH.
    assert (forall stop', (forall j y, (j < stop')%nat -> l !! j = Some y ->
              account y <> staker /\ account y <> zeroAddress) ->
            forall j y, (j < S stop')%nat -> (x :: l) !! j = Some y ->
              account y <> staker /\ account y <> zeroAddress) as Hcons.
    { intros stop' Hrest [|j] y Hj Hy; simpl in Hy.
      - by injection Hy as <-.
      - apply (Hrest j); [lia|done]. }
    destruct result as [[i cmp]|[|firstEmpty]]; simpl in *.
    + pose proof (addStake_scan_found _ _ _ _ _ Hscan) as (Hle & _).
      replace (i - k)%nat with (S (i - S k)) by lia. by apply Hcons.
    + by apply Hcons.
    + pose proof (addStake_scan_empty _ _ _ _ Hscan ltac:(done)) as (Hlt & _).
      replace (firstEmpty - 0 - k)%nat with (S (firstEmpty - 0 - S k)) by lia.
      by apply Hcons.
Qed.

Lemma findStaker_front (staker : Address) (l : list StakedInfo) (k i : nat)
    (cmp : StakedInfo) :
  findStaker staker l k = Some (i, cmp) ->
  forall j y, (j < i - k)%nat -> l !! j = Some y -> account y <> staker.
Proof.
  revert k. induction l as [|x l IH]; intros k Hscan; simpl in Hscan; [done|].
  destruct (N.eqb_spec (account x) staker) as [Heq|Hne].
  - injection Hscan as <- <-. rewrite Nat.sub_diag. intros j y Hj. lia.
  - pose proof (findStaker_found _ _ _ _ _ Hscan) as (Hle & _).
    intros [|j] y Hj Hy; simpl in Hy.
    + by injection Hy as <-.
    + apply (IH _ Hscan j); [lia|done].
Qed.

Lemma findStaker_None (staker : Address) (l : list StakedInfo) (k : nat) :
  findStaker staker l k = None <-> Forall (fun x => account x <> staker) l.
Proof.
  revert k. induction l as [|x l IH]; intros k; simpl.
  - split; [constructor|done].
  - destruct (N.eqb_spec (account x) staker) as [Heq|Hne].
    + split; [done|]. by intros [Hx _]%Forall_cons.
    + rewrite IH. split; [by constructor|]. by intros [_ Hl]%Forall_cons.
Qed.

(** The first slot holding the staker is the one the scan returns. *)
Lemma findStaker_first (staker : Address) (l : list StakedInfo) (k i : nat)
    (cmp : StakedInfo) :
  l !! i = Some cmp -> account cmp = staker ->
  (forall j y, (j < i)%nat -> l !! j = Some y -> account y <> staker) ->
  findStaker staker l k = Some ((k + i)%nat, cmp).
Proof.
  revert k i. induction l as [|x l IH]; intros k [|i] Hlook Hacc Hfront;
    simpl in *; try done.
  - injection Hlook as ->. apply N.eqb_eq in Hacc. rewrite Hacc.
    do 2 f_equal. lia.
  - destruct (N.eqb_spec (account x) staker) as [Heq|Hne].
    + by destruct (Hfront 0%nat x ltac:(lia) eq_refl).
    + assert (findStaker staker l (S k) = Some ((S k + i)%nat, cmp)) as ->.
      { apply IH; [done..|]. intros j y Hj Hy.
        apply (Hfront (S j) y); [lia|done]. }
      do 2 f_equal. lia.
Qed.

(** ** [addStake], taken apart *)

Lemma getEntryTime_Some ch entry :
  getEntryTime ch = Some entry -> entry = latestTimestamp ch + 896.
Proof. unfold getEntryTime. by intros ->%add64_Some. Qed.

Lemma addStake_inv ch tx payment staker s s' txns entry :
  addStake ch tx payment staker s = Some (s', txns, entry) ->
  exists ledger i old,
    stakers s = Some ledger /\
    sender tx = appAddress ch (creatingValidatorContractAppId s) /\
    staker <> zeroAddress /\
    pay_sender payment = appAddress ch (creatingValidatorContractAppId s) /\
    pay_receiver payment = appAddress ch (appId tx) /\
    entry = latestTimestamp ch + 896 /\
    txns = [] /\
    ledger !! i = Some old /\
    (forall j y, (j < i)%nat -> ledger !! j = Some y ->
       account y <> staker /\ account y <> zeroAddress) /\
    ((account old = staker /\
      s' = set_totalAlgoStaked (totalAlgoStaked s + pay_amount payment)
             (set_stakers
                (<[i := mkStakedInfo staker (balance old + pay_amount payment)
                          (totalRewarded old) (rewardTokenBalance old) entry]>
                   ledger) s)) \/
     (account old = zeroAddress /\
      minEntryStake s <= pay_amount payment /\
      s' = set_totalAlgoStaked (totalAlgoStaked s + pay_amount payment)
             (set_numStakers (numStakers s + 1)
                (set_stakers
                   (<[i := mkStakedInfo staker (pay_amount payment) 0 0 entry]>
                      ledger) s)))).
Proof.
  unfold addStake. intros Hrun.
  step Hrun as ledger Hledger.
  step Hrun as u1 Hsender. apply assert_Some, N.eqb_eq in Hsender.
  step Hrun as u2 Hstaker. apply assert_Some, negb_true_iff, N.eqb_neq in Hstaker.
  step Hrun as u3 Hfrom. apply assert_Some, N.eqb_eq in Hfrom.
  step Hrun as u4 Hto. apply assert_Some, N.eqb_eq in Hto.
  step Hrun as entry' Hentry. apply getEntryTime_Some in Hentry.
  destruct (addStake_scan staker ledger 0) as [[i cmp]|firstEmpty] eqn:Hscan.
  - pose proof (addStake_scan_front _ _ _ _ Hscan) as Hfront. simpl in Hfront.
    apply addStake_scan_found in Hscan as (_ & Hlook & Hacc).
    rewrite Nat.sub_0_r in Hlook, Hfront.
    step Hrun as newBalance Hbal. step Hrun as total Htotal.
    injection Hrun as <- <- <-.
    apply add64_Some in Hbal, Htotal. subst newBalance total.
    exists ledger, i, cmp. rewrite Hacc. repeat split; try done.
    + by apply (Hfront j y).
    + by apply (Hfront j y).
    + left. done.
  - step Hrun as u5 Hfound.
    apply assert_Some, negb_true_iff, Nat.eqb_neq in Hfound.
    pose proof (addStake_scan_front _ _ _ _ Hscan) as Hfront.
    apply addStake_scan_empty in Hscan as (_ & slot & Hlook & Hacc); [|done].
    destruct firstEmpty as [|n]; [done|]. simpl in Hfront.
    rewrite !Nat.sub_0_r in *.
    step Hrun as u6 Hmin. apply assert_Some, N.leb_le in Hmin.
    step Hrun as slot' Hslot. step Hrun as u7 Hzero.
    step Hrun as n' Hn. step Hrun as total Htotal.
    injection Hrun as <- <- <-.
    apply add64_Some in Hn, Htotal. subst n' total.
    simpl in *. rewrite !Nat.sub_0_r in *.
    exists ledger, n, slot. repeat split; try done.
    + by apply (Hfront j y).
    + by apply (Hfront j y).
    + right. done.
Qed.

Lemma addStake_scan_full (staker : Address) (l : list StakedInfo) (k : nat) :
  Forall (fun x => account x <> zeroAddress /\ account x <> staker) l ->
  addStake_scan staker l k = inr 0%nat.
Proof.
  intros Hfull. revert k.
  induction Hfull as [|x l [Hx Hx'] _ IH]; intros k; simpl; [done|].
  destruct (N.eqb_spec (account x) staker); [done|].
  by destruct (N.eqb_spec (account x) zeroAddress).
Qed.

(** X1.  Capacity.  With every slot taken by someone else, [addStake] fails
    with the ledger unchanged. *)
Theorem addStake_pool_full ch tx payment staker s ledger :
  stakers s = Some ledger ->
  Forall (fun x => account x <> zeroAddress /\ account x <> staker) ledger ->
  addStake ch tx payment staker s = None /\
  next ch tx (CallAddStake payment staker) s = s.
Proof.
  intros Hledger Hfull.
  assert (addStake ch tx payment staker s = None) as Hfail.
  { destruct (addStake ch tx payment staker s) as [[[s' txns] entry]|] eqn:Hrun;
      [|done].
    apply addStake_inv in Hrun
      as (l & i & old & Hl & _ & _ & _ & _ & _ & _ & Hlook & _ & Hcase).
    rewrite Hledger in Hl. injection Hl as <-.
    pose proof (proj1 (Forall_lookup _ _) Hfull i old Hlook) as [Hnz Hne].
    by destruct Hcase as [[Hacc _]|[Hacc _]]. }
  split; [done|]. unfold next, exec, dropResult. by rewrite Hfail.
Qed.

(** X2.  A staker who holds no slot yet must bring at least [minEntryStake]. *)
Theorem addStake_below_minimum ch tx payment staker s ledger :
  stakers s = Some ledger ->
  Forall (fun x => account x <> staker) ledger ->
  pay_amount payment < minEntryStake s ->
  addStake ch tx payment staker s = None.
Proof.
  intros Hledger Hnew Hlow.
  destruct (addStake ch tx payment staker s) as [[[s' txns] entry]|] eqn:Hrun;
    [|done].
  apply addStake_inv in Hrun
    as (l & i & old & Hl & _ & _ & _ & _ & _ & _ & Hlook & _ & Hcase).
  rewrite Hledger in Hl. injection Hl as <-.
  pose proof (proj1 (Forall_lookup _ _) Hnew i old Hlook) as Hne.
  destruct Hcase as [[Hacc _]|(_ & Hmin & _)]; [done|lia].
Qed.

(** X3.  Only the registry that created the pool can add stake, with a
    payment from the registry to the pool, for a staker that is not the zero
    address. *)
Theorem addStake_only_from_registry ch tx payment staker s :
  sender tx <> appAddress ch (creatingValidatorContractAppId s) \/
  staker = zeroAddress \/
  pay_sender payment <> appAddress ch (creatingValidatorContractAppId s) \/
  pay_receiver payment <> appAddress ch (appId tx) \/
  stakers s = None ->
  addStake ch tx payment staker s = None.
Proof.
  intros Hbad.
  destruct (addStake ch tx payment staker s) as [[[s' txns] entry]|] eqn:Hrun;
    [|done].
  apply addStake_inv in Hrun
    as (l & i & old & Hl & Hsender & Hstaker & Hfrom & Hto & _).
  destruct Hbad as [?|[?|[?|[?|?]]]]; congruence.
Qed.

(** X4.  What a successful [addStake] does.  It returns the current time plus
    896 seconds, submits no inner transaction, adds the amount to
    [totalAlgoStaked] and changes exactly one slot: either a slot already
    held by the staker, whose balance grows by the amount, or an empty slot,
    which becomes a fresh record holding the amount, with [numStakers] one
    higher.  Either way the slot's entry time is the returned time. *)
Theorem addStake_effect ch tx payment staker s s' txns entry :
  addStake ch tx payment staker s = Some (s', txns, entry) ->
  entry = latestTimestamp ch + 896 /\
  txns = [] /\
  totalAlgoStaked s' = totalAlgoStaked s + pay_amount payment /\
  length (ledgerOf s') = length (ledgerOf s) /\
  exists i old new,
    ledgerOf s !! i = Some old /\
    ledgerOf s' !! i = Some new /\
    (forall j, j <> i -> ledgerOf s' !! j = ledgerOf s !! j) /\
    account new = staker /\ entryTime new = entry /\
    ((account old = staker /\
      balance new = balance old + pay_amount payment /\
      totalRewarded new = totalRewarded old /\
      rewardTokenBalance new = rewardTokenBalance old /\
      numStakers s' = numStakers s) \/
     (account old = zeroAddress /\
      minEntryStake s <= pay_amount payment /\
      balance new = pay_amount payment /\
      totalRewarded new = 0 /\ rewardTokenBalance new = 0 /\
      numStakers s' = numStakers s + 1)).
Proof.
  intros Hrun.
  apply addStake_inv in Hrun
    as (l & i & old & Hl & _ & _ & _ & _ & Hentry & Htxns & Hlook & _ & Hcase).
  unfold ledgerOf. rewrite Hl. simpl.
  pose proof (lookup_lt_Some _ _ _ Hlook) as Hi.
  destruct Hcase as [[Hacc ->]|(Hacc & Hmin & ->)]; simpl;
    rewrite length_insert;
    (repeat split; try done);
    eexists i, old, _;
    (split; [done|]);
    (split; [by apply list_lookup_insert_eq|]);
    (split; [by intros j Hj; apply list_lookup_insert_ne|]); simpl.
  - split; [done|]. split; [done|]. left. done.
  - split; [done|]. split; [done|]. right. done.
Qed.

(** X5.  Insert then look up.  After a successful [addStake], [getStakerInfo]
    finds the staker, in the slot just written: its entry time is the one
    [addStake] returned and its balance covers the amount added. *)
Theorem addStake_then_getStakerInfo ch tx payment staker s s' txns entry :
  addStake ch tx payment staker s = Some (s', txns, entry) ->
  exists info,
    getStakerInfo staker s' = Some info /\
    account info = staker /\
    entryTime info = entry /\
    pay_amount payment <= balance info.
Proof.
  intros Hrun.
  apply addStake_inv in Hrun
    as (l & i & old & Hl & _ & _ & _ & _ & Hentry & _ & Hlook & Hfront & Hcase).
  pose proof (lookup_lt_Some _ _ _ Hlook) as Hi.
  assert (forall new,
    account new = staker ->
    findStaker staker (<[i := new]> l) 0 = Some (i, new)) as Hfind.
  { intros new Hnew.
    rewrite (findStaker_first staker _ 0 i new); [done| |done|].
    - by apply list_lookup_insert_eq.
    - intros j y Hj Hy. rewrite list_lookup_insert_ne in Hy by lia.
      by apply (Hfront j y). }
  unfold getStakerInfo.
  destruct Hcase as [[Hacc ->]|(Hacc & Hmin & ->)]; simpl;
    rewrite Hfind by done; simpl; eexists; (split; [done|]); simpl;
    repeat split; lia.
Qed.

(** ** [removeStake] and [claimTokens], taken apart *)

Lemma removeStake_inv ch tx amountToUnstake s s' txns r :
  removeStake ch tx amountToUnstake s = Some (s', txns, r) ->
  exists ledger i cmp,
    stakers s = Some ledger /\
    findStaker (sender tx) ledger 0 = Some (i, cmp) /\
    let amount :=
      if amountToUnstake =? 0 then balance cmp else amountToUnstake in
    let left := balance cmp - amount in
    let removed := left =? 0 in
    amount <= balance cmp /\
    amount <= totalAlgoStaked s /\
    (left = 0 \/ minEntryStake s <= left) /\
    (left = 0 -> 1 <= numStakers s) /\
    s' = set_numStakers (if removed then numStakers s - 1 else numStakers s)
           (set_totalAlgoStaked (totalAlgoStaked s - amount)
              (set_stakers
                 (<[i := if removed
                         then mkStakedInfo zeroAddress left 0 0 (entryTime cmp)
                         else mkStakedInfo (account cmp) left (totalRewarded cmp)
                                0 (entryTime cmp)]> ledger) s)) /\
    txns =
      (if (0 <? rewardTokenBalance cmp) && (poolId s =? 1)
       then [AssetTransfer
               (ValidatorConfig.rewardTokenId
                  (getValidatorConfig (registryOf ch s) (validatorId s)))
               (sender tx) (rewardTokenBalance cmp)]
       else []) ++
      [Payment (sender tx) amount "unstaked";
       StakeRemoved (poolKeyOf tx s) (sender tx) amount
         (rewardTokenBalance cmp) removed].
Proof.
  unfold removeStake. intros Hrun.
  step Hrun as ledger Hledger.
  step Hrun as found Hfind. destruct found as [i cmp].
  set (amount := if amountToUnstake =? 0 then balance cmp else amountToUnstake)
    in *.
  step Hrun as u1 H1. step Hrun as newBalance Hbal. step Hrun as total Htotal.
  step Hrun as u2 Hmin. step Hrun as n Hn.
  steps Hrun; injection Hrun as <- <- _.
  apply sub64_Some in Hbal as [Hle ->], Htotal as [Hle' ->].
  apply assert_Some, orb_true_iff in Hmin.
  exists ledger, i, cmp. split; [done|]. split; [done|]. simpl.
  fold amount.
  assert ((if 0 <? rewardTokenBalance cmp then 0 else rewardTokenBalance cmp) = 0)
    as Hleft.
  { destruct (N.ltb_spec 0 (rewardTokenBalance cmp)); lia. }
  assert ((if 0 <? rewardTokenBalance cmp then rewardTokenBalance cmp else 0)
          = rewardTokenBalance cmp) as Hreported.
  { destruct (N.ltb_spec 0 (rewardTokenBalance cmp)); lia. }
  rewrite Hleft, Hreported.
  destruct (N.eqb_spec (balance cmp - amount) 0) as [Hzero|Hsome].
  - apply sub64_Some in Hn as [Hone ->]. repeat split; try done. by left.
  - injection Hn as <-. repeat split; try done.
    destruct Hmin as [Hmin|Hmin]; [done|].
    right. by apply N.leb_le.
Qed.

(** X6.  What a successful [removeStake] does.  It acts on the first slot held
    by the caller and on no other: the slot's balance and [totalAlgoStaked]
    drop by the amount (the whole balance when 0 is asked for), and the one
    payment of the call pays the caller exactly that.  A slot left with
    nothing is cleared and [numStakers] falls by 1; otherwise it keeps its
    account, entry time and lifetime reward, with at least [minEntryStake]
    left. *)
Theorem removeStake_effect ch tx amountToUnstake s s' txns r :
  removeStake ch tx amountToUnstake s = Some (s', txns, r) ->
  exists i cmp new amount,
    ledgerOf s !! i = Some cmp /\ account cmp = sender tx /\
    (forall j y, (j < i)%nat -> ledgerOf s !! j = Some y ->
       account y <> sender tx) /\
    amount = (if amountToUnstake =? 0 then balance cmp else amountToUnstake) /\
    amount <= balance cmp /\
    ledgerOf s' !! i = Some new /\
    (forall j, j <> i -> ledgerOf s' !! j = ledgerOf s !! j) /\
    balance new = balance cmp - amount /\
    entryTime new = entryTime cmp /\
    rewardTokenBalance new = 0 /\
    totalAlgoStaked s' + amount = totalAlgoStaked s /\
    paymentsTotal txns = amount /\
    Payment (sender tx) amount "unstaked" ∈ txns /\
    ((balance new = 0 /\ account new = zeroAddress /\ totalRewarded new = 0 /\
      numStakers s' + 1 = numStakers s) \/
     (minEntryStake s <= balance new /\ balance new <> 0 /\
      account new = account cmp /\ totalRewarded new = totalRewarded cmp /\
      numStakers s' = numStakers s)).
Proof.
  intros Hrun.
  apply removeStake_inv in Hrun
    as (ledger & i & cmp & Hl & Hfind & Hle & Hle' & Hmin & Hone & -> & ->).
  pose proof (findStaker_front _ _ _ _ _ Hfind) as Hfront.
  apply findStaker_found in Hfind as (_ & Hlook & Hacc).
  rewrite Nat.sub_0_r in Hlook, Hfront.
  pose proof (lookup_lt_Some _ _ _ Hlook) as Hi.
  unfold ledgerOf. rewrite Hl. simpl.
  set (amount := if amountToUnstake =? 0 then balance cmp else amountToUnstake)
    in *.
  eexists i, cmp, _, amount.
  split; [done|]. split; [done|]. split; [done|]. split; [done|].
  split; [done|]. split; [by apply list_lookup_insert_eq|].
  split; [by intros j Hj; apply list_lookup_insert_ne|].
  assert (paymentsTotal
            ((if (0 <? rewardTokenBalance cmp) && (poolId s =? 1)
              then [AssetTransfer
                      (ValidatorConfig.rewardTokenId
                         (getValidatorConfig (registryOf ch s) (validatorId s)))
                      (sender tx) (rewardTokenBalance cmp)]
              else []) ++
             [Payment (sender tx) amount "unstaked";
              StakeRemoved (poolKeyOf tx s) (sender tx) amount
                (rewardTokenBalance cmp) (balance cmp - amount =? 0)]) = amount)
    as Hpaid.
  { destruct (_ && _); simpl; lia. }
  assert (Payment (sender tx) amount "unstaked"
          ∈ (if (0 <? rewardTokenBalance cmp) && (poolId s =? 1)
             then [AssetTransfer
                     (ValidatorConfig.rewardTokenId
                        (getValidatorConfig (registryOf ch s) (validatorId s)))
                     (sender tx) (rewardTokenBalance cmp)]
             else []) ++
            [Payment (sender tx) amount "unstaked";
             StakeRemoved (poolKeyOf tx s) (sender tx) amount
               (rewardTokenBalance cmp) (balance cmp - amount =? 0)]) as Hin.
  { apply elem_of_app. right. apply elem_of_cons. by left. }
  destruct (N.eqb_spec (balance cmp - amount) 0) as [Hzero|Hsome]; simpl.
  - specialize (Hone Hzero). repeat split; try done; lia.
  - destruct Hmin as [Hmin|Hmin]; [done|]. repeat split; try done; lia.
Qed.

(** X7.  Outstanding reward tokens leave with any successful [removeStake].
    The report to the registry, the last inner transaction of the call,
    carries the staker's whole token balance.  The asset transfer itself is
    made only by pool 1 and only when there is something to send, and then
    it is the one asset transfer of the call and sends the caller that whole
    balance.  The call makes one payment, of the amount withdrawn, to the
    caller. *)
Theorem removeStake_token_settlement ch tx amountToUnstake s s' txns r
    ledger i cmp :
  stakers s = Some ledger ->
  findStaker (sender tx) ledger 0 = Some (i, cmp) ->
  removeStake ch tx amountToUnstake s = Some (s', txns, r) ->
  let amount := if amountToUnstake =? 0 then balance cmp else amountToUnstake in
  let report :=
    StakeRemoved (poolKeyOf tx s) (sender tx) amount (rewardTokenBalance cmp)
      (balance cmp - amount =? 0) in
  let transfer :=
    AssetTransfer
      (ValidatorConfig.rewardTokenId
         (getValidatorConfig (registryOf ch s) (validatorId s)))
      (sender tx) (rewardTokenBalance cmp) in
  last txns = Some report /\
  (0 < rewardTokenBalance cmp /\ poolId s = 1 ->
   List.filter isAssetTransfer txns = [transfer]) /\
  (rewardTokenBalance cmp = 0 \/ poolId s <> 1 ->
   List.filter isAssetTransfer txns = []) /\
  List.filter isPayment txns = [Payment (sender tx) amount "unstaked"].
Proof.
  intros Hledger Hfind Hrun.
  apply removeStake_inv in Hrun
    as (ledger' & i' & cmp' & Hl & Hfind' & _ & _ & _ & _ & _ & ->).
  rewrite Hledger in Hl. injection Hl as <-.
  rewrite Hfind in Hfind'. injection Hfind' as <- <-.
  simpl. split; [by destruct (_ && _)|]. split; [|split].
  - intros [Hpos ->]. apply N.ltb_lt in Hpos. by rewrite Hpos.
  - intros [Hzero|Hpool].
    + by rewrite Hzero.
    + apply N.eqb_neq in Hpool. by rewrite Hpool, andb_false_r.
  - by destruct (_ && _).
Qed.

(** X8.  Asking for more than the slot holds fails. *)
Theorem removeStake_insufficient_balance ch tx amountToUnstake s ledger i cmp :
  stakers s = Some ledger ->
  findStaker (sender tx) ledger 0 = Some (i, cmp) ->
  balance cmp < amountToUnstake ->
  removeStake ch tx amountToUnstake s = None.
Proof.
  intros Hledger Hfind Hmore.
  destruct (removeStake ch tx amountToUnstake s) as [[[s' txns] r]|] eqn:Hrun;
    [|done].
  apply removeStake_inv in Hrun
    as (ledger' & i' & cmp' & Hl & Hfind' & Hle & _).
  rewrite Hledger in Hl. injection Hl as <-.
  rewrite Hfind in Hfind'. injection Hfind' as <- <-.
  simpl in Hle. destruct (N.eqb_spec amountToUnstake 0); lia.
Qed.

(** X9.  A partial withdrawal that leaves at least [minEntryStake], on a
    ledger whose counters are right, succeeds exactly when the ledger accepts
    the inner transactions it submits: the transfer of the staker's reward
    tokens when this is pool 1 and there are any, the payment of the amount
    and the report to the registry.  It then keeps the staker's slot, with
    the balance reduced; when one of the three is refused the call fails. *)
Theorem removeStake_partial ch tx amountToUnstake s ledger i cmp :
  ledger_ok s ->
  sender tx <> zeroAddress ->
  stakers s = Some ledger ->
  findStaker (sender tx) ledger 0 = Some (i, cmp) ->
  amountToUnstake <> 0 ->
  amountToUnstake < balance cmp ->
  minEntryStake s <= balance cmp - amountToUnstake ->
  let transfer :=
    AssetTransfer
      (ValidatorConfig.rewardTokenId
         (getValidatorConfig (registryOf ch s) (validatorId s)))
      (sender tx) (rewardTokenBalance cmp) in
  let payment := Payment (sender tx) amountToUnstake "unstaked" in
  let report :=
    StakeRemoved (poolKeyOf tx s) (sender tx) amountToUnstake
      (rewardTokenBalance cmp) false in
  let sendsTokens := (0 <? rewardTokenBalance cmp) && (poolId s =? 1) in
  let accepted :=
    (if sendsTokens then innerTxnAccepted ch transfer else true)
    && innerTxnAccepted ch payment && innerTxnAccepted ch report in
  (accepted = true ->
   exists s' txns,
     removeStake ch tx amountToUnstake s = Some (s', txns, tt) /\
     payment ∈ txns /\
     ledgerOf s' !! i
       = Some (mkStakedInfo (sender tx) (balance cmp - amountToUnstake)
                 (totalRewarded cmp) 0 (entryTime cmp)) /\
     numStakers s' = numStakers s /\
     totalAlgoStaked s' + amountToUnstake = totalAlgoStaked s) /\
  (accepted = false -> removeStake ch tx amountToUnstake s = None).
Proof.
  intros [Htot Hnum] Hsender Hledger Hfind Hnz Hlt Hmin
    transfer payment report sendsTokens accepted.
  pose proof (findStaker_found _ _ _ _ _ Hfind) as (_ & Hlook & Hacc).
  rewrite Nat.sub_0_r in Hlook.
  unfold ledger_ok, ledgerOf in *. rewrite Hledger in *. simpl in *.
  pose proof (stakedSum_lookup ledger i cmp Hlook) as Hstake.
  unfold stake, occupied in Hstake. rewrite Hacc in Hstake.
  destruct (N.eqb_spec (sender tx) zeroAddress); [done|]. simpl in *.
  assert ((if 0 <? rewardTokenBalance cmp then rewardTokenBalance cmp else 0)
          = rewardTokenBalance cmp) as Hreport.
  { destruct (N.ltb_spec 0 (rewardTokenBalance cmp)); lia. }
  unfold removeStake. rewrite Hledger. simpl. rewrite Hfind. simpl.
  destruct (N.eqb_spec amountToUnstake 0); [done|].
  destruct (N.ltb_spec (balance cmp) amountToUnstake); [lia|]. simpl.
  rewrite (sub64_le (balance cmp) amountToUnstake) by lia. simpl.
  rewrite (sub64_le (totalAlgoStaked s) amountToUnstake) by lia. simpl.
  destruct (N.eqb_spec (balance cmp - amountToUnstake) 0); [lia|]. simpl.
  destruct (N.leb_spec (minEntryStake s) (balance cmp - amountToUnstake));
    [|lia]. simpl.
  rewrite Hreport. fold transfer payment report sendsTokens.
  assert (submit ch ((if sendsTokens then [transfer] else [])
                     ++ [payment; report])
          = if accepted then Some tt else None) as ->.
  { unfold submit, accepted. rewrite forallb_app.
    destruct sendsTokens; simpl; rewrite ?andb_true_r;
      by repeat (destruct (innerTxnAccepted ch _); simpl). }
  split; intros ->; [|done]. simpl.
  eexists _, _. split; [done|]. simpl.
  split; [apply elem_of_app; right; apply elem_of_cons; by left|].
  split; [|split; lia].
  rewrite list_lookup_insert_eq by (by eapply lookup_lt_Some).
  rewrite Hacc. do 2 f_equal.
  destruct (N.ltb_spec 0 (rewardTokenBalance cmp)); lia.
Qed.

(** X10.  An account that holds no slot can neither withdraw nor claim nor be
    looked up. *)
Theorem unknown_staker_rejected ch tx amountToUnstake s ledger :
  stakers s = Some ledger ->
  Forall (fun x => account x <> sender tx) ledger ->
  removeStake ch tx amountToUnstake s = None /\
  claimTokens ch tx s = None /\
  getStakerInfo (sender tx) s = None.
Proof.
  intros Hledger Hnone. apply findStaker_None with (k := 0%nat) in Hnone.
  unfold removeStake, claimTokens, getStakerInfo.
  rewrite Hledger. simpl. by rewrite Hnone.
Qed.

Lemma claimTokens_inv_ledger ch tx s s' txns r :
  claimTokens ch tx s = Some (s', txns, r) ->
  exists i cmp,
    ledgerOf s !! i = Some cmp /\
    ledgerOf s'
      = <[i := mkStakedInfo (account cmp) (balance cmp) (totalRewarded cmp) 0
                 (entryTime cmp)]> (ledgerOf s).
Proof.
  intros Hrun. unfold claimTokens in Hrun.
  step Hrun as ledger Hledger.
  step Hrun as found Hfind. destruct found as [i cmp].
  apply findStaker_found in Hfind as (_ & Hlook & _).
  rewrite Nat.sub_0_r in Hlook.
  exists i, cmp. unfold ledgerOf. rewrite Hledger. simpl. split; [done|].
  destruct (N.eqb_spec (rewardTokenBalance cmp) 0) as [Hzero|Hsome];
    steps Hrun; injection Hrun as <- _ _; [|done].
  rewrite Hledger. simpl. symmetry. apply list_insert_id. rewrite Hlook.
  f_equal. destruct cmp. simpl in *. by rewrite Hzero.
Qed.

(** X11.  Claiming tokens touches no stake.  A successful [claimTokens] leaves
    [totalAlgoStaked], [numStakers] and every slot as they were except that
    the caller's token balance becomes 0, makes no payment, and a second
    claim by the same caller changes nothing and submits nothing. *)
Theorem claimTokens_effect ch tx s s' txns r :
  claimTokens ch tx s = Some (s', txns, r) ->
  exists i cmp,
    findStaker (sender tx) (ledgerOf s) 0 = Some (i, cmp) /\
    ledgerOf s'
      = <[i := mkStakedInfo (account cmp) (balance cmp) (totalRewarded cmp) 0
                 (entryTime cmp)]> (ledgerOf s) /\
    totalAlgoStaked s' = totalAlgoStaked s /\
    numStakers s' = numStakers s /\
    paymentsTotal txns = 0 /\
    (rewardTokenBalance cmp = 0 -> s' = s /\ txns = []) /\
    forall ch2 tx2,
      sender tx2 = sender tx -> claimTokens ch2 tx2 s' = Some (s', [], tt).
Proof.
  intros Hrun. unfold claimTokens in Hrun.
  step Hrun as ledger Hledger.
  step Hrun as found Hfind. destruct found as [i cmp].
  pose proof (findStaker_front _ _ _ _ _ Hfind) as Hfront.
  pose proof (findStaker_found _ _ _ _ _ Hfind) as (_ & Hlook & Hacc).
  rewrite Nat.sub_0_r in Hlook, Hfront.
  pose proof (lookup_lt_Some _ _ _ Hlook) as Hi.
  exists i, cmp. unfold ledgerOf. rewrite Hledger. simpl.
  split; [done|].
  destruct (N.eqb_spec (rewardTokenBalance cmp) 0) as [Hzero|Hsome].
  - injection Hrun as <- <- _. rewrite Hledger. simpl.
    split.
    { symmetry. apply list_insert_id. rewrite Hlook. f_equal.
      destruct cmp. simpl in *. by rewrite Hzero. }
    repeat split; try done.
    intros ch2 tx2 Hsame. unfold claimTokens.
    rewrite Hsame, Hledger. simpl. rewrite Hfind. simpl.
    by rewrite Hzero.
  - steps Hrun; injection Hrun as <- <- _. simpl.
    split; [done|]. split; [done|]. split; [done|].
    split; [by destruct (poolId s =? 1)|]. split; [done|].
    intros ch2 tx2 Hsame. unfold claimTokens. rewrite Hsame. simpl.
    rewrite (findStaker_first (sender tx) _ 0 i
               (mkStakedInfo (account cmp) (balance cmp) (totalRewarded cmp) 0
                  (entryTime cmp))); simpl; try done.
    + by apply list_lookup_insert_eq.
    + intros j y Hj Hy. rewrite list_lookup_insert_ne in Hy by lia.
      by apply (Hfront j y).
Qed.

(** ** An epoch update only credits *)

Lemma grown_refl x : grown x x.
Proof. unfold grown. repeat split; try done; lia. Qed.

Lemma grown_trans x y z : grown x y -> grown y z -> grown x z.
Proof.
  unfold grown.
  intros (Ha & He & Hb & Hr & Ht & Hfree) (Ha' & He' & Hb' & Hr' & Ht' & Hfree').
  repeat split; try congruence; try lia.
  intros Hzero. rewrite Hfree' by congruence. by apply Hfree.
Qed.

Lemma credited_grown x x' algo token :
  credited x x' algo token ->
  (account x = zeroAddress -> algo = 0 /\ token = 0) ->
  grown x x'.
Proof.
  intros Hx Hfree. pose proof (credited_eq _ _ _ _ Hx) as Heq.
  destruct Hx as (Ha & He & Hb & Hr & Ht).
  unfold grown. repeat split; try done; try lia.
  intros Hzero. destruct (Hfree Hzero) as [-> ->].
  rewrite Heq. apply creditSlot_zero.
Qed.

Lemma passA_grown cur ep total l p l' p' :
  passA cur ep total l p = Some (l', p') -> Forall2 grown l l'.
Proof.
  revert p l' p'. induction l as [|x l IH]; intros p l' p' Hrun; simpl in Hrun.
  - injection Hrun as <- <-. constructor.
  - step Hrun as r1 Hslot. destruct r1 as [x1 p1].
    step Hrun as r2 Hrest. destruct r2 as [l2 p2].
    injection Hrun as <- <-.
    apply passA_slot_spec in Hslot as (Hx & _).
    constructor; [|by eapply IH].
    apply (credited_grown _ _ _ _ Hx). intros Hzero.
    by rewrite !spec_partialCredit_free
      by (unfold occupied; rewrite Hzero; done).
Qed.

Lemma passB_grown cur ep T l p l' p' :
  passB cur ep T l p = Some (l', p') -> Forall2 grown l l'.
Proof.
  revert p l' p'. induction l as [|x l IH]; intros p l' p' Hrun; simpl in Hrun.
  - injection Hrun as <- <-. constructor.
  - step Hrun as r1 Hslot. destruct r1 as [x1 p1].
    step Hrun as r2 Hrest. destruct r2 as [l2 p2].
    injection Hrun as <- <-.
    apply passB_slot_spec in Hslot as (Hx & _).
    constructor; [|by eapply IH].
    apply (credited_grown _ _ _ _ Hx). intros Hzero.
    unfold paidInFull. by rewrite Hzero.
Qed.

Lemma Forall2_grown_trans l1 l2 l3 :
  Forall2 grown l1 l2 -> Forall2 grown l2 l3 -> Forall2 grown l1 l3.
Proof.
  intros H12. revert l3. induction H12 as [|x y l1 l2 Hxy _ IH]; intros l3 H23.
  - by inversion H23.
  - inversion H23 as [|y' z l2' l3' Hyz Hrest]; subst.
    constructor; [by eapply grown_trans|by apply IH].
Qed.

Lemma distribute_grown cur ep total l tokenReward algoReward l' p :
  distribute cur ep total l tokenReward algoReward = Some (l', p) ->
  Forall2 grown l l'.
Proof.
  unfold distribute. intros Hrun.
  step Hrun as r1 HpassA. destruct r1 as [l1 p1].
  step Hrun as T HT.
  apply passA_grown in HpassA.
  destruct (0 <? T).
  - apply passB_grown in Hrun. by eapply Forall2_grown_trans.
  - by injection Hrun as <- <-.
Qed.

(** X12.  An epoch update only ever credits.  Slot by slot, a successful
    [epochBalanceUpdate] keeps the account and the entry time, never lowers
    the balance or the token balance, raises [totalRewarded] by exactly what
    the balance gained, and leaves empty slots as they were. *)
Theorem epochBalanceUpdate_only_credits ch tx s s' txns r :
  epochBalanceUpdate ch tx s = Some (s', txns, r) ->
  length (ledgerOf s') = length (ledgerOf s) /\
  forall i x,
    ledgerOf s !! i = Some x ->
    exists x',
      ledgerOf s' !! i = Some x' /\
      account x' = account x /\ entryTime x' = entryTime x /\
      balance x <= balance x' /\
      totalRewarded x' + balance x = totalRewarded x + balance x' /\
      rewardTokenBalance x <= rewardTokenBalance x' /\
      (account x = zeroAddress -> x' = x).
Proof.
  intros Hrun.
  apply epochBalanceUpdate_inv in Hrun as (cut & p & Hrun & _).
  apply epochPayout_inv in Hrun
    as (ep & s1 & S & tok & l & l' & _ & _ & _ & _ & _ & _ & Hl & Hdist & ->).
  apply distribute_grown in Hdist.
  unfold ledgerOf. rewrite Hl. simpl. split.
  - symmetry. by eapply Forall2_length.
  - intros i x Hx.
    destruct (Forall2_lookup_l _ _ _ _ _ Hdist Hx) as (x' & Hx' & Hgrown).
    by exists x'.
Qed.

(** ** What no call changes *)

Lemma exec_frame ch tx c s s' txns :
  exec ch tx c s = Some (s', txns) ->
  creatingValidatorContractAppId s' = creatingValidatorContractAppId s /\
  validatorId s' = validatorId s /\
  poolId s' = poolId s /\
  minEntryStake s' = minEntryStake s /\
  match c with
  | CallEpochBalanceUpdate => True
  | _ => lastPayout s' = lastPayout s /\ epochNumber s' = epochNumber s
  end /\
  match c with
  | CallUpdateAlgodVer _ => True
  | _ => algodVer s' = algodVer s
  end.
Proof.
  intros Hrun. unfold exec, dropResult in Hrun.
  destruct c;
    apply fmap_Some in Hrun as ([[s2 t2] r] & Hrun & [= <- <-]).
  - unfold initStorage in Hrun. steps Hrun. by injection Hrun as <- _ _.
  - apply addStake_inv in Hrun
      as (l & i & old & _ & _ & _ & _ & _ & _ & _ & _ & _ & Hcase).
    by destruct Hcase as [[_ ->]|(_ & _ & ->)].
  - apply removeStake_inv in Hrun
      as (l & i & cmp & _ & _ & _ & _ & _ & _ & -> & _). done.
  - unfold claimTokens in Hrun. step Hrun as l Hl. step Hrun as f Hf.
    destruct f as [i cmp]. destruct (_ =? 0); by steps Hrun; injection Hrun as <- _ _.
  - apply epochBalanceUpdate_inv in Hrun as (cut & p & Hrun & _).
    apply epochPayout_inv in Hrun
      as (ep & s1 & S & tok & l & l' & _ & Hgate & _ & _ & _ & _ & _ & _ & ->).
    apply epochGate_inv in Hgate as [-> _]. done.
  - unfold updateAlgodVer in Hrun. steps Hrun. by injection Hrun as <- _ _.
  - unfold goOnline in Hrun. steps Hrun. by injection Hrun as <- _ _.
  - unfold goOffline in Hrun. steps Hrun. by injection Hrun as <- _ _.
  - unfold linkToNFD in Hrun. steps Hrun. by injection Hrun as <- _ _.
  - unfold payTokenReward in Hrun. steps Hrun. by injection Hrun as <- _ _.
  - unfold proxiedSetTokenPayoutRatio in Hrun. steps Hrun.
    by injection Hrun as <- _ _.
  - by injection Hrun as <- _ _.
Qed.

Lemma next_frame ch tx c s :
  creatingValidatorContractAppId (next ch tx c s)
    = creatingValidatorContractAppId s /\
  validatorId (next ch tx c s) = validatorId s /\
  poolId (next ch tx c s) = poolId s /\
  minEntryStake (next ch tx c s) = minEntryStake s.
Proof.
  unfold next.
  destruct (exec ch tx c s) as [[s' txns]|] eqn:Hrun; [|done].
  by apply exec_frame in Hrun as (? & ? & ? & ? & _).
Qed.

(** X13.  A pool's identity is fixed.  No call, successful or not, changes the
    registry the pool belongs to, its validator id, its pool id or its
    minimum entry stake; only [epochBalanceUpdate] moves [lastPayout] and
    [epochNumber], and only [updateAlgodVer] the recorded node version. *)
Theorem identity_is_fixed ch tx c s :
  creatingValidatorContractAppId (next ch tx c s)
    = creatingValidatorContractAppId s /\
  validatorId (next ch tx c s) = validatorId s /\
  poolId (next ch tx c s) = poolId s /\
  minEntryStake (next ch tx c s) = minEntryStake s /\
  match c with
  | CallEpochBalanceUpdate => True
  | _ => lastPayout (next ch tx c s) = lastPayout s /\
         epochNumber (next ch tx c s) = epochNumber s
  end /\
  match c with
  | CallUpdateAlgodVer _ => True
  | _ => algodVer (next ch tx c s) = algodVer s
  end.
Proof.
  unfold next.
  destruct (exec ch tx c s) as [[s' txns]|] eqn:Hrun.
  - by eapply exec_frame.
  - by destruct c.
Qed.

(** X14.  Created well, kept well.  In every reachable state the minimum entry
    stake is at least the protocol minimum, and the pool is either the
    template (registry, validator and pool id all 0) or a real pool (none of
    them 0). *)
Theorem reachable_identity s :
  reachable s ->
  MIN_ALGO_STAKE_PER_POOL <= minEntryStake s /\
  (creatingValidatorContractAppId s = 0 ->
   validatorId s = 0 /\ poolId s = 0) /\
  (creatingValidatorContractAppId s <> 0 ->
   validatorId s <> 0 /\ poolId s <> 0).
Proof.
  induction 1 as [ch cid vid pid minStake s Hcreate|ch tx c s Hreach IH Hsender].
  - unfold createApplication in Hcreate.
    step Hcreate as u1 Hids. step Hcreate as u2 Hmin.
    injection Hcreate as <-. simpl.
    apply assert_Some, N.leb_le in Hmin. split; [done|].
    destruct (N.eqb_spec cid 0) as [->|Hcid].
    + step Hids as u3 Hvid. apply assert_Some, N.eqb_eq in Hvid, Hids.
      split; [done|]. done.
    + step Hids as u3 Hvid.
      apply assert_Some, negb_true_iff, N.eqb_neq in Hvid, Hids.
      split; [done|]. done.
  - destruct (next_frame ch tx c s) as (-> & -> & -> & ->). done.
Qed.

(** ** The shape of the ledger *)

Lemma slot_ok_empty m : slot_ok m emptySlot.
Proof. by unfold slot_ok. Qed.

Lemma grown_slot_ok m x x' : grown x x' -> slot_ok m x -> slot_ok m x'.
Proof.
  unfold grown, slot_ok. intros (Ha & _ & Hb & _ & _ & Hfree). rewrite Ha.
  destruct (N.eqb_spec (account x) zeroAddress) as [Hzero|Hocc].
  - by rewrite (Hfree Hzero).
  - lia.
Qed.

Lemma exec_shaped ch tx c s s' txns :
  sender tx <> zeroAddress ->
  ledger_shaped s ->
  exec ch tx c s = Some (s', txns) ->
  ledger_shaped s'.
Proof.
  intros Hsender Hshape Hrun.
  pose proof (exec_frame _ _ _ _ _ _ Hrun) as (_ & _ & _ & Hmin & _).
  unfold ledger_shaped in *. rewrite Hmin.
  unfold exec, dropResult in Hrun.
  destruct c;
    apply fmap_Some in Hrun as ([[s2 t2] r] & Hrun & [= <- <-]).
  - unfold initStorage in Hrun. steps Hrun. injection Hrun as <- _ _.
    intros l [= <-]. rewrite length_replicate. split; [done|].
    apply Forall_replicate, slot_ok_empty.
  - apply addStake_inv in Hrun
      as (l & i & old & Hl & _ & Hstaker & _ & _ & _ & _ & Hlook & _ & Hcase).
    destruct (Hshape l Hl) as [Hlen Hall].
    pose proof (proj1 (Forall_lookup _ _) Hall i old Hlook) as Hold.
    destruct Hcase as [[Hacc ->]|(Hacc & Hlow & ->)]; simpl;
      intros l' [= <-]; rewrite length_insert; (split; [done|]);
      apply Forall_insert; try done; unfold slot_ok in *; simpl.
    + rewrite Hacc in Hold.
      destruct (N.eqb_spec staker zeroAddress); [done|]. lia.
    + by destruct (N.eqb_spec staker zeroAddress).
  - apply removeStake_inv in Hrun
      as (l & i & cmp & Hl & Hfind & _ & _ & Hleft & _ & -> & _).
    apply findStaker_found in Hfind as (_ & Hlook & Hacc).
    destruct (Hshape l Hl) as [Hlen Hall]. simpl.
    intros l' [= <-]. rewrite length_insert. split; [done|].
    apply Forall_insert; [done|]. unfold slot_ok.
    destruct (N.eqb_spec (balance cmp
                - (if amountToUnstake =? 0 then balance cmp else amountToUnstake))
                0) as [Hzero|Hsome]; simpl.
    + done.
    + rewrite Hacc. destruct (N.eqb_spec (sender tx) zeroAddress); [done|].
      by destruct Hleft.
  - unfold claimTokens in Hrun. step Hrun as l Hl. step Hrun as f Hfind.
    destruct f as [i cmp].
    apply findStaker_found in Hfind as (_ & Hlook & Hacc).
    rewrite Nat.sub_0_r in Hlook.
    destruct (Hshape l Hl) as [Hlen Hall].
    pose proof (proj1 (Forall_lookup _ _) Hall i cmp Hlook) as Hold.
    destruct (_ =? 0); steps Hrun; injection Hrun as <- _ _; [done|]. simpl.
    intros l' [= <-]. rewrite length_insert. split; [done|].
    apply Forall_insert; [done|]. unfold slot_ok in *. simpl.
    rewrite Hacc in *. by destruct (N.eqb_spec (sender tx) zeroAddress).
  - apply epochBalanceUpdate_inv in Hrun as (cut & p & Hrun & _).
    apply epochPayout_inv in Hrun
      as (ep & s1 & S & tok & l & l' & _ & _ & _ & _ & _ & _ & Hl & Hdist & ->).
    apply distribute_grown in Hdist.
    destruct (Hshape l Hl) as [Hlen Hall]. simpl.
    intros l2 [= <-]. split.
    + by rewrite <- (Forall2_length _ _ _ Hdist).
    + eapply Forall2_Forall_r; [exact Hdist|].
      eapply Forall_impl; [exact Hall|].
      intros x Hx x' Hgrown. by eapply grown_slot_ok.
  - unfold updateAlgodVer in Hrun. steps Hrun. by injection Hrun as <- _ _.
  - unfold goOnline in Hrun. steps Hrun. by injection Hrun as <- _ _.
  - unfold goOffline in Hrun. steps Hrun. by injection Hrun as <- _ _.
  - unfold linkToNFD in Hrun. steps Hrun. by injection Hrun as <- _ _.
  - unfold payTokenReward in Hrun. steps Hrun. by injection Hrun as <- _ _.
  - unfold proxiedSetTokenPayoutRatio in Hrun. steps Hrun.
    by injection Hrun as <- _ _.
  - by injection Hrun as <- _ _.
Qed.

Lemma reachable_shaped s : reachable s -> ledger_shaped s.
Proof.
  induction 1 as [ch cid vid pid minStake s Hcreate|ch tx c s Hreach IH Hsender].
  - unfold createApplication in Hcreate. steps Hcreate.
    injection Hcreate as <-. by intros l.
  - unfold next. destruct (exec ch tx c s) as [[s' txns]|] eqn:Hrun; [|done].
    by eapply exec_shaped.
Qed.

(** X15.  The ledger never grows or shrinks.  Once its storage exists, in every
    reachable state the ledger has exactly [MAX_STAKERS_PER_POOL] slots. *)
Theorem ledger_length_fixed s l :
  reachable s ->
  stakers s = Some l ->
  length l = N.to_nat MAX_STAKERS_PER_POOL.
Proof. intros Hreach Hl. by apply (reachable_shaped s Hreach l). Qed.

(** X16.  In every reachable state each occupied slot holds at least the pool's
    [minEntryStake]. *)
Theorem occupied_slots_hold_minimum s i x :
  reachable s ->
  ledgerOf s !! i = Some x ->
  account x <> zeroAddress ->
  minEntryStake s <= balance x.
Proof.
  intros Hreach Hx Hocc. unfold ledgerOf in Hx.
  destruct (stakers s) as [l|] eqn:Hl; [|done]. simpl in Hx.
  destruct (reachable_shaped s Hreach l Hl) as [_ Hall].
  pose proof (proj1 (Forall_lookup _ _) Hall i x Hx) as Hok.
  unfold slot_ok in Hok. by destruct (N.eqb_spec (account x) zeroAddress).
Qed.

(** X17.  In every reachable state an empty slot carries nothing: its balance,
    lifetime reward and token balance are all 0. *)
Theorem empty_slots_are_blank s i x :
  reachable s ->
  ledgerOf s !! i = Some x ->
  account x = zeroAddress ->
  balance x = 0 /\ totalRewarded x = 0 /\ rewardTokenBalance x = 0.
Proof.
  intros Hreach Hx Hfree. unfold ledgerOf in Hx.
  destruct (stakers s) as [l|] eqn:Hl; [|done]. simpl in Hx.
  destruct (reachable_shaped s Hreach l Hl) as [_ Hall].
  pose proof (proj1 (Forall_lookup _ _) Hall i x Hx) as Hok.
  unfold slot_ok in Hok. by rewrite Hfree in Hok.
Qed.

(** ** Duplicates need a withdrawal first *)

Lemma same_accounts_unique (l l' : list StakedInfo) :
  account <$> l' = account <$> l ->
  gapFree l /\ no_duplicates l -> gapFree l' /\ no_duplicates l'.
Proof.
  intros Hsame [Hgap Hdup].
  assert (forall i x', l' !! i = Some x' ->
            exists x, l !! i = Some x /\ account x = account x') as Hback.
  { intros i x' Hx'.
    assert ((account <$> l) !! i = Some (account x')) as Hacc
      by (by rewrite <- Hsame, list_lookup_fmap, Hx').
    rewrite list_lookup_fmap in Hacc.
    destruct (l !! i) as [x|]; [|done]. injection Hacc as Hacc. by exists x. }
  split.
  - intros i j x' y' Hx' Hy' Hij Hzero.
    destruct (Hback i x' Hx') as (x & Hx & Hax).
    destruct (Hback j y' Hy') as (y & Hy & Hay).
    rewrite <- Hay. apply (Hgap i j x y); congruence.
  - intros i j x' y' Hx' Hy' Hocc Heq.
    destruct (Hback i x' Hx') as (x & Hx & Hax).
    destruct (Hback j y' Hy') as (y & Hy & Hay).
    apply (Hdup i j x y); congruence.
Qed.

Lemma insert_same_account (l : list StakedInfo) (i : nat) (old new : StakedInfo) :
  l !! i = Some old -> account new = account old ->
  account <$> <[i := new]> l = account <$> l.
Proof.
  intros Hold Hacc. rewrite list_fmap_insert, Hacc.
  apply list_insert_id. by rewrite list_lookup_fmap, Hold.
Qed.

Lemma grown_same_accounts (l l' : list StakedInfo) :
  Forall2 grown l l' -> account <$> l' = account <$> l.
Proof.
  induction 1 as [|x x' l l' (Ha & _) _ IH]; [done|].
  rewrite !fmap_cons. by rewrite Ha, IH.
Qed.

(** A fresh entry written into the first empty slot of a gap-free ledger
    that does not hold the staker yet. *)
Lemma fresh_entry_unique (l : list StakedInfo) (i : nat) (old new : StakedInfo) :
  l !! i = Some old -> account old = zeroAddress ->
  account new <> zeroAddress ->
  (forall j y, (j < i)%nat -> l !! j = Some y ->
     account y <> account new /\ account y <> zeroAddress) ->
  gapFree l /\ no_duplicates l ->
  gapFree (<[i := new]> l) /\ no_duplicates (<[i := new]> l).
Proof.
  intros Hold Hfree Hnew Hfront [Hgap Hdup].
  pose proof (lookup_lt_Some _ _ _ Hold) as Hi.
  assert (forall j y, (i < j)%nat -> l !! j = Some y -> account y = zeroAddress)
    as Hbehind.
  { intros j y Hj Hy. by apply (Hgap i j old y). }
  assert (forall j y, <[i := new]> l !! j = Some y ->
            (j = i /\ y = new) \/ (j <> i /\ l !! j = Some y)) as Hcases.
  { intros j y Hy. destruct (decide (j = i)) as [->|Hne].
    - rewrite list_lookup_insert_eq in Hy by done. left. by injection Hy as <-.
    - rewrite list_lookup_insert_ne in Hy by done. by right. }
  split.
  - intros a b x y Hx Hy Hab Hzero.
    destruct (Hcases a x Hx) as [[-> ->]|[Ha Hx']]; [done|].
    destruct (Hcases b y Hy) as [[-> ->]|[Hb Hy']].
    + destruct (Hfront a x Hab Hx') as [_ Hocc]. done.
    + by apply (Hgap a b x y).
  - intros a b x y Hx Hy Hocc Heq.
    destruct (Hcases a x Hx) as [[-> ->]|[Ha Hx']];
      destruct (Hcases b y Hy) as [[-> ->]|[Hb Hy']]; try done.
    + destruct (Nat.lt_total b i) as [Hlt|[->|Hgt]]; [|done|].
      * destruct (Hfront b y Hlt Hy') as [Hne _]. congruence.
      * rewrite (Hbehind b y Hgt Hy') in Heq. congruence.
    + destruct (Nat.lt_total a i) as [Hlt|[->|Hgt]]; [|done|].
      * destruct (Hfront a x Hlt Hx') as [Hne _]. congruence.
      * rewrite (Hbehind a x Hgt Hx') in Hocc. done.
    + by apply (Hdup a b x y).
Qed.

Lemma replicate_empty_unique (n : nat) :
  gapFree (replicate n emptySlot) /\ no_duplicates (replicate n emptySlot).
Proof.
  split.
  - intros i j x y _ [-> _]%lookup_replicate _ _. done.
  - intros i j x y [-> _]%lookup_replicate _ Hocc _. done.
Qed.

(** X18.  Duplicates need a withdrawal first.  On a ledger with no gap in front
    of an occupied slot and no account in two slots, every call other than
    [removeStake] keeps both properties; so a pool from which nobody has
    withdrawn never holds a staker twice. *)
Theorem no_duplicates_without_withdrawal ch tx c s :
  (forall amountToUnstake, c <> CallRemoveStake amountToUnstake) ->
  gapFree (ledgerOf s) -> no_duplicates (ledgerOf s) ->
  gapFree (ledgerOf (next ch tx c s)) /\
  no_duplicates (ledgerOf (next ch tx c s)).
Proof.
  intros Hcall Hgap Hdup. unfold next.
  destruct (exec ch tx c s) as [[s' txns]|] eqn:Hrun; [|done].
  unfold exec, dropResult in Hrun.
  destruct c;
    apply fmap_Some in Hrun as ([[s2 t2] r] & Hrun & [= <- <-]).
  - unfold initStorage in Hrun. steps Hrun. injection Hrun as <- _ _.
    apply replicate_empty_unique.
  - apply addStake_inv in Hrun
      as (l & i & old & Hl & _ & Hstaker & _ & _ & _ & _ & Hlook & Hfront
          & Hcase).
    unfold ledgerOf in *. rewrite Hl in *. simpl in *.
    destruct Hcase as [[Hacc ->]|(Hacc & _ & ->)]; simpl.
    + apply (same_accounts_unique l); [|done].
      by apply (insert_same_account l i old).
    + by apply (fresh_entry_unique l i old).
  - by destruct (Hcall amountToUnstake).
  - apply claimTokens_inv_ledger in Hrun as (i & cmp & Hlook & ->).
    apply (same_accounts_unique (ledgerOf s)); [|done].
    by apply (insert_same_account _ i cmp).
  - apply epochBalanceUpdate_inv in Hrun as (cut & p & Hrun & _).
    apply epochPayout_inv in Hrun
      as (ep & s1 & S & tok & l & l' & _ & _ & _ & _ & _ & _ & Hl & Hdist & ->).
    apply distribute_grown, grown_same_accounts in Hdist.
    unfold ledgerOf in *. rewrite Hl in *. simpl in *.
    by apply (same_accounts_unique l).
  - unfold updateAlgodVer in Hrun. steps Hrun. by injection Hrun as <- _ _.
  - unfold goOnline in Hrun. steps Hrun. by injection Hrun as <- _ _.
  - unfold goOffline in Hrun. steps Hrun. by injection Hrun as <- _ _.
  - unfold linkToNFD in Hrun. steps Hrun. by injection Hrun as <- _ _.
  - unfold payTokenReward in Hrun. steps Hrun. by injection Hrun as <- _ _.
  - unfold proxiedSetTokenPayoutRatio in Hrun. steps Hrun.
    by injection Hrun as <- _ _.
  - by injection Hrun as <- _ _.
Qed.

(** ** Where the money goes *)

Lemma paymentsTotal_app (a b : list InnerTxn) :
  paymentsTotal (a ++ b) = paymentsTotal a + paymentsTotal b.
Proof.
  induction a as [|t a IH]; [done|]. destruct t; simpl; rewrite IH; lia.
Qed.

(** [in_list H] goes through the members of an explicit list [H : x ∈ l]. *)
Ltac in_list H :=
  repeat match type of H with
  | _ ∈ [] => by apply elem_of_nil in H
  | _ ∈ _ :: _ => apply elem_of_cons in H as [H|H]
  | _ ∈ _ ++ _ => apply elem_of_app in H as [H|H]
  end.

Lemma rewardCut_payments ch s surplus cut :
  rewardCut ch s surplus = Some cut ->
  let validatorConfig := getValidatorConfig (registryOf ch s) (validatorId s) in
  let manager := ValidatorConfig.manager validatorConfig in
  let commissionAddress :=
    ValidatorConfig.validatorCommissionAddress validatorConfig in
  paymentsTotal (cut_payments cut)
    = cut_validatorCommissionPaidOut cut + cut_excessToFeeSink cut /\
  (forall receiver amount note,
     Payment receiver amount note ∈ cut_payments cut ->
     receiver = getFeeSink \/ receiver = manager \/
     receiver = commissionAddress) /\
  (forall t, t ∈ cut_payments cut ->
     exists receiver amount note, t = Payment receiver amount note) /\
  (manager <> commissionAddress -> manager <> getFeeSink ->
   forall amount note,
     Payment manager amount note ∈ cut_payments cut -> amount <= 1000000).
Proof.
  intros Hrun validatorConfig manager commissionAddress.
  unfold rewardCut in Hrun. fold validatorConfig in Hrun.
  step Hrun as saturation Hsat.
  destruct (saturation <? _).
  { step Hrun as diminished Hdim. step Hrun as excess Hexcess.
    injection Hrun as <-. simpl. split; [lia|].
    split; [|split].
    - intros receiver amount note [Heq|[]%elem_of_nil]%elem_of_cons.
      injection Heq as -> _ _. by left.
    - intros t [->|[]%elem_of_nil]%elem_of_cons. by eexists _, _, _.
    - intros _ Hsink amount note [Heq|[]%elem_of_nil]%elem_of_cons.
      by injection Heq as Heq _ _. }
  destruct (negb _).
  2: { injection Hrun as <-. simpl. split; [done|].
       split; [by intros ? ? ? []%elem_of_nil|].
       split; [by intros ? []%elem_of_nil|].
       by intros _ _ ? ? []%elem_of_nil. }
  step Hrun as commission Hcommission. step Hrun as left Hleft.
  step Hrun as payments Hpayments. injection Hrun as <-. simpl.
  fold manager commissionAddress in Hpayments.
  destruct (N.ltb_spec 0 commission) as [Hpos|Hzero].
  2: { injection Hpayments as <-. simpl.
       split; [lia|].
       split; [by intros ? ? ? []%elem_of_nil|].
       split; [by intros ? []%elem_of_nil|].
       by intros _ _ ? ? []%elem_of_nil. }
  step Hpayments as lowManager Hlow.
  step Hpayments as rest Hrest. injection Hpayments as <-.
  apply sub64_Some in Hrest as [Hle ->].
  destruct lowManager;
    destruct (N.ltb_spec commission 1000000);
    match goal with |- context [0 <? ?e] => destruct (N.ltb_spec 0 e) end;
    simpl; (split; [lia|]);
    (split; [intros receiver amount note Hin; in_list Hin; simplify_eq; auto|]);
    (split; [intros t Hin; in_list Hin; simplify_eq; by eexists _, _, _|]);
    intros Hne Hsink amount note Hin; in_list Hin; simplify_eq; lia.
Qed.

(** X19.  The commission, split.  The last inner transaction of a successful
    epoch update is its report to the registry, and the payments the call
    makes add up to the commission plus the fee-sink excess it reports.  Each
    payment goes to the fee sink, the manager or the commission address; and
    the manager, when a different account, is topped up by at most 1,000,000
    out of the commission. *)
Theorem commission_split ch tx s s' txns r :
  epochBalanceUpdate ch tx s = Some (s', txns, r) ->
  let validatorConfig := getValidatorConfig (registryOf ch s) (validatorId s) in
  let manager := ValidatorConfig.manager validatorConfig in
  let commissionAddress :=
    ValidatorConfig.validatorCommissionAddress validatorConfig in
  exists increased tokenPaid commission excess,
    last txns = Some (StakeUpdatedViaRewards (poolKeyOf tx s) increased
                        tokenPaid commission excess) /\
    paymentsTotal txns = commission + excess /\
    (forall receiver amount note,
       Payment receiver amount note ∈ txns ->
       receiver = getFeeSink \/ receiver = manager \/
       receiver = commissionAddress) /\
    (manager <> commissionAddress -> manager <> getFeeSink ->
     forall amount note,
       Payment manager amount note ∈ txns -> amount <= 1000000).
Proof.
  intros Hrun validatorConfig manager commissionAddress.
  apply epochBalanceUpdate_inv in Hrun as (cut & p & Hrun & ->).
  apply epochPayout_inv in Hrun
    as (ep & s1 & S & tok & l & l' & _ & _ & _ & _ & _ & Hcut & _).
  apply rewardCut_payments in Hcut as (Htotal & Hparties & _ & Hmanager).
  eexists _, _, _, _. split; [apply last_snoc|].
  split; [rewrite paymentsTotal_app; simpl; lia|]. split.
  - intros receiver amount note [Hin|Hin]%elem_of_app.
    + by apply (Hparties receiver amount note).
    + by in_list Hin.
  - intros Hne Hsink amount note [Hin|Hin]%elem_of_app.
    + by apply (Hmanager Hne Hsink amount note).
    + by in_list Hin.
Qed.

(** X20.  An epoch update leaves the pool solvent.  On a ledger whose counters
    are right, after a successful [epochBalanceUpdate] the pool's balance,
    less everything the call paid out, still covers the new
    [totalAlgoStaked] and the account's minimum balance. *)
Theorem epochBalanceUpdate_stays_solvent ch tx s s' txns r :
  ledger_ok s ->
  epochBalanceUpdate ch tx s = Some (s', txns, r) ->
  let self := appAddress ch (appId tx) in
  paymentsTotal txns + totalAlgoStaked s' + acctMinBalance ch self
    <= acctBalance ch self.
Proof.
  intros [Htot Hnum] Hrun self.
  apply epochBalanceUpdate_inv in Hrun as (cut & p & Hrun & ->).
  apply epochPayout_inv in Hrun
    as (ep & s1 & S & tok & l & l' & _ & _ & HS & _ & _ & Hcut & Hl & Hdist & ->).
  unfold algoRewardAvailOf in HS. fold self in HS.
  step HS as gross Hgross.
  apply sub64_Some in Hgross as [Hcover ->], HS as [Hmin ->].
  pose proof (rewardCut_payments _ _ _ _ Hcut) as (Hpaid & _).
  apply rewardCut_inv in Hcut as [Hsplit _].
  unfold ledgerOf in *. rewrite Hl in *. simpl in *.
  apply distribute_sums in Hdist as (_ & _ & Hle & _); [|done].
  rewrite paymentsTotal_app. simpl. lia.
Qed.

(** ** Reward tokens *)

Lemma passA_token_sums cur ep total l p l' p' :
  passA cur ep total l p = Some (l', p') ->
  tokenSum l' + tokenRewardPaidOut p = tokenSum l + tokenRewardPaidOut p' /\
  tokenRewardAvail p + tokenRewardPaidOut p
    = tokenRewardAvail p' + tokenRewardPaidOut p'.
Proof.
  revert p l' p'. induction l as [|x l IH]; intros p l' p' Hrun; simpl in Hrun.
  - injection Hrun as <- <-. simpl. lia.
  - step Hrun as r1 Hslot. destruct r1 as [x1 p1].
    step Hrun as r2 Hrest. destruct r2 as [l2 p2].
    injection Hrun as <- <-.
    apply passA_slot_spec in Hslot
      as ((_ & _ & _ & _ & Hheld) & [_ Hpaid] & _ & Havail & _).
    apply IH in Hrest as [Hsum Hrew]. simpl. lia.
Qed.

Lemma passB_token_sums cur ep T l p l' p' :
  0 < T ->
  passB cur ep T l p = Some (l', p') ->
  tokenSum l' + tokenRewardPaidOut p = tokenSum l + tokenRewardPaidOut p' /\
  tokenRewardAvail p' = tokenRewardAvail p /\
  T * tokenRewardPaidOut p' <=
    T * tokenRewardPaidOut p + tokenRewardAvail p * fullStake cur ep l.
Proof.
  intros HT. revert p l' p'.
  induction l as [|x l IH]; intros p l' p' Hrun; simpl in Hrun.
  - injection Hrun as <- <-. simpl. lia.
  - step Hrun as r1 Hslot. destruct r1 as [x1 p1].
    step Hrun as r2 Hrest. destruct r2 as [l2 p2].
    injection Hrun as <- <-.
    apply passB_slot_spec in Hslot
      as ((_ & _ & _ & _ & Hheld) & [_ Hpaid] & _ & Havail & _).
    apply IH in Hrest as (Hsum & Hrew & Hupper).
    set (R := tokenRewardAvail p) in *.
    set (c := if paidInFull cur ep x then balance x * R / T else 0) in *.
    rewrite Havail in *.
    assert (T * c <= R * (if wholeEpoch cur ep x then balance x else 0)) as Hlo.
    { subst c. destruct (paidInFull cur ep x) eqn:Hpaid'; [|lia].
      rewrite (paidInFull_wholeEpoch _ _ _ Hpaid').
      destruct (floor_bounds (balance x * R) T HT) as [Hle Hgt].
      rewrite (N.mul_comm R (balance x)). lia. }
    simpl. repeat split; lia.
Qed.

Lemma distribute_token_sums cur ep total l tokenReward algoReward l' p :
  distribute cur ep total l tokenReward algoReward = Some (l', p) ->
  total = stakedSum l ->
  tokenSum l' = tokenSum l + tokenRewardPaidOut p /\
  tokenRewardPaidOut p <= tokenReward.
Proof.
  unfold distribute. intros Hrun Htotal.
  step Hrun as r1 HpassA. destruct r1 as [l1 p1].
  step Hrun as T HT. apply sub64_Some in HT as [Hle ->].
  pose proof (passA_sums _ _ _ _ _ _ _ HpassA)
    as (_ & _ & _ & Hpart & Hfull & _).
  apply passA_token_sums in HpassA as [Hsum Hrew]. simpl in *.
  pose proof (ledger_partition cur ep l) as Hsplit.
  rewrite Hpart, N.add_0_l in *.
  assert (total - spec_partialStakersTotalStake cur ep l = fullStake cur ep l)
    as HT by lia.
  rewrite HT in Hrun.
  destruct (N.ltb_spec 0 (fullStake cur ep l)) as [Hpos|Hzero].
  - apply passB_token_sums in Hrun as (Hsum' & Hrew' & Hupper); [|done].
    rewrite Hfull in *. set (F := fullStake cur ep l) in *.
    split; [lia|]. rewrite (N.mul_comm _ F) in Hupper. nia.
  - injection Hrun as <- <-. lia.
Qed.

(** X21.  Reward tokens are conserved.  On a ledger whose counters are right, a
    successful [epochBalanceUpdate] credits the stakers' token balances with
    exactly the amount it reports to the registry as paid, and that amount
    never exceeds the token reward available to the pool this epoch. *)
Theorem token_conservation ch tx s s' txns r :
  ledger_ok s ->
  epochBalanceUpdate ch tx s = Some (s', txns, r) ->
  exists tokenReward payments increased tokenPaid commission excess,
    tokenRewardAvailOf ch tx s = Some tokenReward /\
    txns = payments ++ [StakeUpdatedViaRewards (poolKeyOf tx s) increased
                          tokenPaid commission excess] /\
    tokenSum (ledgerOf s') = tokenSum (ledgerOf s) + tokenPaid /\
    tokenPaid <= tokenReward.
Proof.
  intros [Htot Hnum] Hrun.
  apply epochBalanceUpdate_inv in Hrun as (cut & p & Hrun & ->).
  apply epochPayout_inv in Hrun
    as (ep & s1 & S & tok & l & l' & _ & _ & _ & Htok & _ & _ & Hl & Hdist & ->).
  unfold ledgerOf in *. rewrite Hl in *. simpl in *.
  apply distribute_token_sums in Hdist as [Hsum Hle]; [|done].
  by eexists tok, _, _, _, _, _.
Qed.

(** ** What the calls send *)

Lemma exec_txns ch tx c s s' txns :
  exec ch tx c s = Some (s', txns) ->
  forall t, t ∈ txns ->
    match t with
    | Payment receiver _ _ =>
        receiver = sender tx \/ receiver = getFeeSink \/
        receiver = ValidatorConfig.manager
                     (getValidatorConfig (registryOf ch s) (validatorId s)) \/
        receiver = ValidatorConfig.validatorCommissionAddress
                     (getValidatorConfig (registryOf ch s) (validatorId s))
    | AssetTransfer _ _ _ => poolId s = 1
    | _ => True
    end.
Proof.
  intros Hrun t Hin. unfold exec, dropResult in Hrun.
  destruct c;
    apply fmap_Some in Hrun as ([[s2 t2] r] & Hrun & [= <- <-]).
  - unfold initStorage in Hrun. steps Hrun. injection Hrun as _ <- _.
    destruct (negb _); simpl in Hin; [|by in_list Hin].
    destruct (N.eqb_spec (poolId s) 1); simpl in Hin; in_list Hin.
    by subst t.
  - apply addStake_inv in Hrun as (l & i & old & _ & _ & _ & _ & _ & _ & -> & _).
    by in_list Hin.
  - apply removeStake_inv in Hrun
      as (l & i & cmp & _ & _ & _ & _ & _ & _ & _ & ->).
    destruct (0 <? rewardTokenBalance cmp); simpl in Hin;
      [destruct (N.eqb_spec (poolId s) 1); simpl in Hin|];
      in_list Hin; subst t; auto.
  - unfold claimTokens in Hrun. step Hrun as l Hl. step Hrun as f Hf.
    destruct f as [i cmp].
    destruct (_ =? 0); steps Hrun; injection Hrun as _ <- _; [by in_list Hin|].
    destruct (N.eqb_spec (poolId s) 1); simpl in Hin; in_list Hin;
      by subst t.
  - apply epochBalanceUpdate_inv in Hrun as (cut & p & Hrun & ->).
    apply epochPayout_inv in Hrun
      as (ep & s1 & S & tok & l & l' & _ & _ & _ & _ & _ & Hcut & _).
    apply rewardCut_payments in Hcut as (_ & Hparties & Hall & _).
    apply elem_of_app in Hin as [Hin|Hin].
    + destruct (Hall t Hin) as (receiver & amount & note & ->).
      right. by apply (Hparties receiver amount note).
    + in_list Hin. by subst t.
  - unfold updateAlgodVer in Hrun. steps Hrun. injection Hrun as _ <- _.
    by in_list Hin.
  - unfold goOnline in Hrun. steps Hrun. injection Hrun as _ <- _.
    in_list Hin. by subst t.
  - unfold goOffline in Hrun. steps Hrun. injection Hrun as _ <- _.
    in_list Hin. by subst t.
  - unfold linkToNFD in Hrun. steps Hrun. injection Hrun as _ <- _.
    in_list Hin. by subst t.
  - unfold payTokenReward in Hrun. step Hrun as u1 H1. step Hrun as u2 Hpool.
    apply assert_Some, N.eqb_eq in Hpool.
    steps Hrun. injection Hrun as _ <- _. in_list Hin. by subst t.
  - unfold proxiedSetTokenPayoutRatio in Hrun. steps Hrun.
    injection Hrun as _ <- _. by in_list Hin.
  - injection Hrun as _ <- _. by in_list Hin.
Qed.

(** X22.  Only pool 1 moves reward tokens.  Whatever the call, an asset
    transfer among its inner transactions means the pool is pool 1. *)
Theorem only_pool_one_transfers_tokens ch tx c s s' txns
    xferAsset assetReceiver assetAmount :
  exec ch tx c s = Some (s', txns) ->
  AssetTransfer xferAsset assetReceiver assetAmount ∈ txns ->
  poolId s = 1.
Proof.
  intros Hrun Hin. by apply (exec_txns _ _ _ _ _ _ Hrun _ Hin).
Qed.

(** X23.  A pool pays nobody else.  Whatever the call, each payment among its
    inner transactions goes to the caller (a withdrawal), the fee sink, or
    the manager or commission address the registry reports. *)
Theorem payments_go_to_known_parties ch tx c s s' txns receiver amount note :
  exec ch tx c s = Some (s', txns) ->
  Payment receiver amount note ∈ txns ->
  receiver = sender tx \/ receiver = getFeeSink \/
  receiver = ValidatorConfig.manager
               (getValidatorConfig (registryOf ch s) (validatorId s)) \/
  receiver = ValidatorConfig.validatorCommissionAddress
               (getValidatorConfig (registryOf ch s) (validatorId s)).
Proof.
  intros Hrun Hin. by apply (exec_txns _ _ _ _ _ _ Hrun _ Hin).
Qed.

(** ** The ledger box *)

Lemma exec_keeps_box ch tx c s s' txns :
  exec ch tx c s = Some (s', txns) ->
  is_Some (stakers s) -> is_Some (stakers s').
Proof.
  intros Hrun Hbox. unfold exec, dropResult in Hrun.
  destruct c;
    apply fmap_Some in Hrun as ([[s2 t2] r] & Hrun & [= <- <-]).
  - unfold initStorage in Hrun. steps Hrun. by injection Hrun as <- _ _.
  - apply addStake_inv in Hrun
      as (l & i & old & _ & _ & _ & _ & _ & _ & _ & _ & _ & [[_ ->]|(_ & _ & ->)]);
      by eexists.
  - apply removeStake_inv in Hrun as (l & i & cmp & _ & _ & _ & _ & _ & _ & -> & _).
    by eexists.
  - unfold claimTokens in Hrun. step Hrun as l Hl. step Hrun as f Hf.
    destruct f as [i cmp].
    destruct (_ =? 0); steps Hrun; injection Hrun as <- _ _; [done|by eexists].
  - apply epochBalanceUpdate_inv in Hrun as (cut & p & Hrun & ->).
    apply epochPayout_inv in Hrun
      as (ep & s1 & S & tok & l & l' & _ & _ & _ & _ & _ & _ & _ & _ & ->).
    by eexists.
  - unfold updateAlgodVer in Hrun. steps Hrun. by injection Hrun as <- _ _.
  - unfold goOnline in Hrun. steps Hrun. by injection Hrun as <- _ _.
  - unfold goOffline in Hrun. steps Hrun. by injection Hrun as <- _ _.
  - unfold linkToNFD in Hrun. steps Hrun. by injection Hrun as <- _ _.
  - unfold payTokenReward in Hrun. steps Hrun. by injection Hrun as <- _ _.
  - unfold proxiedSetTokenPayoutRatio in Hrun. steps Hrun.
    by injection Hrun as <- _ _.
  - by injection Hrun as <- _ _.
Qed.

(** X24.  The ledger box is created once.  Once the box of stakers exists no
    call removes it, whatever the call and whether it succeeds, and
    [initStorage] fails from then on, whatever payment comes with it. *)
Theorem initStorage_only_once ch tx c s ch' tx' mbrPayment :
  is_Some (stakers s) ->
  is_Some (stakers (next ch tx c s)) /\
  initStorage ch' tx' mbrPayment (next ch tx c s) = None.
Proof.
  intros Hbox.
  assert (is_Some (stakers (next ch tx c s))) as Hnext.
  { unfold next. destruct (exec ch tx c s) as [[s' txns]|] eqn:Hrun; [|done].
    by apply (exec_keeps_box _ _ _ _ _ _ Hrun). }
  split; [done|]. destruct Hnext as [l Hl].
  unfold initStorage. rewrite Hl. by rewrite bool_decide_eq_false_2.
Qed.

(** X25.  No staking before [initStorage].  While the box of stakers does not
    exist, adding or removing stake, claiming tokens, the epoch update and
    the staker lookup all fail. *)
Theorem no_ledger_no_staking ch tx stakedAmountPayment staker
    amountToUnstake s :
  stakers s = None ->
  addStake ch tx stakedAmountPayment staker s = None /\
  removeStake ch tx amountToUnstake s = None /\
  claimTokens ch tx s = None /\
  epochBalanceUpdate ch tx s = None /\
  getStakerInfo staker s = None.
Proof.
  intros Hbox. repeat split.
  - destruct (addStake _ _ _ _ _) as [[[s' txns] r]|] eqn:Hrun; [|done].
    apply addStake_inv in Hrun as (l & _ & _ & Hl & _). congruence.
  - destruct (removeStake _ _ _ _) as [[[s' txns] r]|] eqn:Hrun; [|done].
    apply removeStake_inv in Hrun as (l & _ & _ & Hl & _). congruence.
  - unfold claimTokens. by rewrite Hbox.
  - destruct (epochBalanceUpdate _ _ _) as [[[s' txns] r]|] eqn:Hrun; [|done].
    apply epochBalanceUpdate_inv in Hrun as (cut & p & Hrun & _).
    apply epochPayout_inv in Hrun
      as (ep & s1 & S & tok & l & l' & _ & _ & _ & _ & _ & _ & Hl & _).
    congruence.
  - unfold getStakerInfo. by rewrite Hbox.
Qed.

(** X26.  What [initStorage] asks for and leaves.  A successful call was paid
    exactly the pool's minimum balance requirement -- the account minimum,
    2500 plus 400 per byte for a box of 7 name bytes and 64 bytes per slot,
    and the asset holding fee when the validator has a reward token and this
    is pool 1 -- and leaves a ledger of [MAX_STAKERS_PER_POOL] empty slots
    with the counters untouched.  It makes no payment, and the only asset
    transfer it makes is pool 1's opt-in to the reward token: a transfer of 0
    to the pool itself. *)
Theorem initStorage_effect ch tx mbrPayment s s' txns r :
  initStorage ch tx mbrPayment s = Some (s', txns, r) ->
  let validatorConfig := getValidatorConfig (registryOf ch s) (validatorId s) in
  let optsIn :=
    negb (ValidatorConfig.rewardTokenId validatorConfig =? 0) && (poolId s =? 1) in
  stakers s = None /\
  pay_amount mbrPayment
    = ALGORAND_ACCOUNT_MIN_BALANCE + (if optsIn then ASSET_HOLDING_FEE else 0)
      + 2500 + (7 + 64 * MAX_STAKERS_PER_POOL) * 400 /\
  length (ledgerOf s') = N.to_nat MAX_STAKERS_PER_POOL /\
  (forall x, x ∈ ledgerOf s' -> x = emptySlot) /\
  numStakers s' = numStakers s /\ totalAlgoStaked s' = totalAlgoStaked s /\
  List.filter isPayment txns = [] /\
  List.filter isAssetTransfer txns
    = (if optsIn
       then [AssetTransfer (ValidatorConfig.rewardTokenId validatorConfig)
               (appAddress ch (appId tx)) 0]
       else []).
Proof.
  intros Hrun validatorConfig optsIn. unfold initStorage in Hrun.
  step Hrun as u1 Hbox. apply assert_Some, bool_decide_eq_true in Hbox.
  step Hrun as ledgerBytes H1. apply mul64_Some in H1 as ->.
  step Hrun as boxBytes H2. apply add64_Some in H2 as ->.
  step Hrun as boxCost H3. unfold costForBoxStorage in H3.
  step H3 as b H4. apply mul64_Some in H4 as ->.
  apply add64_Some in H3 as ->.
  step Hrun as base H5. apply add64_Some in H5 as ->.
  step Hrun as mbr H6. apply add64_Some in H6 as ->.
  step Hrun as u2 Hpay. apply assert_Some, N.eqb_eq in Hpay.
  step Hrun as u3 Hsub. injection Hrun as <- <- _.
  fold validatorConfig optsIn in Hpay |- *.
  unfold ledgerOf, len_StakedInfo in *. simpl.
  split; [done|]. split; [rewrite Hpay; lia|].
  split; [by rewrite length_replicate|].
  split; [by intros x [-> _]%elem_of_replicate|].
  split; [done|]. split; [done|]. by destruct optsIn.
Qed.

(** ** The first version of the contract *)

Lemma legacy_scan_absent account l i :
  Forall (fun slot => Legacy.Account slot <> account) l ->
  Legacy.addStake_scan account l i 0 = inr 0%nat.
Proof.
  intros Habsent. revert i.
  induction Habsent as [|slot l Hslot _ IH]; intros i; simpl; [done|].
  destruct (N.eqb_spec (Legacy.Account slot) account); [done|]. apply IH.
Qed.

Lemma legacy_findStaker_absent account l i :
  Forall (fun slot => Legacy.Account slot <> account) l ->
  Legacy.findStaker account l i = None.
Proof.
  intros Habsent. revert i.
  induction Habsent as [|slot l Hslot _ IH]; intros i; simpl; [done|].
  destruct (N.eqb_spec (Legacy.Account slot) account); [done|]. apply IH.
Qed.

Lemma legacy_addStake_absent registryId ch tx payment account amountToStake s :
  Forall (fun slot => Legacy.Account slot <> account) (Legacy.Stakers s) ->
  Legacy.addStake registryId ch tx payment account amountToStake s = None.
Proof.
  intros Habsent.
  destruct (Legacy.addStake _ _ _ _ _ _ _) as [r|] eqn:Hrun; [|done].
  unfold Legacy.addStake in Hrun.
  step Hrun as u1 H1. step Hrun as u2 H2. step Hrun as u3 H3.
  step Hrun as u4 H4. step Hrun as u5 H5.
  by rewrite (legacy_scan_absent _ _ _ Habsent) in Hrun.
Qed.

Lemma legacy_payEach_empty curTime payoutDaysInSecs rewardAvailable total n :
  Legacy.payEach curTime payoutDaysInSecs rewardAvailable total
    (replicate n Legacy.emptySlot) = Some [].
Proof. induction n as [|n IH]; simpl; [done|]. by rewrite IH. Qed.

Lemma legacy_empty_absent account n :
  account <> zeroAddress ->
  Forall (fun slot => Legacy.Account slot <> account)
    (replicate n Legacy.emptySlot).
Proof.
  intros Hne. apply Forall_forall. intros slot [-> _]%elem_of_replicate.
  simpl. congruence.
Qed.

(** X27.  The first version admits nobody.  Because [firstEmpty] starts at 0
    and is only set when it is already non-zero, [addStake] of the first
    version fails ("Staking pool full") for every account that is not
    already in the ledger, however many slots are empty. *)
Theorem legacy_addStake_admits_nobody registryId ch tx payment account
    amountToStake s :
  Forall (fun slot => Legacy.Account slot <> account) (Legacy.Stakers s) ->
  Legacy.addStake registryId ch tx payment account amountToStake s = None.
Proof. apply legacy_addStake_absent. Qed.

(** X28.  A pool of the first version stays empty.  In every state reached from
    [createApplication] by any calls the ledger is 80 empty slots and both
    counters are 0; [payStakers], when it succeeds there, sends nothing but
    its query to the registry. *)
Theorem legacy_pool_stays_empty registryId maxAlgo s :
  Legacy.reachable registryId maxAlgo s ->
  Legacy.Stakers s = replicate 80 Legacy.emptySlot /\
  Legacy.NumStakers s = 0 /\ Legacy.TotalAlgoStaked s = 0 /\
  forall ch tx payoutConfig s' txns r,
    Legacy.payStakers ch tx payoutConfig s = Some (s', txns, r) ->
    s' = s /\ txns = [Legacy.GetValidatorConfig (Legacy.ValidatorID s)].
Proof.
  intros Hreach.
  assert (Legacy.Stakers s = replicate 80 Legacy.emptySlot /\
          Legacy.NumStakers s = 0 /\ Legacy.TotalAlgoStaked s = 0)
    as (Hledger & Hnum & Htotal).
  { induction Hreach as [ch tx v p o m s Hcreate|ch tx c s _ IH].
    - unfold Legacy.createApplication in Hcreate.
      step Hcreate as u Hsender. by injection Hcreate as <-.
    - destruct IH as (Hledger & Hnum & Htotal).
      unfold Legacy.next.
      destruct (Legacy.exec registryId ch tx c s) as [[s' txns]|] eqn:Hrun;
        [|done].
      unfold Legacy.exec in Hrun.
      destruct c as [payment acct amountToStake|acct amountToUnstake
                    |payoutConfig|? ? ? ? ? ?|];
        apply fmap_Some in Hrun as ([[s2 t2] r] & Hrun & [= <- <-]).
      + destruct (N.eqb_spec acct zeroAddress) as [->|Hne];
          [by unfold Legacy.addStake in Hrun|].
        rewrite legacy_addStake_absent in Hrun; [done|].
        rewrite Hledger. by apply legacy_empty_absent.
      + destruct (N.eqb_spec acct zeroAddress) as [->|Hne];
          [by unfold Legacy.removeStake in Hrun|].
        unfold Legacy.removeStake in Hrun.
        step Hrun as u1 H1. step Hrun as u2 H2.
        rewrite legacy_findStaker_absent in Hrun; [done|].
        rewrite Hledger. by apply legacy_empty_absent.
      + unfold Legacy.payStakers in Hrun. steps Hrun.
        by injection Hrun as <- _ _.
      + unfold Legacy.GoOnline in Hrun. steps Hrun.
        by injection Hrun as <- _ _.
      + unfold Legacy.GoOffline in Hrun. steps Hrun.
        by injection Hrun as <- _ _. }
  split; [done|]. split; [done|]. split; [done|].
  intros ch tx payoutConfig s' txns r Hrun.
  unfold Legacy.payStakers in Hrun.
  step Hrun as u1 H1. step Hrun as a Ha. step Hrun as rewardAvailable Hr.
  step Hrun as d Hd. step Hrun as h Hh. step Hrun as secs Hsecs.
  step Hrun as paid Hpaid. injection Hrun as <- <- _.
  rewrite Hledger, legacy_payEach_empty in Hpaid. by injection Hpaid as <-.
Qed.

End Properties.

(** * The sample deployment *)

#[local] Existing Instance Sample.constants.

Lemma sample_created_reachable : reachable Sample.created.
Proof.
  by apply (reachable_created (Sample.chain 100 0) Sample.registryId 1 1 1000000).
Qed.

Lemma sample_staked_reachable : reachable Sample.staked.
Proof.
  unfold Sample.staked, Sample.aliceIn, Sample.initialised.
  do 3 (apply reachable_call; [|done]).
  apply sample_created_reachable.
Qed.

Lemma sample_bobAgain_reachable : reachable Sample.bobAgain.
Proof.
  unfold Sample.bobAgain, Sample.aliceOut.
  do 2 (apply reachable_call; [|done]).
  apply sample_staked_reachable.
Qed.

Lemma sample_seasoned_ledger_ok : ledger_ok Sample.seasoned.
Proof. by vm_compute. Qed.

(** Why [reachable] leaves out the zero sender: [removeStake] sent by the
    zero address would match the first empty slot and take 1 off
    [numStakers] though no staker left. *)
Lemma removeStake_zero_sender :
  let s' :=
    next (Sample.chain 130 0) (Sample.from zeroAddress) (CallRemoveStake 0)
      Sample.staked in
  numStakers s' = 1 /\ occupiedCount (ledgerOf s') = 2.
Proof. by vm_compute. Qed.

(** C1.  [addStake] stops scanning at the first empty slot, so a staker
    whose slot lies behind an empty one is given a second slot.  After Alice
    and Bob stake, Alice withdraws everything and Bob stakes again, slots 0
    and 1 both hold Bob: a reachable ledger with a duplicate account. *)
Theorem addStake_opens_second_slot :
  reachable Sample.bobAgain /\
  ledgerOf Sample.bobAgain !! 0%nat
    = Some (mkStakedInfo Sample.bob 1000000 0 0 1036) /\
  ledgerOf Sample.bobAgain !! 1%nat
    = Some (mkStakedInfo Sample.bob 3000000 0 0 1016) /\
  ~ no_duplicates (ledgerOf Sample.bobAgain).
Proof.
  split; [apply sample_bobAgain_reachable|].
  split; [by vm_compute|]. split; [by vm_compute|].
  intros Hnodup.
  specialize (Hnodup 0%nat 1%nat
    (mkStakedInfo Sample.bob 1000000 0 0 1036)
    (mkStakedInfo Sample.bob 3000000 0 0 1016)).
  assert (0%nat = 1%nat) as Habsurd; [|done].
  apply Hnodup; by vm_compute.
Qed.

(** C2, on the sample: the ledger after Alice and Bob have staked. *)
Lemma ledger_integrity_witness :
  reachable Sample.staked /\
  totalAlgoStaked Sample.staked = stakedSum (ledgerOf Sample.staked) /\
  numStakers Sample.staked = occupiedCount (ledgerOf Sample.staked).
Proof.
  split; [apply sample_staked_reachable|].
  apply ledger_integrity. apply sample_staked_reachable.
Defined.

(** C3 as first stated fails: the pool was created at time 100 with an epoch
    of 60 seconds and has never run an epoch update, yet its first update is
    refused at time 150.  At time 160 the same first call goes through and
    pays the commission. *)
Lemma first_epoch_update_is_gated :
  epochNumber Sample.staked = 0 /\
  epochBalanceUpdate (Sample.chain 150 20000000) (Sample.from Sample.stranger)
    Sample.staked = None /\
  exists s',
    epochBalanceUpdate (Sample.chain 160 20000000) (Sample.from Sample.stranger)
      Sample.staked
    = Some (s',
            [Payment Sample.commissionAddress 745000 "validator reward";
             StakeUpdatedViaRewards (ValidatorPoolKey.mk 1 1 Sample.poolAppId)
               0 0 745000 0],
            tt).
Proof.
  split; [by vm_compute|]. split; [by vm_compute|].
  eexists. by vm_compute.
Qed.

(** C3 as amended, on the sample: the first update, asked for 50 seconds
    after creation, is refused and leaves the pool as it was. *)
Lemma epoch_gate_witness :
  reachable Sample.staked /\
  epochBalanceUpdate (Sample.chain 150 20000000) (Sample.from Sample.stranger)
    Sample.staked = None /\
  next (Sample.chain 150 20000000) (Sample.from Sample.stranger)
    CallEpochBalanceUpdate Sample.staked = Sample.staked.
Proof.
  split; [apply sample_staked_reachable|].
  destruct (epoch_gate (Sample.chain 150 20000000) (Sample.from Sample.stranger)
              Sample.staked sample_staked_reachable) as (_ & Hearly & _).
  apply (Hearly 100); [reflexivity|by vm_compute].
Defined.

(** C4 as first stated fails: both stakers entered less than an epoch ago, so
    nothing is credited, and of a surplus of 14,900,000 only the commission
    of 745,000 leaves the pool; the shortfall is far more than the two
    stakers' one unit each. *)
Lemma partial_stakers_leave_surplus :
  algoRewardAvailOf (Sample.chain 160 20000000) (Sample.from Sample.stranger)
    Sample.staked = Some 14900000 /\
  numStakers Sample.staked = 2 /\
  (exists s',
     epochBalanceUpdate (Sample.chain 160 20000000) (Sample.from Sample.stranger)
       Sample.staked
     = Some (s',
             [Payment Sample.commissionAddress 745000 "validator reward";
              StakeUpdatedViaRewards (ValidatorPoolKey.mk 1 1 Sample.poolAppId)
                0 0 745000 0],
             tt)) /\
  745000 + 0 + 0 + 2 < 14900000.
Proof.
  split; [by vm_compute|]. split; [by vm_compute|].
  split; [eexists; by vm_compute|]. by vm_compute.
Qed.

(** C4 as amended, on the sample: Alice was present the whole epoch and Bob
    half of it, and the whole surplus reaches their balances. *)
Lemma reward_conservation_witness :
  ledger_ok Sample.seasoned /\
  exists s' txns,
    epochBalanceUpdate
      (Sample.chainAt Sample.freeConfig Sample.quietState 1070 20000000 0)
      (Sample.from Sample.stranger) Sample.seasoned = Some (s', txns, tt) /\
    exists surplus payments increased tokenPaid commission excess,
      txns = payments ++ [StakeUpdatedViaRewards
                            (poolKeyOf (Sample.from Sample.stranger) Sample.seasoned)
                            increased tokenPaid commission excess] /\
      commission + increased + excess <= surplus /\
      surplus < commission + increased + excess + numStakers Sample.seasoned.
Proof.
  split; [apply sample_seasoned_ledger_ok|].
  destruct (epochBalanceUpdate
              (Sample.chainAt Sample.freeConfig Sample.quietState 1070 20000000 0)
              (Sample.from Sample.stranger) Sample.seasoned)
    as [[[s' txns] []]|] eqn:Hrun; [|by vm_compute in Hrun].
  exists s', txns. split; [done|].
  destruct (reward_conservation _ _ _ _ _ _ sample_seasoned_ledger_ok Hrun)
    as (surplus & payments & increased & tokenPaid & commission & excess
        & _ & Htxns & _ & Hupper & Hlower).
  exists surplus, payments, increased, tokenPaid, commission, excess.
  split; [done|]. split; [done|].
  apply Hlower; by vm_compute.
Defined.

(** C5, on the sample: the validator holds twice the saturation level, so
    half of the surplus of 14,900,000 goes to the fee sink and the other
    half to the stakers, with no commission. *)
Lemma saturation_dampening_witness :
  ledger_ok Sample.seasoned /\
  200000000000000 < 400000000000000 /\
  exists s' p,
    epochBalanceUpdate
      (Sample.chainAt Sample.plainConfig Sample.saturatedState 1070 20000000 0)
      (Sample.from Sample.stranger) Sample.seasoned
    = Some (s',
            [Payment getFeeSink 7450000 "pool saturated, excess to fee sink";
             StakeUpdatedViaRewards
               (poolKeyOf (Sample.from Sample.stranger) Sample.seasoned)
               (increasedStake p) (tokenRewardPaidOut p) 0 7450000],
            tt) /\
    increasedStake p <= 7450000.
Proof.
  split; [apply sample_seasoned_ledger_ok|]. split; [reflexivity|].
  destruct (epochBalanceUpdate
              (Sample.chainAt Sample.plainConfig Sample.saturatedState 1070
                 20000000 0)
              (Sample.from Sample.stranger) Sample.seasoned)
    as [[[s' txns] []]|] eqn:Hrun; [|by vm_compute in Hrun].
  assert (getCurrentOnlineStake * MAX_VALIDATOR_SOFT_PCT_OF_ONLINE_1DECIMAL / 1000
          < ValidatorState.totalAlgoStaked Sample.saturatedState) as Hover.
  { vm_compute. reflexivity. }
  destruct (saturation_dampening
              (Sample.chainAt Sample.plainConfig Sample.saturatedState 1070
                 20000000 0)
              (Sample.from Sample.stranger) Sample.seasoned s' txns tt
              sample_seasoned_ledger_ok Hover Hrun)
    as (surplus & ep & tokenReward & p & _ & Hsurplus & Htxns & _ & Hle & _).
  vm_compute in Hsurplus. injection Hsurplus as <-.
  vm_compute in Htxns. vm_compute in Hle.
  exists s', p. split; [rewrite Htxns; reflexivity|]. exact Hle.
Defined.

(** C6, on the sample: a surplus of 14,900,000 with no commission.  Bob, in
    the pool for half the epoch, is credited
    [3,000,000 * 14,900,000 * 500 / (5,000,000 * 1000) = 4,470,000]; Alice,
    present throughout, is credited the remaining 10,430,000. *)
Lemma two_pass_distribution_witness :
  0 < 1 * 60 /\
  exists s' txns,
    epochBalanceUpdate
      (Sample.chainAt Sample.freeConfig Sample.quietState 1070 20000000 0)
      (Sample.from Sample.stranger) Sample.seasoned = Some (s', txns, tt) /\
    take 2 (ledgerOf s')
    = [mkStakedInfo Sample.alice 12430000 10430000 0 900;
       mkStakedInfo Sample.bob 7470000 4470000 0 1040].
Proof.
  split; [done|].
  destruct (epochBalanceUpdate
              (Sample.chainAt Sample.freeConfig Sample.quietState 1070 20000000 0)
              (Sample.from Sample.stranger) Sample.seasoned)
    as [[[s' txns] []]|] eqn:Hrun; [|by vm_compute in Hrun].
  exists s', txns. split; [done|].
  destruct (two_pass_distribution
              (Sample.chainAt Sample.freeConfig Sample.quietState 1070 20000000 0)
              (Sample.from Sample.stranger) Sample.seasoned s' txns tt
              ltac:(by vm_compute) Hrun)
    as (surplus & tokenReward & cut & Hsurplus & Htoken & Hcut & ->).
  vm_compute in Hsurplus. injection Hsurplus as <-.
  vm_compute in Htoken. injection Htoken as <-.
  vm_compute in Hcut. injection Hcut as <-.
  by vm_compute.
Defined.

Lemma sample_tokenHolder_ledger_ok : ledger_ok Scenario.tokenHolder.
Proof. by vm_compute. Qed.

(** C7 as first stated fails: Alice holds slot 0 of pool 1 with 2,000,000
    staked and 40 reward tokens waiting, but has not opted in to the token.
    The ledger refuses the transfer, and her withdrawal of everything fails,
    asked for as 0 or as her balance.  With the pool account short of funds
    it is the payment that is refused. *)
Lemma full_withdrawal_refused :
  ledger_ok Scenario.tokenHolder /\
  findStaker Sample.alice (ledgerOf Scenario.tokenHolder) 0
    = Some (0%nat, mkStakedInfo Sample.alice 2000000 0 40 900) /\
  removeStake Scenario.nobodyOptedIn (Sample.from Sample.alice) 0
    Scenario.tokenHolder = None /\
  removeStake Scenario.nobodyOptedIn (Sample.from Sample.alice) 2000000
    Scenario.tokenHolder = None /\
  removeStake Scenario.shortOfFunds (Sample.from Sample.alice) 0
    Scenario.tokenHolder = None.
Proof.
  split; [apply sample_tokenHolder_ledger_ok|]. by vm_compute.
Qed.

(** C7 as amended, on the sample: Alice holds 2,000,000, the minimum is
    1,000,000 and the pool account holds the stake and its minimum balance.
    Taking out 1,500,000 is refused; taking out everything empties her slot
    when she has opted in to the reward token, and fails when she has
    not. *)
Lemma removeStake_minimum_boundary_witness :
  removeStake Scenario.aliceOptedIn (Sample.from Sample.alice) 1500000
    Scenario.tokenHolder = None /\
  (exists s' txns,
     removeStake Scenario.aliceOptedIn (Sample.from Sample.alice) 0
       Scenario.tokenHolder = Some (s', txns, tt) /\
     Payment Sample.alice 2000000 "unstaked" ∈ txns /\
     ledgerOf s' !! 0%nat = Some (mkStakedInfo zeroAddress 0 0 0 900) /\
     numStakers s' + 1 = 2) /\
  removeStake Scenario.nobodyOptedIn (Sample.from Sample.alice) 0
    Scenario.tokenHolder = None.
Proof.
  assert (sender (Sample.from Sample.alice) <> zeroAddress) as Hsender by done.
  destruct (removeStake_minimum_boundary Scenario.aliceOptedIn
              (Sample.from Sample.alice) Scenario.tokenHolder
              (ledgerOf Scenario.tokenHolder) 0%nat
              (mkStakedInfo Sample.alice 2000000 0 40 900)
              eq_refl eq_refl) as [Hpartial Hfull].
  destruct (removeStake_minimum_boundary Scenario.nobodyOptedIn
              (Sample.from Sample.alice) Scenario.tokenHolder
              (ledgerOf Scenario.tokenHolder) 0%nat
              (mkStakedInfo Sample.alice 2000000 0 40 900)
              eq_refl eq_refl) as [_ Hrefused].
  split; [by apply (Hpartial 1500000)|]. split.
  - destruct (Hfull sample_tokenHolder_ledger_ok Hsender 0 (or_introl eq_refl))
      as [Haccepted _].
    destruct (Haccepted eq_refl) as (s' & txns & Hrun & Hpay & Hslot & Hnum & _).
    by exists s', txns.
  - destruct (Hrefused sample_tokenHolder_ledger_ok Hsender 0
                (or_introl eq_refl)) as [_ Hno].
    by apply Hno.
Defined.

(** C8 as first stated fails for [goOffline]: the registry contract is
    neither the owner nor the manager, and its call goes through. *)
Lemma goOffline_from_registry :
  getValidatorOwnerAndManager
    (registryOf (Sample.chain 1070 0) Sample.seasoned)
    (validatorId Sample.seasoned) = (Sample.owner, Sample.manager) /\
  sender Sample.fromRegistry <> Sample.owner /\
  sender Sample.fromRegistry <> Sample.manager /\
  goOffline (Sample.chain 1070 0) Sample.fromRegistry Sample.seasoned
  = Some (Sample.seasoned, [OfflineKeyRegistration], tt).
Proof. by vm_compute. Qed.

(** C8 as amended, on the sample: a stranger can take the pool neither
    online nor offline, nor change its metadata. *)
Lemma owner_manager_gate_witness :
  Sample.stranger <> Sample.owner /\
  Sample.stranger <> Sample.manager /\
  Sample.stranger <> Sample.addressOf Sample.registryId /\
  updateAlgodVer (Sample.chain 1070 0) (Sample.from Sample.stranger)
    "3.22.0 rel/stable" Sample.seasoned = None /\
  goOffline (Sample.chain 1070 0) (Sample.from Sample.stranger)
    Sample.seasoned = None.
Proof.
  split; [done|]. split; [done|]. split; [done|].
  destruct (owner_manager_gate (Sample.chain 1070 0)
              (Sample.from Sample.stranger) Sample.seasoned) as [Hgate _].
  destruct (Hgate ltac:(done) ltac:(done)) as (Hver & _ & _ & Hoff).
  split; [apply Hver|]. by apply Hoff.
Defined.

(** C9, on the sample: without a token reward a surplus of exactly 1,000,000
    is refused; with a token reward of 1000 an epoch with no surplus at all
    is settled. *)
Lemma minimum_reward_floor_witness :
  epochBalanceUpdate (Sample.chain 1070 6100000) (Sample.from Sample.stranger)
    Sample.seasoned = None /\
  exists s' cut p,
    algoRewardAvailOf
      (Sample.chainAt Sample.tokenConfig Sample.quietState 1070 5100000 5000)
      (Sample.from Sample.stranger) Sample.seasoned = Some 0 /\
    epochPayout
      (Sample.chainAt Sample.tokenConfig Sample.quietState 1070 5100000 5000)
      (Sample.from Sample.stranger) Sample.seasoned = Some (s', cut, p) /\
    tokenRewardPaidOut p = 1000.
Proof.
  split.
  - destruct (minimum_reward_floor (Sample.chain 1070 6100000)
                (Sample.from Sample.stranger) Sample.seasoned) as (_ & Hfloor & _).
    apply (Hfloor 1000000); by vm_compute.
  - destruct (minimum_reward_floor
                (Sample.chainAt Sample.tokenConfig Sample.quietState 1070
                   5100000 5000)
                (Sample.from Sample.stranger) Sample.seasoned)
      as (_ & _ & Hfree).
    specialize (Hfree 1000 0 60
      (set_epochNumber 4 (set_lastPayout 1070 Sample.seasoned))
      eq_refl ltac:(done) eq_refl eq_refl eq_refl).
    rewrite Hfree. eexists _, _, _. split; [done|]. by vm_compute.
Defined.

(** C10 as first stated fails: the registry holds back 6000 reward tokens
    while pool 1 holds 5000, so the holding less the held-back amount is
    below the payout of 1000; the surplus of 14,900,000 would make an epoch
    without token reward, but the update fails.  With exactly 5000 held back
    the token reward is taken as zero and the update goes through. *)
Lemma held_back_tokens_abort_epoch :
  ValidatorState.rewardTokenHeldBack
    (getValidatorState (registryOf Scenario.overdrawn Sample.seasoned)
       (validatorId Sample.seasoned)) = 6000 /\
  assetBalance Scenario.overdrawn
    (appAddress Scenario.overdrawn
       (poolOneAppIDOf Scenario.overdrawn (Sample.from Sample.stranger)
          Sample.seasoned)) 77 = 5000 /\
  algoRewardAvailOf Scenario.overdrawn (Sample.from Sample.stranger)
    Sample.seasoned = Some 14900000 /\
  epochBalanceUpdate Scenario.overdrawn (Sample.from Sample.stranger)
    Sample.seasoned = None /\
  exists s' increased,
    epochBalanceUpdate Scenario.allHeldBack (Sample.from Sample.stranger)
      Sample.seasoned
    = Some (s',
            [Payment Sample.commissionAddress 745000 "validator reward";
             StakeUpdatedViaRewards (ValidatorPoolKey.mk 1 1 Sample.poolAppId)
               increased 0 745000 0],
            tt).
Proof.
  split; [by vm_compute|]. split; [by vm_compute|]. split; [by vm_compute|].
  split; [by vm_compute|]. eexists _, _. by vm_compute.
Qed.

(** C10 as amended, on the sample: pool 1 holds 5000 tokens with none held
    back, the payout is 1000 and the pool's share is the whole, so the
    update runs on a budget of 1000; with all 5000 held back it runs on a
    budget of zero and credits no token; with 6000 held back it fails. *)
Lemma token_reward_budget_witness :
  epochBalanceUpdate Scenario.overdrawn (Sample.from Sample.stranger)
    Sample.seasoned = None /\
  (exists s' txns budget epochInSecs algoReward p,
     epochBalanceUpdate Scenario.tokenChain (Sample.from Sample.stranger)
       Sample.seasoned = Some (s', txns, tt) /\
     distribute 1070 epochInSecs 5000000 (ledgerOf Sample.seasoned) budget
       algoReward = Some (ledgerOf s', p) /\
     budget = 1000 * 1000000 / 1000000) /\
  (exists s' txns p commission excess,
     epochBalanceUpdate Scenario.allHeldBack (Sample.from Sample.stranger)
       Sample.seasoned = Some (s', txns, tt) /\
     last txns
       = Some (StakeUpdatedViaRewards
                 (poolKeyOf (Sample.from Sample.stranger) Sample.seasoned)
                 (increasedStake p) (tokenRewardPaidOut p) commission excess) /\
     tokenRewardPaidOut p = 0 /\
     rewardTokenBalance <$> ledgerOf s'
       = rewardTokenBalance <$> ledgerOf Sample.seasoned).
Proof.
  assert (ValidatorConfig.rewardTokenId Sample.tokenConfig <> 0) as Htoken
    by done.
  split; [|split].
  - destruct (token_reward_budget Scenario.overdrawn
                (Sample.from Sample.stranger) Sample.seasoned Htoken)
      as [Hfail _].
    by apply Hfail.
  - destruct (epochBalanceUpdate Scenario.tokenChain
                (Sample.from Sample.stranger) Sample.seasoned)
      as [[[s' txns] []]|] eqn:Hrun; [|by vm_compute in Hrun].
    destruct (token_reward_budget Scenario.tokenChain
                (Sample.from Sample.stranger) Sample.seasoned Htoken)
      as [_ Hbudget].
    destruct (Hbudget s' txns tt Hrun)
      as (budget & ep & algoReward & commission & excess & p
          & _ & Hdist & _ & _ & Hmet).
    destruct Hmet as (pct & _ & Hpct & ->); [by vm_compute|].
    vm_compute in Hpct. injection Hpct as <-.
    by exists s', txns, (1000 * 1000000 / 1000000), ep, algoReward, p.
  - destruct (epochBalanceUpdate Scenario.allHeldBack
                (Sample.from Sample.stranger) Sample.seasoned)
      as [[[s' txns] []]|] eqn:Hrun; [|by vm_compute in Hrun].
    destruct (token_reward_budget Scenario.allHeldBack
                (Sample.from Sample.stranger) Sample.seasoned Htoken)
      as [_ Hbudget].
    destruct (Hbudget s' txns tt Hrun)
      as (budget & ep & algoReward & commission & excess & p
          & _ & _ & Hlast & Hshort & _).
    destruct Hshort as (_ & Hpaid & Hkept); [by vm_compute|].
    by exists s', txns, p, commission, excess.
Defined.

(** * The further properties on the sample *)

(** X1, on the sample: all 80 slots are Bob's, and Alice is turned away. *)
Lemma addStake_pool_full_witness :
  addStake (Sample.chain 1070 0) Sample.fromRegistry (Sample.pay 2000000)
    Sample.alice Scenario.fullHouse = None /\
  next (Sample.chain 1070 0) Sample.fromRegistry
    (CallAddStake (Sample.pay 2000000) Sample.alice) Scenario.fullHouse
  = Scenario.fullHouse.
Proof.
  apply (addStake_pool_full (Sample.chain 1070 0) Sample.fromRegistry
           (Sample.pay 2000000) Sample.alice Scenario.fullHouse
           (replicate 80 (mkStakedInfo Sample.bob 1000000 0 0 900)));
    [reflexivity|].
  apply Forall_forall. intros x [-> _]%elem_of_replicate. done.
Defined.

(** X2, on the sample: a newcomer with half the minimum is refused. *)
Lemma addStake_below_minimum_witness :
  addStake (Sample.chain 1070 0) Sample.fromRegistry (Sample.pay 500000)
    Sample.stranger Sample.seasoned = None.
Proof.
  apply (addStake_below_minimum (Sample.chain 1070 0) Sample.fromRegistry
           (Sample.pay 500000) Sample.stranger Sample.seasoned
           (ledgerOf Sample.seasoned)); [reflexivity| |reflexivity].
  apply (bool_decide_unpack _). by vm_compute.
Defined.

(** X3, on the sample: a stranger cannot add stake, even for Alice and with
    the payment in place. *)
Lemma addStake_only_from_registry_witness :
  addStake (Sample.chain 1070 0) (Sample.from Sample.stranger)
    (Sample.pay 2000000) Sample.alice Sample.seasoned = None.
Proof.
  apply addStake_only_from_registry. left. by vm_compute.
Defined.

(** X4, on the sample: Alice's first stake of 2,000,000 at time 110. *)
Lemma addStake_effect_witness :
  exists s' txns entry,
    addStake (Sample.chain 110 0) Sample.fromRegistry (Sample.pay 2000000)
      Sample.alice Sample.initialised = Some (s', txns, entry) /\
    entry = 1006 /\ txns = [] /\ totalAlgoStaked s' = 2000000.
Proof.
  destruct (addStake (Sample.chain 110 0) Sample.fromRegistry
              (Sample.pay 2000000) Sample.alice Sample.initialised)
    as [[[s' txns] entry]|] eqn:Hrun; [|by vm_compute in Hrun].
  exists s', txns, entry. split; [done|].
  destruct (addStake_effect (Sample.chain 110 0) Sample.fromRegistry
              (Sample.pay 2000000) Sample.alice Sample.initialised
              s' txns entry Hrun) as (Hentry & Htxns & Htotal & _).
  split; [exact Hentry|]. split; [exact Htxns|]. exact Htotal.
Defined.

(** X5, on the sample: after that stake the lookup finds Alice. *)
Lemma addStake_then_getStakerInfo_witness :
  exists s' txns entry,
    addStake (Sample.chain 110 0) Sample.fromRegistry (Sample.pay 2000000)
      Sample.alice Sample.initialised = Some (s', txns, entry) /\
    exists info,
      getStakerInfo Sample.alice s' = Some info /\
      account info = Sample.alice /\
      entryTime info = entry /\
      2000000 <= balance info.
Proof.
  destruct (addStake (Sample.chain 110 0) Sample.fromRegistry
              (Sample.pay 2000000) Sample.alice Sample.initialised)
    as [[[s' txns] entry]|] eqn:Hrun; [|by vm_compute in Hrun].
  exists s', txns, entry. split; [done|].
  exact (addStake_then_getStakerInfo (Sample.chain 110 0) Sample.fromRegistry
           (Sample.pay 2000000) Sample.alice Sample.initialised
           s' txns entry Hrun).
Defined.

(** X6, on the sample: Bob takes 1,000,000 of his 3,000,000. *)
Lemma removeStake_effect_witness :
  exists s' txns,
    removeStake (Sample.chain 1070 0) (Sample.from Sample.bob) 1000000
      Sample.seasoned = Some (s', txns, tt) /\
    paymentsTotal txns = 1000000 /\
    totalAlgoStaked s' + 1000000 = 5000000.
Proof.
  destruct (removeStake (Sample.chain 1070 0) (Sample.from Sample.bob) 1000000
              Sample.seasoned)
    as [[[s' txns] []]|] eqn:Hrun; [|by vm_compute in Hrun].
  exists s', txns. split; [done|].
  destruct (removeStake_effect (Sample.chain 1070 0) (Sample.from Sample.bob)
              1000000 Sample.seasoned s' txns tt Hrun)
    as (i & cmp & new & amount & _ & _ & _ & Hamount & _ & _ & _ & _ & _ & _
        & Htotal & Hpaid & _).
  simpl in Hamount. subst amount. split; [exact Hpaid|exact Htotal].
Defined.

(** X7, on the sample: Alice leaves pool 1 with 40 reward tokens waiting. *)
Lemma removeStake_token_settlement_witness :
  exists s' txns,
    removeStake Scenario.aliceOptedIn (Sample.from Sample.alice) 0
      Scenario.tokenHolder = Some (s', txns, tt) /\
    last txns
      = Some (StakeRemoved (ValidatorPoolKey.mk 1 1 Sample.poolAppId)
                Sample.alice 2000000 40 true) /\
    List.filter isAssetTransfer txns = [AssetTransfer 77 Sample.alice 40] /\
    List.filter isPayment txns = [Payment Sample.alice 2000000 "unstaked"].
Proof.
  destruct (removeStake Scenario.aliceOptedIn (Sample.from Sample.alice) 0
              Scenario.tokenHolder)
    as [[[s' txns] []]|] eqn:Hrun; [|by vm_compute in Hrun].
  exists s', txns. split; [done|].
  destruct (removeStake_token_settlement Scenario.aliceOptedIn
              (Sample.from Sample.alice) 0 Scenario.tokenHolder s' txns tt
              (ledgerOf Scenario.tokenHolder) 0%nat
              (mkStakedInfo Sample.alice 2000000 0 40 900)
              eq_refl eq_refl Hrun) as (Hlast & Hsent & _ & Hpaid).
  split; [exact Hlast|]. split; [|exact Hpaid].
  exact (Hsent (conj eq_refl eq_refl)).
Defined.

(** X8, on the sample: Bob holds 3,000,000 and asks for 4,000,000. *)
Lemma removeStake_insufficient_balance_witness :
  removeStake (Sample.chain 1070 0) (Sample.from Sample.bob) 4000000
    Sample.seasoned = None.
Proof.
  apply (removeStake_insufficient_balance (Sample.chain 1070 0)
           (Sample.from Sample.bob) 4000000 Sample.seasoned
           (ledgerOf Sample.seasoned) 1%nat
           (mkStakedInfo Sample.bob 3000000 0 0 1040));
    reflexivity.
Defined.

(** X9, on the sample: Bob takes 1,000,000 and keeps his slot with
    2,000,000; with the pool account short of funds the payment of
    2,000,000 is refused. *)
Lemma removeStake_partial_witness :
  (exists s' txns,
     removeStake Scenario.aliceOptedIn (Sample.from Sample.bob) 1000000
       Sample.seasoned = Some (s', txns, tt) /\
     ledgerOf s' !! 1%nat = Some (mkStakedInfo Sample.bob 2000000 0 0 1040) /\
     numStakers s' = 2) /\
  removeStake Scenario.shortOfFunds (Sample.from Sample.bob) 2000000
    Sample.seasoned = None.
Proof.
  assert (sender (Sample.from Sample.bob) <> zeroAddress) as Hsender by done.
  assert ((1000000 : N) <> 0) as Hasked by done.
  assert ((2000000 : N) <> 0) as Hasked' by done.
  assert (minEntryStake Sample.seasoned
          <= balance (mkStakedInfo Sample.bob 3000000 0 0 1040) - 1000000)
    as Hleft by (by vm_compute).
  assert (minEntryStake Sample.seasoned
          <= balance (mkStakedInfo Sample.bob 3000000 0 0 1040) - 2000000)
    as Hleft' by (by vm_compute).
  split.
  - destruct (removeStake_partial Scenario.aliceOptedIn
                (Sample.from Sample.bob) 1000000 Sample.seasoned
                (ledgerOf Sample.seasoned) 1%nat
                (mkStakedInfo Sample.bob 3000000 0 0 1040)
                sample_seasoned_ledger_ok Hsender eq_refl eq_refl Hasked
                eq_refl Hleft) as [Haccepted _].
    destruct (Haccepted eq_refl) as (s' & txns & Hrun & _ & Hslot & Hnum & _).
    exists s', txns. split; [exact Hrun|]. split; [exact Hslot|exact Hnum].
  - destruct (removeStake_partial Scenario.shortOfFunds
                (Sample.from Sample.bob) 2000000 Sample.seasoned
                (ledgerOf Sample.seasoned) 1%nat
                (mkStakedInfo Sample.bob 3000000 0 0 1040)
                sample_seasoned_ledger_ok Hsender eq_refl eq_refl Hasked'
                eq_refl Hleft') as [_ Hrefused].
    by apply Hrefused.
Defined.

(** X10, on the sample: the stranger holds no slot. *)
Lemma unknown_staker_rejected_witness :
  removeStake (Sample.chain 1070 0) (Sample.from Sample.stranger) 0
    Sample.seasoned = None /\
  claimTokens (Sample.chain 1070 0) (Sample.from Sample.stranger)
    Sample.seasoned = None /\
  getStakerInfo (sender (Sample.from Sample.stranger)) Sample.seasoned = None.
Proof.
  apply (unknown_staker_rejected (Sample.chain 1070 0)
           (Sample.from Sample.stranger) 0 Sample.seasoned
           (ledgerOf Sample.seasoned)); [reflexivity|].
  apply (bool_decide_unpack _). by vm_compute.
Defined.

(** X11, on the sample: Alice claims her 40 tokens; no stake moves. *)
Lemma claimTokens_effect_witness :
  exists s' txns,
    claimTokens Scenario.tokenChain (Sample.from Sample.alice)
      Scenario.tokenHolder = Some (s', txns, tt) /\
    totalAlgoStaked s' = 5000000 /\ numStakers s' = 2 /\
    paymentsTotal txns = 0 /\
    claimTokens Scenario.tokenChain (Sample.from Sample.alice) s'
    = Some (s', [], tt).
Proof.
  destruct (claimTokens Scenario.tokenChain (Sample.from Sample.alice)
              Scenario.tokenHolder)
    as [[[s' txns] []]|] eqn:Hrun; [|by vm_compute in Hrun].
  exists s', txns. split; [done|].
  destruct (claimTokens_effect Scenario.tokenChain (Sample.from Sample.alice)
              Scenario.tokenHolder s' txns tt Hrun)
    as (i & cmp & _ & _ & Htotal & Hnum & Hpaid & _ & Hagain).
  split; [exact Htotal|]. split; [exact Hnum|]. split; [exact Hpaid|].
  by apply Hagain.
Defined.

(** X12, on the sample: the epoch update of the seasoned ledger keeps its 80
    slots. *)
Lemma epochBalanceUpdate_only_credits_witness :
  exists s' txns,
    epochBalanceUpdate
      (Sample.chainAt Sample.freeConfig Sample.quietState 1070 20000000 0)
      (Sample.from Sample.stranger) Sample.seasoned = Some (s', txns, tt) /\
    length (ledgerOf s') = 80%nat.
Proof.
  destruct (epochBalanceUpdate
              (Sample.chainAt Sample.freeConfig Sample.quietState 1070 20000000 0)
              (Sample.from Sample.stranger) Sample.seasoned)
    as [[[s' txns] []]|] eqn:Hrun; [|by vm_compute in Hrun].
  exists s', txns. split; [done|].
  destruct (epochBalanceUpdate_only_credits
              (Sample.chainAt Sample.freeConfig Sample.quietState 1070 20000000 0)
              (Sample.from Sample.stranger) Sample.seasoned s' txns tt Hrun)
    as [Hlength _].
  exact Hlength.
Defined.

(** X14, on the sample: the pool after Alice and Bob have staked. *)
Lemma reachable_identity_witness :
  MIN_ALGO_STAKE_PER_POOL <= minEntryStake Sample.staked /\
  (creatingValidatorContractAppId Sample.staked = 0 ->
   validatorId Sample.staked = 0 /\ poolId Sample.staked = 0) /\
  (creatingValidatorContractAppId Sample.staked <> 0 ->
   validatorId Sample.staked <> 0 /\ poolId Sample.staked <> 0).
Proof. exact (reachable_identity Sample.staked sample_staked_reachable). Defined.

Lemma sample_staked_box :
  stakers Sample.staked = Some (ledgerOf Sample.staked).
Proof. by vm_compute. Qed.

(** X15, on the sample: that pool's ledger has its 80 slots. *)
Lemma ledger_length_fixed_witness :
  length (ledgerOf Sample.staked) = N.to_nat MAX_STAKERS_PER_POOL.
Proof.
  exact (ledger_length_fixed Sample.staked (ledgerOf Sample.staked)
           sample_staked_reachable sample_staked_box).
Defined.

(** X16, on the sample: Bob's slot holds 3,000,000, the minimum being
    1,000,000. *)
Lemma occupied_slots_hold_minimum_witness :
  minEntryStake Sample.staked
    <= balance (mkStakedInfo Sample.bob 3000000 0 0 1016).
Proof.
  assert (ledgerOf Sample.staked !! 1%nat
          = Some (mkStakedInfo Sample.bob 3000000 0 0 1016)) as Hslot
    by (by vm_compute).
  assert (account (mkStakedInfo Sample.bob 3000000 0 0 1016) <> zeroAddress)
    as Hocc by done.
  exact (occupied_slots_hold_minimum Sample.staked 1%nat
           (mkStakedInfo Sample.bob 3000000 0 0 1016)
           sample_staked_reachable Hslot Hocc).
Defined.

(** X17, on the sample: slot 5 of that pool is empty. *)
Lemma empty_slots_are_blank_witness :
  balance emptySlot = 0 /\ totalRewarded emptySlot = 0 /\
  rewardTokenBalance emptySlot = 0.
Proof.
  assert (ledgerOf Sample.staked !! 5%nat = Some emptySlot) as Hslot
    by (by vm_compute).
  exact (empty_slots_are_blank Sample.staked 5%nat emptySlot
           sample_staked_reachable Hslot eq_refl).
Defined.

Lemma sample_initialised_ledger :
  ledgerOf Sample.initialised = replicate 80 emptySlot.
Proof. by vm_compute. Qed.

(** X18, on the sample: Alice's first stake into the empty ledger. *)
Lemma no_duplicates_without_withdrawal_witness :
  gapFree (ledgerOf Sample.aliceIn) /\ no_duplicates (ledgerOf Sample.aliceIn).
Proof.
  assert (forall amountToUnstake,
            CallAddStake (Sample.pay 2000000) Sample.alice
            <> CallRemoveStake amountToUnstake) as Hcall by done.
  destruct (replicate_empty_unique 80) as [Hgap Hdup].
  rewrite <- sample_initialised_ledger in Hgap, Hdup.
  exact (no_duplicates_without_withdrawal (Sample.chain 110 0)
           Sample.fromRegistry (CallAddStake (Sample.pay 2000000) Sample.alice)
           Sample.initialised Hcall Hgap Hdup).
Defined.

(** X19, on the sample: 5% of a surplus of 14,900,000 is paid out as
    commission. *)
Lemma commission_split_witness :
  exists s' txns,
    epochBalanceUpdate (Sample.chain 160 20000000) (Sample.from Sample.stranger)
      Sample.staked = Some (s', txns, tt) /\
    exists increased tokenPaid commission excess,
      last txns
        = Some (StakeUpdatedViaRewards
                  (poolKeyOf (Sample.from Sample.stranger) Sample.staked)
                  increased tokenPaid commission excess) /\
      paymentsTotal txns = commission + excess.
Proof.
  destruct (epochBalanceUpdate (Sample.chain 160 20000000)
              (Sample.from Sample.stranger) Sample.staked)
    as [[[s' txns] []]|] eqn:Hrun; [|by vm_compute in Hrun].
  exists s', txns. split; [done|].
  destruct (commission_split (Sample.chain 160 20000000)
              (Sample.from Sample.stranger) Sample.staked s' txns tt Hrun)
    as (increased & tokenPaid & commission & excess & Hlast & Hpaid & _).
  by exists increased, tokenPaid, commission, excess.
Defined.

(** X20, on the sample: the pool holds 20,000,000 and stays solvent. *)
Lemma epochBalanceUpdate_stays_solvent_witness :
  exists s' txns,
    epochBalanceUpdate
      (Sample.chainAt Sample.freeConfig Sample.quietState 1070 20000000 0)
      (Sample.from Sample.stranger) Sample.seasoned = Some (s', txns, tt) /\
    paymentsTotal txns + totalAlgoStaked s' + 100000 <= 20000000.
Proof.
  destruct (epochBalanceUpdate
              (Sample.chainAt Sample.freeConfig Sample.quietState 1070 20000000 0)
              (Sample.from Sample.stranger) Sample.seasoned)
    as [[[s' txns] []]|] eqn:Hrun; [|by vm_compute in Hrun].
  exists s', txns. split; [done|].
  exact (epochBalanceUpdate_stays_solvent
           (Sample.chainAt Sample.freeConfig Sample.quietState 1070 20000000 0)
           (Sample.from Sample.stranger) Sample.seasoned s' txns tt
           sample_seasoned_ledger_ok Hrun).
Defined.

(** X21, on the sample: pool 1 has 1000 reward tokens to hand out. *)
Lemma token_conservation_witness :
  exists s' txns,
    epochBalanceUpdate Scenario.tokenChain (Sample.from Sample.stranger)
      Sample.seasoned = Some (s', txns, tt) /\
    exists tokenPaid,
      tokenSum (ledgerOf s') = tokenSum (ledgerOf Sample.seasoned) + tokenPaid /\
      tokenPaid <= 1000.
Proof.
  destruct (epochBalanceUpdate Scenario.tokenChain (Sample.from Sample.stranger)
              Sample.seasoned)
    as [[[s' txns] []]|] eqn:Hrun; [|by vm_compute in Hrun].
  exists s', txns. split; [done|].
  destruct (token_conservation Scenario.tokenChain (Sample.from Sample.stranger)
              Sample.seasoned s' txns tt sample_seasoned_ledger_ok Hrun)
    as (tokenReward & payments & increased & tokenPaid & commission & excess
        & Hreward & _ & Hsum & Hle).
  vm_compute in Hreward. injection Hreward as <-.
  by exists tokenPaid.
Defined.

Lemma sample_claim_run :
  exec Scenario.tokenChain (Sample.from Sample.alice) CallClaimTokens
    Scenario.tokenHolder
  = Some (next Scenario.tokenChain (Sample.from Sample.alice) CallClaimTokens
            Scenario.tokenHolder,
          [AssetTransfer 77 Sample.alice 40;
           StakeRemoved (ValidatorPoolKey.mk 1 1 Sample.poolAppId) Sample.alice
             0 40 false]).
Proof. by vm_compute. Qed.

(** X22, on the sample: Alice's claim is paid by pool 1 itself. *)
Lemma only_pool_one_transfers_tokens_witness :
  poolId Scenario.tokenHolder = 1.
Proof.
  apply (only_pool_one_transfers_tokens Scenario.tokenChain
           (Sample.from Sample.alice) CallClaimTokens Scenario.tokenHolder
           (next Scenario.tokenChain (Sample.from Sample.alice) CallClaimTokens
              Scenario.tokenHolder)
           [AssetTransfer 77 Sample.alice 40;
            StakeRemoved (ValidatorPoolKey.mk 1 1 Sample.poolAppId) Sample.alice
              0 40 false]
           77 Sample.alice 40 sample_claim_run).
  by constructor.
Defined.

Lemma sample_epoch_run :
  exec (Sample.chain 160 20000000) (Sample.from Sample.stranger)
    CallEpochBalanceUpdate Sample.staked
  = Some (next (Sample.chain 160 20000000) (Sample.from Sample.stranger)
            CallEpochBalanceUpdate Sample.staked,
          [Payment Sample.commissionAddress 745000 "validator reward";
           StakeUpdatedViaRewards (ValidatorPoolKey.mk 1 1 Sample.poolAppId)
             0 0 745000 0]).
Proof. by vm_compute. Qed.

(** X23, on the sample: the commission of that epoch update goes to one of
    the four. *)
Lemma payments_go_to_known_parties_witness :
  Sample.commissionAddress = sender (Sample.from Sample.stranger) \/
  Sample.commissionAddress = getFeeSink \/
  Sample.commissionAddress
    = ValidatorConfig.manager
        (getValidatorConfig (registryOf (Sample.chain 160 20000000) Sample.staked)
           (validatorId Sample.staked)) \/
  Sample.commissionAddress
    = ValidatorConfig.validatorCommissionAddress
        (getValidatorConfig (registryOf (Sample.chain 160 20000000) Sample.staked)
           (validatorId Sample.staked)).
Proof.
  apply (payments_go_to_known_parties (Sample.chain 160 20000000)
           (Sample.from Sample.stranger) CallEpochBalanceUpdate Sample.staked
           (next (Sample.chain 160 20000000) (Sample.from Sample.stranger)
              CallEpochBalanceUpdate Sample.staked)
           [Payment Sample.commissionAddress 745000 "validator reward";
            StakeUpdatedViaRewards (ValidatorPoolKey.mk 1 1 Sample.poolAppId)
              0 0 745000 0]
           Sample.commissionAddress 745000 "validator reward" sample_epoch_run).
  by constructor.
Defined.

Lemma sample_initialised_box : is_Some (stakers Sample.initialised).
Proof. exists (replicate 80 emptySlot). by vm_compute. Qed.

(** X24, on the sample: after Alice's stake the box is still there and a
    second [initStorage] is refused. *)
Lemma initStorage_only_once_witness :
  is_Some (stakers Sample.aliceIn) /\
  initStorage (Sample.chain 120 0) Sample.fromRegistry
    (Sample.pay Sample.initMbr) Sample.aliceIn = None.
Proof.
  exact (initStorage_only_once (Sample.chain 110 0) Sample.fromRegistry
           (CallAddStake (Sample.pay 2000000) Sample.alice) Sample.initialised
           (Sample.chain 120 0) Sample.fromRegistry (Sample.pay Sample.initMbr)
           sample_initialised_box).
Defined.

(** X25, on the sample: the pool as created has no box yet. *)
Lemma no_ledger_no_staking_witness :
  addStake (Sample.chain 110 0) Sample.fromRegistry (Sample.pay 2000000)
    Sample.alice Sample.created = None /\
  removeStake (Sample.chain 110 0) Sample.fromRegistry 0 Sample.created = None /\
  claimTokens (Sample.chain 110 0) Sample.fromRegistry Sample.created = None /\
  epochBalanceUpdate (Sample.chain 110 0) Sample.fromRegistry Sample.created
    = None /\
  getStakerInfo Sample.alice Sample.created = None.
Proof.
  exact (no_ledger_no_staking (Sample.chain 110 0) Sample.fromRegistry
           (Sample.pay 2000000) Sample.alice 0 Sample.created eq_refl).
Defined.

(** X26, on the sample: 80 slots and no reward token cost
    [100,000 + 2500 + 5127 * 400 = 2,153,300]. *)
Lemma initStorage_effect_witness :
  exists s' txns,
    initStorage (Sample.chain 100 0) Sample.fromRegistry
      (Sample.pay Sample.initMbr) Sample.created = Some (s', txns, tt) /\
    Sample.initMbr = 100000 + 0 + 2500 + (7 + 64 * 80) * 400 /\
    length (ledgerOf s') = 80%nat /\
    List.filter isPayment txns = [] /\
    List.filter isAssetTransfer txns = [].
Proof.
  destruct (initStorage (Sample.chain 100 0) Sample.fromRegistry
              (Sample.pay Sample.initMbr) Sample.created)
    as [[[s' txns] []]|] eqn:Hrun; [|by vm_compute in Hrun].
  exists s', txns. split; [done|].
  destruct (initStorage_effect (Sample.chain 100 0) Sample.fromRegistry
              (Sample.pay Sample.initMbr) Sample.created s' txns tt Hrun)
    as (_ & Hpaid & Hlength & _ & _ & _ & Hnone & Htransfers).
  split; [exact Hpaid|]. split; [exact Hlength|].
  split; [exact Hnone|exact Htransfers].
Defined.

(** X27, on the sample: a fresh pool of the first version turns Alice
    away. *)
Lemma legacy_addStake_admits_nobody_witness :
  Legacy.addStake Sample.registryId (Sample.chain 110 0)
    (Sample.from Sample.alice) (Sample.pay 2000000) Sample.alice 2000000
    Scenario.legacyPool = None.
Proof.
  apply legacy_addStake_admits_nobody.
  apply (bool_decide_unpack _). by vm_compute.
Defined.

Lemma sample_legacy_reachable :
  Legacy.reachable Sample.registryId 50000000000000 Scenario.legacyTried.
Proof.
  apply Legacy.reachable_call.
  by apply (Legacy.reachable_created Sample.registryId 50000000000000
              (Sample.chain 100 0) Sample.fromRegistry 1 1 Sample.owner
              Sample.manager).
Qed.

(** X28, on the sample: after Alice's attempt the pool is as empty as
    before. *)
Lemma legacy_pool_stays_empty_witness :
  Legacy.Stakers Scenario.legacyTried = replicate 80 Legacy.emptySlot /\
  Legacy.NumStakers Scenario.legacyTried = 0 /\
  Legacy.TotalAlgoStaked Scenario.legacyTried = 0.
Proof.
  destruct (legacy_pool_stays_empty Sample.registryId 50000000000000
              Scenario.legacyTried sample_legacy_reachable)
    as (Hledger & Hnum & Htotal & _).
  split; [exact Hledger|]. split; [exact Hnum|exact Htotal].
Defined.
